(** * vedo/assembly.py: groups and assemblies of scene objects

    A shallow embedding of [src/vedo/assembly.py].  Python objects live in a
    store indexed by identity; every method is a function in a small
    state-and-exception monad over that store, so that in-place mutation,
    aliasing and raised exceptions are modelled as the code has them. *)

From Stdlib Require Import PrimFloat ZArith Lia.
From stdpp Require Import base option list strings.

Set Warnings "-register-all,-inexact-float".
Local Open Scope string_scope.
Local Open Scope list_scope.

(** ** Python values *)

(** The identity of an object ([id(obj)]): its index in the store. *)
Abbreviation ref := nat.

Inductive pyval :=
  | VNone
  | VInt (z : Z)
  | VFloat (f : float)
  | VStr (s : string)
  | VObj (r : ref)
  | VList (l : list pyval)                 (* list or tuple *)
  | VDict (d : list (string * pyval)).     (* name -> value, insertion order *)

(** The classes that [assembly.py] tells apart with [isinstance]. *)
Inductive pyclass :=
  | CPoints      (* vedo.Points and its subclasses (Mesh, ...) *)
  | CAssembly    (* vedo.Assembly, a vtkAssembly *)
  | CGroup       (* vedo.Group, a vtkPropAssembly *)
  | CProp3D      (* any other renderer Prop3D, e.g. the vtkActor of a mesh *)
  | CProp2D.     (* any other renderer prop: 2D actors, scalar bars *)

(** What the 2D-projection primitive of a point set was called with. *)
Record projection := mkProjection {
  proj_source : ref;
  proj_size : float;
  proj_offset : float * float
}.

Record pyobj := mkObj {
  cls : pyclass;
  name : string;
  actor : option pyval;           (* attribute [actor]; None when absent *)
  scalarbar : option pyval;       (* attribute [scalarbar]; None when absent *)
  objects : list pyval;           (* Assembly.objects *)
  actors : list pyval;            (* Assembly.actors *)
  parts : list ref;               (* the renderer's composite structure *)
  pickable : bool;                (* GetPickable() *)
  position : float * float * float;  (* GetPosition() / pos() *)
  xbounds : float * float;
  ybounds : float * float;
  npoints : Z;
  representation : Z;             (* properties.GetRepresentation() *)
  rotations : list float;         (* the rotate_z calls received *)
  proj : option projection;       (* set on the output of the 2D projection *)
  pos2d : pyval;                  (* the argument of the last pos(...) call *)
  is_ontop : bool;
  extra : list (string * pyval)   (* other instance attributes *)
}.

Definition set_name (v : string) (o : pyobj) : pyobj :=
  mkObj (cls o) v (actor o) (scalarbar o) (objects o) (actors o) (parts o)
    (pickable o) (position o) (xbounds o) (ybounds o) (npoints o)
    (representation o) (rotations o) (proj o) (pos2d o) (is_ontop o) (extra o).
Definition set_actor (v : option pyval) (o : pyobj) : pyobj :=
  mkObj (cls o) (name o) v (scalarbar o) (objects o) (actors o) (parts o)
    (pickable o) (position o) (xbounds o) (ybounds o) (npoints o)
    (representation o) (rotations o) (proj o) (pos2d o) (is_ontop o) (extra o).
Definition set_scalarbar (v : option pyval) (o : pyobj) : pyobj :=
  mkObj (cls o) (name o) (actor o) v (objects o) (actors o) (parts o)
    (pickable o) (position o) (xbounds o) (ybounds o) (npoints o)
    (representation o) (rotations o) (proj o) (pos2d o) (is_ontop o) (extra o).
Definition set_objects (v : list pyval) (o : pyobj) : pyobj :=
  mkObj (cls o) (name o) (actor o) (scalarbar o) v (actors o) (parts o)
    (pickable o) (position o) (xbounds o) (ybounds o) (npoints o)
    (representation o) (rotations o) (proj o) (pos2d o) (is_ontop o) (extra o).
Definition set_actors (v : list pyval) (o : pyobj) : pyobj :=
  mkObj (cls o) (name o) (actor o) (scalarbar o) (objects o) v (parts o)
    (pickable o) (position o) (xbounds o) (ybounds o) (npoints o)
    (representation o) (rotations o) (proj o) (pos2d o) (is_ontop o) (extra o).
Definition set_parts (v : list ref) (o : pyobj) : pyobj :=
  mkObj (cls o) (name o) (actor o) (scalarbar o) (objects o) (actors o) v
    (pickable o) (position o) (xbounds o) (ybounds o) (npoints o)
    (representation o) (rotations o) (proj o) (pos2d o) (is_ontop o) (extra o).
Definition set_pickable (v : bool) (o : pyobj) : pyobj :=
  mkObj (cls o) (name o) (actor o) (scalarbar o) (objects o) (actors o) (parts o)
    v (position o) (xbounds o) (ybounds o) (npoints o)
    (representation o) (rotations o) (proj o) (pos2d o) (is_ontop o) (extra o).
Definition set_position (v : float * float * float) (o : pyobj) : pyobj :=
  mkObj (cls o) (name o) (actor o) (scalarbar o) (objects o) (actors o) (parts o)
    (pickable o) v (xbounds o) (ybounds o) (npoints o)
    (representation o) (rotations o) (proj o) (pos2d o) (is_ontop o) (extra o).
Definition set_bounds (xb yb : float * float) (o : pyobj) : pyobj :=
  mkObj (cls o) (name o) (actor o) (scalarbar o) (objects o) (actors o) (parts o)
    (pickable o) (position o) xb yb (npoints o)
    (representation o) (rotations o) (proj o) (pos2d o) (is_ontop o) (extra o).
Definition set_rotations (v : list float) (o : pyobj) : pyobj :=
  mkObj (cls o) (name o) (actor o) (scalarbar o) (objects o) (actors o) (parts o)
    (pickable o) (position o) (xbounds o) (ybounds o) (npoints o)
    (representation o) v (proj o) (pos2d o) (is_ontop o) (extra o).
Definition set_pos2d (v : pyval) (o : pyobj) : pyobj :=
  mkObj (cls o) (name o) (actor o) (scalarbar o) (objects o) (actors o) (parts o)
    (pickable o) (position o) (xbounds o) (ybounds o) (npoints o)
    (representation o) (rotations o) (proj o) v (is_ontop o) (extra o).
Definition set_ontop (v : bool) (o : pyobj) : pyobj :=
  mkObj (cls o) (name o) (actor o) (scalarbar o) (objects o) (actors o) (parts o)
    (pickable o) (position o) (xbounds o) (ybounds o) (npoints o)
    (representation o) (rotations o) (proj o) (pos2d o) v (extra o).
Definition set_extra (v : list (string * pyval)) (o : pyobj) : pyobj :=
  mkObj (cls o) (name o) (actor o) (scalarbar o) (objects o) (actors o) (parts o)
    (pickable o) (position o) (xbounds o) (ybounds o) (npoints o)
    (representation o) (rotations o) (proj o) (pos2d o) (is_ontop o) v.

(** A freshly created renderer object of class [c], before any attribute of
    the vedo wrapper is set: pickable, at the origin, empty. *)
Definition new_object (c : pyclass) : pyobj :=
  mkObj c "" None None [] [] [] true (0, 0, 0)%float (0, 0)%float (0, 0)%float
    0%Z 0%Z [] None VNone false [].

(** ** The store, the log and the monad *)

Inductive exn :=
  | AttributeError
  | TypeError
  | IndexError
  | ValueError (msg : string)
  | RuntimeError
  | RecursionError
  | OSError
  | DanglingRef.   (* a reference outside the store; no Python run reaches it *)

Inductive result (A : Type) :=
  | Ok (a : A)
  | Raise (e : exn).
Arguments Ok {A} a.
Arguments Raise {A} e.

Inductive loglevel := LWarning | LError.

Record state := mkState {
  objs : list pyobj;                   (* the store: objs !! r is object r *)
  logs : list (loglevel * string)      (* what vedo.logger received *)
}.

(** A computation returns a value or raises, and in both cases leaves a
    store behind: what was mutated before an exception stays mutated. *)
Definition M (A : Type) : Type := state -> result A * state.

Definition ret {A} (a : A) : M A := fun s => (Ok a, s).
Definition raise {A} (e : exn) : M A := fun s => (Raise e, s).
Definition bind {A B} (m : M A) (k : A -> M B) : M B :=
  fun s => match m s with
           | (Ok a, s') => k a s'
           | (Raise e, s') => (Raise e, s')
           end.

Notation "x <- m ;; k" := (bind m (fun x => k))
  (at level 62, m at next level, right associativity).
Notation "m ;;; k" := (bind m (fun _ => k))
  (at level 62, right associativity).

Definition get_state : M state := fun s => (Ok s, s).

Definition alloc (o : pyobj) : M ref :=
  fun s => (Ok (length (objs s)), mkState (objs s ++ [o]) (logs s)).

Definition deref (r : ref) : M pyobj :=
  fun s => match objs s !! r with
           | Some o => (Ok o, s)
           | None => (Raise DanglingRef, s)
           end.

Definition update (r : ref) (f : pyobj -> pyobj) : M unit :=
  fun s => match objs s !! r with
           | Some o => (Ok tt, mkState (<[r := f o]> (objs s)) (logs s))
           | None => (Raise DanglingRef, s)
           end.

Definition log (l : loglevel) (msg : string) : M unit :=
  fun s => (Ok tt, mkState (objs s) (logs s ++ [(l, msg)])).

Fixpoint mapM {A B} (f : A -> M B) (l : list A) : M (list B) :=
  match l with
  | [] => ret []
  | a :: l' => b <- f a ;; bs <- mapM f l' ;; ret (b :: bs)
  end.

Fixpoint forM_ {A} (l : list A) (f : A -> M unit) : M unit :=
  match l with
  | [] => ret tt
  | a :: l' => f a ;;; forM_ l' f
  end.

Fixpoint foldM {A B} (f : B -> A -> M B) (b : B) (l : list A) : M B :=
  match l with
  | [] => ret b
  | a :: l' => b' <- f b a ;; foldM f b' l'
  end.

(** ** Built-in operations on values *)

(** [needle in hay] for two strings: substring search. *)
Fixpoint str_contains (needle hay : string) : bool :=
  match hay with
  | EmptyString => String.prefix needle hay
  | String _ hay' => String.prefix needle hay || str_contains needle hay'
  end.

Fixpoint float_of_pos (p : positive) : float :=
  match p with
  | xH => 1
  | xO q => 2 * float_of_pos q
  | xI q => 2 * float_of_pos q + 1
  end.

Definition float_of_Z (z : Z) : float :=
  match z with
  | Z0 => 0
  | Zpos p => float_of_pos p
  | Zneg p => - float_of_pos p
  end.

(** [a == b]: by value on built-in values, by identity on objects (none of
    the classes of this module defines [__eq__]). *)
Fixpoint py_eq (a b : pyval) : bool :=
  match a, b with
  | VNone, VNone => true
  | VInt x, VInt y => Z.eqb x y
  | VFloat x, VFloat y => PrimFloat.eqb x y
  | VInt x, VFloat y => PrimFloat.eqb (float_of_Z x) y
  | VFloat x, VInt y => PrimFloat.eqb x (float_of_Z y)
  | VStr x, VStr y => String.eqb x y
  | VObj x, VObj y => Nat.eqb x y
  | VList x, VList y =>
      (fix go (x y : list pyval) : bool :=
         match x, y with
         | [], [] => true
         | u :: x', v :: y' => py_eq u v && go x' y'
         | _, _ => false
         end) x y
  | _, _ => false
  end.

(** [a in l] for a list [l]. *)
Definition py_in (a : pyval) (l : list pyval) : bool := existsb (py_eq a) l.

(** A float in a condition: false for 0.0 and -0.0 only. *)
Definition float_truthy (f : float) : bool := negb (PrimFloat.eqb f 0).

Definition class_of (s : state) (v : pyval) : option pyclass :=
  match v with
  | VObj r => cls <$> objs s !! r
  | _ => None
  end.

Definition class_eqb (a b : pyclass) : bool :=
  match a, b with
  | CPoints, CPoints | CAssembly, CAssembly | CGroup, CGroup
  | CProp3D, CProp3D | CProp2D, CProp2D => true
  | _, _ => false
  end.

(** [isinstance(v, Assembly)], [isinstance(v, Group)], [isinstance(v, vedo.Points)]. *)
Definition is_class (c : pyclass) (s : state) (v : pyval) : bool :=
  match class_of s v with
  | Some c' => class_eqb c c'
  | None => false
  end.

(** [isinstance(v, vtki.get_class("Prop3D"))]: an Assembly is a vtkAssembly
    and so a Prop3D; a Group is a vtkPropAssembly, which is not. *)
Definition is_Prop3D (s : state) (v : pyval) : bool :=
  match class_of s v with
  | Some CAssembly | Some CProp3D => true
  | _ => false
  end.

(** [bool(v)].  Assembly defines [__len__] and no [__bool__], so an assembly
    without objects is falsy; the other classes define neither. *)
Definition truthy (s : state) (v : pyval) : bool :=
  match v with
  | VNone => false
  | VInt z => negb (Z.eqb z 0)
  | VFloat f => float_truthy f
  | VStr x => negb (String.eqb x "")
  | VList l => match l with [] => false | _ => true end
  | VDict d => match d with [] => false | _ => true end
  | VObj r =>
      match objs s !! r with
      | Some o => match cls o with
                  | CAssembly => match objects o with [] => false | _ => true end
                  | _ => true
                  end
      | None => true
      end
  end.

(** [getattr(v, "actor", None)] and [getattr(v, "scalarbar", None)]. *)
Definition getattr_actor (s : state) (v : pyval) : pyval :=
  match v with
  | VObj r => match objs s !! r with
              | Some o => default VNone (actor o)
              | None => VNone
              end
  | _ => VNone
  end.

Definition getattr_scalarbar (s : state) (v : pyval) : pyval :=
  match v with
  | VObj r => match objs s !! r with
              | Some o => default VNone (scalarbar o)
              | None => VNone
              end
  | _ => VNone
  end.

(** [v.actor], [v.name], [v.npoints]: AttributeError on a value without the
    attribute.  Objects always carry [name] and [npoints]. *)
Definition attr_actor (v : pyval) : M pyval :=
  match v with
  | VObj r => o <- deref r ;;
              match actor o with
              | Some a => ret a
              | None => raise AttributeError
              end
  | _ => raise AttributeError
  end.

Definition attr_name (v : pyval) : M string :=
  match v with
  | VObj r => o <- deref r ;; ret (name o)
  | _ => raise AttributeError
  end.

Definition attr_npoints (v : pyval) : M Z :=
  match v with
  | VObj r => o <- deref r ;; ret (npoints o)
  | _ => raise AttributeError
  end.

(** [v.name = nm]. *)
Definition setattr_name (v : pyval) (nm : string) : M unit :=
  match v with
  | VObj r => update r (set_name nm)
  | _ => raise AttributeError
  end.

Fixpoint chars (x : string) : list pyval :=
  match x with
  | EmptyString => []
  | String c x' => VStr (String c EmptyString) :: chars x'
  end.

(** [for x in v]: the elements a loop over [v] visits.  An Assembly has
    [__getitem__] and [__len__] and no [__iter__], so a loop over it visits
    its objects (the sequence protocol). *)
Definition py_iter (v : pyval) : M (list pyval) :=
  match v with
  | VList l => ret l
  | VDict d => ret (map (fun kv => VStr (fst kv)) d)
  | VStr x => ret (chars x)
  | VObj r => o <- deref r ;;
              match cls o with
              | CAssembly => ret (objects o)
              | _ => raise TypeError
              end
  | _ => raise TypeError
  end.

(** [l[i]] on a list, with Python's negative indices. *)
Definition py_index (l : list pyval) (i : Z) : M pyval :=
  let n := Z.of_nat (length l) in
  let j := if (i <? 0)%Z then (i + n)%Z else i in
  if (j <? 0)%Z then raise IndexError
  else match l !! Z.to_nat j with
       | Some v => ret v
       | None => raise IndexError
       end.

(** ** External collaborators *)

(** Modelled from the spec: [vedo.utils.flatten], which is not in this file
    ("Flattens nested sequences": lists and tuples are opened recursively,
    everything else is kept). *)
Fixpoint flatten_val (v : pyval) : list pyval :=
  match v with
  | VList l =>
      (fix go (l : list pyval) : list pyval :=
         match l with
         | [] => []
         | x :: l' => flatten_val x ++ go l'
         end) l
  | _ => [v]
  end.

Definition flatten (l : list pyval) : list pyval := flatten_val (VList l).

(** Modelled from the spec: [vedo.utils.is_sequence], true of lists, tuples
    and mappings, false of strings and of the objects of this module. *)
Definition is_sequence (v : pyval) : bool :=
  match v with
  | VList _ | VDict _ => true
  | _ => false
  end.

(** Modelled from the spec: the renderer's [AddPart] ("appends ... to the
    internal collection; no duplicate check; order preserved").  Only an
    object can be a part. *)
Definition AddPart (self : ref) (a : pyval) : M unit :=
  match a with
  | VObj r => update self (fun o => set_parts (parts o ++ [r]) o)
  | _ => raise TypeError
  end.

(** Modelled from the spec: the renderer's [SetPickable] ("sets a
    pickability flag on the container only"): the flag of this prop. *)
Definition SetPickable (self : ref) (value : bool) : M unit :=
  update self (set_pickable value).

(** ** Group *)

(** [Group.__init__(self, objects=())] *)
Definition Group_init (objects : pyval) : M ref :=
  self <- alloc (new_object CGroup) ;;
  objects <- match objects with
             | VDict d =>
                 forM_ d (fun kv => setattr_name (snd kv) (fst kv)) ;;;
                 ret (VList (map snd d))
             | _ => ret objects
             end ;;
  update self (set_actor (Some (VObj self))) ;;;
  update self (set_name "Group") ;;;
  update self (set_scalarbar (Some VNone)) ;;;
  items <- py_iter objects ;;
  forM_ (flatten items) (fun a =>
    s <- get_state ;;
    if truthy s a then (act <- attr_actor a ;; AddPart self act) else ret tt) ;;;
  SetPickable self false ;;;
  ret self.

(** [Group.__iadd__(self, obj)] *)
Definition Group_iadd (self : ref) (obj : pyval) : M ref :=
  obj <- (if is_sequence obj then py_iter obj else ret [obj]) ;;
  forM_ obj (fun a =>
    s <- get_state ;;
    if truthy s a then AddPart self a else ret tt) ;;;
  ret self.

(** [Group._unpack(self)]: the members, read from the composite structure. *)
Definition Group__unpack (self : ref) : M (list pyval) :=
  o <- deref self ;; ret (map VObj (parts o)).

(** [Group.unpack]: the class defines [_unpack] only, and vtkPropAssembly has
    no [unpack], so the attribute lookup fails. *)
Definition Group_unpack (self : ref) : M pyval := raise AttributeError.

(** [Group.pickable(self, value=True)] *)
Definition Group_pickable (self : ref) (value : bool) : M ref :=
  SetPickable self value ;;; ret self.

(** The list without the first occurrence of [r]. *)
Fixpoint remove_first (r : ref) (l : list ref) : list ref :=
  match l with
  | [] => []
  | x :: l' => if Nat.eqb r x then l' else x :: remove_first r l'
  end.

(** Modelled from the spec: the renderer's [RemovePart] (one of the
    "composite-prop container primitives (add/remove/traverse child
    props)"): the prop leaves the collection, once. *)
Definition RemovePart (self : ref) (a : pyval) : M unit :=
  match a with
  | VObj r => update self (fun o => set_parts (remove_first r (parts o)) o)
  | _ => raise TypeError
  end.

(** [Group.clear(self)] *)
Definition Group_clear (self : ref) : M ref :=
  elements <- Group__unpack self ;;
  forM_ elements (RemovePart self) ;;;
  ret self.

(** ** Assembly *)

Section Assembly.

(** The serialization collaborator, [vedo.file_io]: from the name of an
    archive to the list of the objects rebuilt from it (download, np.load and
    _from_numpy), as any computation over the store. *)
Context (from_archive : string -> M (list pyval)).

(** The scalarbars of the actors, in order (lines 244-249); every Prop3D
    actor is registered as a part on the way. *)
Definition collect_scalarbars (self : ref) (acts : list pyval) : M (list pyval) :=
  foldM (fun scalarbars a =>
    s <- get_state ;;
    (if is_Prop3D s a then AddPart self a else ret tt) ;;;
    s <- get_state ;;
    match getattr_scalarbar s a with
    | VNone => ret scalarbars
    | sb => ret (scalarbars ++ [sb])
    end) [] acts.

(** Lines 244-254 of [__init__]: the scalarbar of the new assembly. *)
Definition Assembly_init_scalarbar (self : ref) : M unit :=
  o <- deref self ;;
  scalarbars <- collect_scalarbars self (actors o) ;;
  match scalarbars with
  | [] => ret tt
  | [sb] => update self (set_scalarbar (Some sb))
  | _ => g <- Group_init (VList scalarbars) ;;
         update self (set_scalarbar (Some (VObj g)))
  end.

(** [Assembly.__init__(self, *meshs)] *)
Definition Assembly_init (meshs : list pyval) : M ref :=
  self <- alloc (new_object CAssembly) ;;
  (* Init by filename *)
  meshs <- match meshs with
           | [VStr filename] => from_archive filename
           | _ => ret meshs
           end ;;
  (* Name and load from dictionary *)
  meshs <- match meshs with
           | [VDict d] =>
               forM_ d (fun kv => setattr_name (snd kv) (fst kv)) ;;;
               ret (VList (map snd d))
           | [m] => ret m
           | _ => ret (VList (flatten meshs))
           end ;;
  update self (set_actor (Some (VObj self))) ;;;
  update self (set_name "Assembly") ;;;
  update self (set_scalarbar (Some VNone)) ;;;
  items <- py_iter meshs ;;
  s <- get_state ;;
  update self (set_objects (List.filter (truthy s) items)) ;;;
  o <- deref self ;;
  acts <- mapM attr_actor (objects o) ;;
  update self (set_actors acts) ;;;
  Assembly_init_scalarbar self ;;;
  ret self.

(** [isinstance(v, Group)], with the identity of the group. *)
Definition as_group (s : state) (v : pyval) : option ref :=
  match v with
  | VObj g => if is_class CGroup s v then Some g else None
  | _ => None
  end.

(** The local helper of [__add__] (lines 378-382). *)
Definition unpack_group (sb : pyval) : M pyval :=
  s <- get_state ;;
  match as_group s sb with
  | Some g => Group_unpack g
  | None => ret sb
  end.

(** Lines 373-387 of [__add__]: the scalarbar of [obj] joins the one of the
    assembly. *)
Definition Assembly_add_scalarbar (self : ref) (obj : pyval) : M unit :=
  s <- get_state ;;
  match getattr_scalarbar s obj with
  | VNone => ret tt
  | sb =>
      o <- deref self ;;
      match scalarbar o with
      | None => raise AttributeError
      | Some VNone => update self (set_scalarbar (Some sb))
      | Some cur =>
          s <- get_state ;;
          match as_group s cur with
          | Some g =>
              x <- unpack_group sb ;;
              g' <- Group_iadd g x ;;
              update self (set_scalarbar (Some (VObj g')))
          | None =>
              a <- unpack_group cur ;;
              b <- unpack_group sb ;;
              g' <- Group_init (VList [a; b]) ;;
              update self (set_scalarbar (Some (VObj g')))
          end
      end
  end.

(** [Assembly.__add__(self, obj)] *)
Definition Assembly_add (self : ref) (obj : pyval) : M ref :=
  s <- get_state ;;
  if is_Prop3D s (getattr_actor s obj) then
    update self (fun o => set_objects (objects o ++ [obj]) o) ;;;
    act <- attr_actor obj ;;
    update self (fun o => set_actors (actors o ++ [act]) o) ;;;
    act <- attr_actor obj ;;
    AddPart self act ;;;
    Assembly_add_scalarbar self obj ;;;
    ret self
  else ret self.

(** The loop shared by [__getitem__] and [unpack] (lines 400-402, 438-440):
    the first object whose name equals [i]. *)
Fixpoint find_by_name (i : string) (l : list pyval) : M (option pyval) :=
  match l with
  | [] => ret None
  | m :: l' =>
      n <- attr_name m ;;
      if String.eqb i n then ret (Some m) else find_by_name i l'
  end.

(** [Assembly.__getitem__(self, i)] *)
Definition Assembly_getitem (self : ref) (i : pyval) : M pyval :=
  o <- deref self ;;
  match i with
  | VInt z => py_index (objects o) z
  | VStr k =>
      r <- find_by_name k (objects o) ;;
      match r with
      | Some m => ret m
      | None => ret VNone
      end
  | _ => ret VNone
  end.

(** [Assembly.unpack(self, i=None)] *)
Definition Assembly_unpack (self : ref) (i : pyval) : M pyval :=
  o <- deref self ;;
  match i with
  | VNone => ret (VList (objects o))
  | VInt z => py_index (objects o) z
  | VStr k =>
      r <- find_by_name k (objects o) ;;
      match r with
      | Some m => ret m
      | None => ret (VList [])
      end
  | _ => ret (VList [])
  end.

(** *** External methods of the elements *)

(** Modelled from the spec: the [clone()] of a point set ("each object's own
    clone operation"): a new object with the same data and an actor of its
    own. *)
Definition Points_clone (x : ref) : M ref :=
  o <- deref x ;;
  match actor o with
  | Some (VObj a) =>
      if Nat.eqb a x then
        x' <- alloc o ;;
        update x' (set_actor (Some (VObj x'))) ;;;
        ret x'
      else
        oa <- deref a ;;
        a' <- alloc oa ;;
        alloc (set_actor (Some (VObj a')) o)
  | _ => alloc o
  end.

Definition add3 (p q : float * float * float) : float * float * float :=
  let '(px, py, pz) := p in
  let '(qx, qy, qz) := q in
  (px + qx, py + qy, pz + qz)%float.

(** Modelled from the spec: [shift(apos)] ("translated by that offset"). *)
Definition shift (x : pyval) (apos : float * float * float) : M pyval :=
  match x with
  | VObj r => update r (fun o => set_position (add3 (position o) apos) o) ;;; ret x
  | _ => raise AttributeError
  end.

(** Modelled from the spec: [numpy.sum] of a position ("sum of
    coordinates"). *)
Definition np_sum (apos : float * float * float) : float :=
  let '(x, y, z) := apos in (x + y + z)%float.

(** Modelled from the spec: the [pickable(value)] of a point set ("setting
    the same flag on each"). *)
Definition Points_pickable (x : ref) (value : bool) : M ref :=
  SetPickable x value ;;; ret x.

(** *** Cloning and flattening *)

(** [x.clone()], by the class of [x]: [Assembly.clone] below (lines 475-480)
    for an assembly, the external one for a point set; Group and the bare
    props have no such method.  [fuel] is the depth of calls left before
    Python's RecursionError. *)
Fixpoint clone (fuel : nat) (x : pyval) : M pyval :=
  match fuel with
  | 0 => raise RecursionError
  | S fuel' =>
      match x with
      | VObj r =>
          o <- deref r ;;
          match cls o with
          | CPoints => x' <- Points_clone r ;; ret (VObj x')
          | CAssembly =>
              newlist <- mapM (clone fuel') (objects o) ;;
              a <- Assembly_init [VList newlist] ;;
              ret (VObj a)
          | _ => raise AttributeError
          end
      | _ => raise AttributeError
      end
  end.

(** [Assembly.clone(self)] *)
Definition Assembly_clone (fuel : nat) (self : ref) : M pyval :=
  clone fuel (VObj self).

(** What [_genflatten] yields for one element of the list (lines 454-463). *)
Definition genflatten_elem (fuel : nat) (elem : pyval) : M (list pyval) :=
  s <- get_state ;;
  match elem with
  | VObj r =>
      if is_class CAssembly s elem then
        o <- deref r ;;
        let apos := position o in
        let asum := np_sum apos in
        mapM (fun x =>
                if float_truthy asum
                then (c <- clone fuel x ;; shift c apos)
                else ret x) (objects o)
      else ret [elem]
  | _ => ret [elem]
  end.

(** The local generator [_genflatten(lst)] of [recursive_unpack], run to its
    end. *)
Definition genflatten (fuel : nat) (lst : list pyval) : M (list pyval) :=
  match lst with
  | [] => ret []
  | first :: _ =>
      s <- get_state ;;
      lst <- (if is_class CAssembly s first
              then (u <- (match first with
                          | VObj r => Assembly_unpack r VNone
                          | _ => raise AttributeError
                          end) ;;
                    py_iter u)
              else ret lst) ;;
      yielded <- mapM (genflatten_elem fuel) lst ;;
      ret (concat yielded)
  end.

(** [Assembly.recursive_unpack(self)] *)
Definition recursive_unpack (fuel : nat) (self : ref) : M (list pyval) :=
  genflatten fuel [VObj self].

(** [elem.pickable(value)]: the method of the class of [elem], where
    [Assembly_pickable] is the one of Assembly.  The bare props have none. *)
Definition elem_pickable (Assembly_pickable : ref -> bool -> M ref)
    (value : bool) (elem : pyval) : M unit :=
  match elem with
  | VObj r =>
      o <- deref r ;;
      match cls o with
      | CAssembly => Assembly_pickable r value ;;; ret tt
      | CGroup => Group_pickable r value ;;; ret tt
      | CPoints => Points_pickable r value ;;; ret tt
      | _ => raise AttributeError
      end
  | _ => raise AttributeError
  end.

(** [Assembly.pickable(self, value=True)] *)
Fixpoint Assembly_pickable (fuel : nat) (self : ref) (value : bool) : M ref :=
  match fuel with
  | 0 => raise RecursionError
  | S fuel' =>
      SetPickable self value ;;;
      elems <- recursive_unpack fuel' self ;;
      forM_ elems (elem_pickable (Assembly_pickable fuel') value) ;;;
      ret self
  end.

(** *** The 2D projection *)

(** [tok in pos] for the string [tok]: substring search in a string,
    membership in a list, a key of a mapping, an object of an assembly
    ([Assembly.__contains__]). *)
Definition py_contains (tok : string) (pos : pyval) : M bool :=
  match pos with
  | VStr x => ret (str_contains tok x)
  | VList l => ret (py_in (VStr tok) l)
  | VDict d => ret (existsb (fun kv => String.eqb tok (fst kv)) d)
  | VObj r =>
      o <- deref r ;;
      match cls o with
      | CAssembly => ret (py_in (VStr tok) (objects o))
      | _ => raise TypeError
      end
  | _ => raise TypeError
  end.

Definition padding : float := 0.05.

(** The exception of lines 541 and 550.  The text of [pos] is the string
    itself; the text of a list is not modelled. *)
Definition incomplete_position (pos : pyval) : exn :=
  ValueError ("incomplete position pos='" ++
              match pos with VStr x => x | _ => "..." end ++ "'").

(** Lines 517-552 of [clone2d]: the offset and the position for [pos], from
    the bounds of the assembly relative to its own position. *)
Definition resolve_pos (pos : pyval) (x0 x1 y0 y1 : float)
  : M ((float * float) * pyval) :=
  let offset := (x0, y0) in
  cent <- py_contains "cent" pos ;;
  if cent then
    let offset := ((x0 + x1) / 2, (y0 + y1) / 2)%float in
    let position := VList [VFloat 0; VFloat 0] in
    right <- py_contains "right" pos ;;
    let '(offset, position) :=
      if right then ((x1, snd offset), VList [VFloat (1 - padding); VInt 0])
      else (offset, position) in
    left <- py_contains "left" pos ;;
    let '(offset, position) :=
      if left then ((x0, snd offset), VList [VFloat (-1 + padding); VInt 0])
      else (offset, position) in
    top <- py_contains "top" pos ;;
    let '(offset, position) :=
      if top then ((fst offset, y1), VList [VInt 0; VFloat (1 - padding)])
      else (offset, position) in
    bottom <- py_contains "bottom" pos ;;
    let '(offset, position) :=
      if bottom then ((fst offset, y0), VList [VInt 0; VFloat (-1 + padding)])
      else (offset, position) in
    ret (offset, position)
  else
    top <- py_contains "top" pos ;;
    if top then
      right <- py_contains "right" pos ;;
      if right then
        ret ((x1, y1), VList [VFloat (1 - padding); VFloat (1 - padding)])
      else
        left <- py_contains "left" pos ;;
        if left then
          ret ((x0, y1), VList [VFloat (-1 + padding); VFloat (1 - padding)])
        else raise (incomplete_position pos)
    else
      bottom <- py_contains "bottom" pos ;;
      if bottom then
        right <- py_contains "right" pos ;;
        if right then
          ret ((x1, y0), VList [VFloat (1 - padding); VFloat (-1 + padding)])
        else
          left <- py_contains "left" pos ;;
          if left then
            ret ((x0, y0), VList [VFloat (-1 + padding); VFloat (-1 + padding)])
          else raise (incomplete_position pos)
      else ret (offset, pos).

(** Modelled from the spec: the external methods [clone2d] clones with.
    [boundaries] gives a new point set ("edge/boundary representation"),
    [rotate_z] turns a point set in place, [Points.clone2d] is "each
    element's own 2D-projection primitive", which "receives s and offset,
    producing a 2D copy", and [pos] and [ontop] place that copy. *)
Definition Points_boundaries (a : ref) : M ref :=
  o <- deref a ;; alloc o.

Definition rotate_z (a : ref) (angle : float) : M unit :=
  update a (fun o => set_rotations (rotations o ++ [angle]) o).

Definition Points_clone2d (a : ref) (size : float) (offset : float * float) : M ref :=
  deref a ;;;
  alloc (mkObj CProp2D "" None None [] [] [] true (0, 0, 0)%float (0, 0)%float
           (0, 0)%float 0%Z 0%Z [] (Some (mkProjection a size offset)) VNone false []).

Definition place2d (a2d : ref) (position : pyval) (ontop : bool) : M unit :=
  update a2d (set_pos2d position) ;;;
  update a2d (set_ontop ontop).

(** The attributes of a Histogram1D that [clone2d] copies, in this order. *)
Definition histogram_attrs : list string :=
  ["entries"; "frequencies"; "errors"; "edges"; "centers"; "mean"; "mode"; "std"].

Fixpoint assoc (k : string) (l : list (string * pyval)) : option pyval :=
  match l with
  | [] => None
  | (k', v) :: l' => if String.eqb k k' then Some v else assoc k l'
  end.

(** Lines 579-589: the copy stops, silently, at the first attribute the
    assembly does not have. *)
Fixpoint copy_attrs (names : list string) (src dst : list (string * pyval))
  : list (string * pyval) :=
  match names with
  | [] => dst
  | n :: names' =>
      match assoc n src with
      | Some v => copy_attrs names' src ((n, v) :: dst)
      | None => dst
      end
  end.

(** Lines 564-576 of [clone2d]: the 2D copy of the point set [r], scaled,
    turned and placed. *)
Definition project_elem (r : ref) (size : float) (x0 x1 : float)
    (offset : float * float) (position : pyval) (rotation : float)
    (ontop : bool) : M ref :=
  let s := (size * 500 / (x1 - x0))%float in
  o <- deref r ;;
  a2d <- (if (representation o =? 1)%Z then
            b <- Points_boundaries r ;;
            (if float_truthy rotation then rotate_z b rotation else ret tt) ;;;
            Points_clone2d b s offset
          else
            (if float_truthy rotation then rotate_z r rotation else ret tt) ;;;
            Points_clone2d r s offset) ;;
  place2d a2d position ontop ;;;
  ret a2d.

(** The body of the loop of [clone2d] (lines 557-577).  [scanned] is the
    list of line 554. *)
Definition clone2d_elem (self group : ref) (scanned : list pyval)
    (size : float) (x0 x1 : float) (offset : float * float) (position : pyval)
    (rotation : float) (ontop : bool) (a : pyval) : M unit :=
  if py_in a scanned then ret tt else
  s <- get_state ;;
  if negb (is_class CPoints s a) then ret tt else
  n <- attr_npoints a ;;
  if (n =? 0)%Z then ret tt else
  match a with
  | VObj r =>
      a2d <- project_elem r size x0 x1 offset position rotation ontop ;;
      Group_iadd group (VObj a2d) ;;;
      ret tt
  | _ => raise AttributeError
  end.

(** [Assembly.clone2d(self, pos="bottom-left", size=1, rotation=0,
    ontop=False, scale=None)].  Sizes and angles are floats. *)
Definition Assembly_clone2d (fuel : nat) (self : ref) (pos : pyval)
    (size rotation : float) (ontop : bool) (scale : option float) : M ref :=
  size <- match scale with
          | Some sc =>
              log LWarning "clone2d(scale=...) is deprecated, use clone2d(size=...) instead" ;;;
              ret sc
          | None => ret size
          end ;;
  o <- deref self ;;
  let '(x0, x1) := xbounds o in
  let '(y0, y1) := ybounds o in
  let '(ppx, ppy, _) := position o in
  let x0 := (x0 - ppx)%float in
  let x1 := (x1 - ppx)%float in
  let y0 := (y0 - ppy)%float in
  let y1 := (y1 - ppy)%float in
  placement <- resolve_pos pos x0 x1 y0 y1 ;;
  let '(offset, position) := placement in
  let scanned : list pyval := [] in
  group <- Group_init (VList []) ;;
  elems <- recursive_unpack fuel self ;;
  forM_ elems (clone2d_elem self group scanned size x0 x1 offset position rotation ontop) ;;;
  o <- deref self ;;
  update group (fun g => set_extra (copy_attrs histogram_attrs (extra o) (extra g)) g) ;;;
  update group (set_name (name o)) ;;;
  ret group.

(** ** Procrustes alignment *)





(** ** The container protocol *)

(** [Assembly.__contains__(self, obj)]: [obj in self.objects]. *)
Definition Assembly_contains (self : ref) (obj : pyval) : M bool :=
  o <- deref self ;; ret (py_in obj (objects o)).

(** [Assembly.__len__(self)] *)
Definition Assembly_len (self : ref) : M Z :=
  o <- deref self ;; ret (Z.of_nat (length (objects o))).

(** [Assembly.copy(self)]: one call deeper than [clone]. *)
Definition Assembly_copy (fuel : nat) (self : ref) : M pyval :=
  match fuel with
  | 0 => raise RecursionError
  | S fuel' => Assembly_clone fuel' self
  end.

End Assembly.

(** ** Printing a group *)

Section Printing.

(** The collaborators of [__str__] and [print], as any functions:
    [vedo.printc(..., return_string=True)], [hex(id(self))], [str] of a
    value, the built-in [print], and the formatting of lines 124-128, which
    takes the text so far and what [self.unpack()] returned. *)
Context (printc : string -> string) (hex_id : ref -> string)
        (py_str : pyval -> string) (py_print : string -> M unit)
        (summary : string -> pyval -> M string).

Fixpoint spaces (n : nat) : string :=
  match n with
  | 0 => ""
  | S k => String (Ascii.ascii_of_nat 32) (spaces k)
  end.

(** [x.ljust(n)] *)
Definition ljust (n : nat) (x : string) : string :=
  x +:+ spaces (n - String.length x).

(** The mapping [self.info]: [{}] since [__init__], unless assigned. *)
Definition info_of (o : pyobj) : list (string * pyval) :=
  match assoc "info" (extra o) with
  | Some (VDict d) => d
  | _ => []
  end.

(** [Group.__str__(self)] *)
Definition Group_str (self : ref) : M string :=
  o <- deref self ;;
  let out := printc (ljust 75 ("vedo.assembly.Group at (" +:+ hex_id self +:+ ")")) in
  let out := out +:+ String (Ascii.ascii_of_nat 27) "[0m" in
  s <- get_state ;;
  let out :=
    if negb (String.eqb (name o) "") then
      let out := out +:+ ljust 14 "name" +:+ ": " +:+ name o in
      let out :=
        match assoc "legend" (info_of o) with
        | Some v => if truthy s v then out +:+ ", legend='" +:+ py_str v +:+ "'" else out
        | None => out
        end in
      out +:+ String (Ascii.ascii_of_nat 10) ""
    else out in
  members <- Group_unpack self ;;
  summary out members.

(** [Group.print(self)] *)
Definition Group_print (self : ref) : M ref :=
  text <- Group_str self ;;
  py_print text ;;;
  ret self.

End Printing.


(** * Predicates of the statements *)

(** An object value whose referent is in the store. *)
Definition alive (s : state) (v : pyval) : Prop :=
  exists r o, v = VObj r /\ objs s !! r = Some o.

(** The name of a value of the store ("" for anything else). *)
Definition name_of (s : state) (v : pyval) : string :=
  match v with
  | VObj r => match objs s !! r with Some o => name o | None => "" end
  | _ => ""
  end.

Definition npoints_of (s : state) (v : pyval) : Z :=
  match v with
  | VObj r => match objs s !! r with Some o => npoints o | None => 0%Z end
  | _ => 0%Z
  end.

(** [r] is what a search for the name [k] finds in [l]: the first value of
    that name, or nothing when no value has it. *)
Definition first_named (s : state) (k : string) (l : list pyval)
    (r : option pyval) : Prop :=
  match r with
  | Some m =>
      exists i, l !! i = Some m /\ name_of s m = k /\
        forall j m', j < i -> l !! j = Some m' -> name_of s m' <> k
  | None => forall m, m ∈ l -> name_of s m <> k
  end.

(** [m.actor] is [a] in the store [s]. *)
Definition has_actor (s : state) (m a : pyval) : Prop :=
  exists r o, m = VObj r /\ objs s !! r = Some o /\ actor o = Some a.

(** The invariant of the parallel lists of the assembly [self]: as many
    actors as objects, and [actors[i]] is [objects[i].actor]. *)
Definition parallel_lists (s : state) (self : ref) : Prop :=
  exists o, objs s !! self = Some o /\
    length (objects o) = length (actors o) /\
    forall i m a, objects o !! i = Some m -> actors o !! i = Some a -> has_actor s m a.

(** The same class, at the same position. *)
Definition same_cls (o o' : pyobj) : Prop :=
  cls o' = cls o /\ position o' = position o.

(** The same actor. *)
Definition same_actor (o o' : pyobj) : Prop := actor o' = actor o.

(** The same actor, objects and actors. *)
Definition same_lists (o o' : pyobj) : Prop :=
  actor o' = actor o /\ objects o' = objects o /\ actors o' = actors o.

(** Every object of [s] is still in [s'], related by [Ro] to what it was. *)
Definition lift (Ro : pyobj -> pyobj -> Prop) (s s' : state) : Prop :=
  forall r o, objs s !! r = Some o -> exists o', objs s' !! r = Some o' /\ Ro o o'.

(** Whatever [m] returns or raises, it takes a store to a [lift Ro] one. *)
Definition pres {A} (Ro : pyobj -> pyobj -> Prop) (m : M A) : Prop :=
  forall s, lift Ro s (snd (m s)).

(** [m] leaves the first [n] objects of the store alone, whenever the store
    has that many, and what it returns satisfies [post]. *)
Definition safe {A} (n : nat) (m : M A) (post : A -> Prop) : Prop :=
  forall s, n <= length (objs s) ->
    n <= length (objs (snd (m s))) /\
    take n (objs (snd (m s))) = take n (objs s) /\
    forall a, fst (m s) = Ok a -> post a.

(** An object of the store that did not exist below [n]. *)
Definition fresh_obj (n : nat) (v : pyval) : Prop :=
  exists r, v = VObj r /\ n <= r.

(** The first [n] objects of [s] are those of [s']. *)
Definition below (n : nat) (s s' : state) : Prop :=
  n <= length (objs s') /\ forall r, r < n -> objs s' !! r = objs s !! r.

(** [c] is a clone of [x] translated by [apos]: an object that was not in
    the store [s] of the call, so not [x] either, of the class of [x]; for a
    point set, with the data of [x] at its position plus [apos]; for an
    assembly, whose [clone] builds a new assembly at the origin, at [apos]. *)
Definition translated_clone (s s' : state) (apos : float * float * float)
    (x c : pyval) : Prop :=
  exists rx rc ox oc,
    x = VObj rx /\ c = VObj rc /\
    objs s' !! rx = Some ox /\ objs s' !! rc = Some oc /\
    objs s !! rc = None /\ rx <> rc /\
    cls oc = cls ox /\
    (cls ox = CPoints ->
     position oc = add3 (position ox) apos /\
     npoints oc = npoints ox /\ name oc = name ox) /\
    (cls ox = CAssembly -> position oc = add3 (0, 0, 0)%float apos).

(** What flattening yields for the direct child [child] of an assembly:
    [s] is the store of the call and [s'] the store it leaves. *)
Definition yields_of (s s' : state) (child : pyval) (ys : list pyval) : Prop :=
  match child with
  | VObj r =>
      match objs s !! r with
      | Some o =>
          match cls o with
          | CAssembly =>
              if float_truthy (np_sum (position o))
              then Forall2 (translated_clone s s' (position o)) (objects o) ys
              else ys = objects o
          | _ => ys = [child]
          end
      | None => ys = [child]
      end
  | _ => ys = [child]
  end.

(** The pickability flag of the object [e] is [v]. *)
Definition pickable_is (s : state) (v : bool) (e : pyval) : Prop :=
  exists r o, e = VObj r /\ objs s !! r = Some o /\ pickable o = v.

(** A flag that is [v] stays [v]. *)
Definition keeps_flag (v : bool) (o o' : pyobj) : Prop :=
  pickable o = v -> pickable o' = v.

(** Object [p] is a 2D copy made with the size [sz] and the offset [off]
    and placed at [P]. *)
Definition projected (s : state) (sz : float) (off : float * float) (P : pyval)
    (p : ref) : Prop :=
  exists op pr, objs s !! p = Some op /\ proj op = Some pr /\
    proj_size pr = sz /\ proj_offset pr = off /\ pos2d op = P.

(** The same projection data, and still at [P] if it was. *)
Definition same_2d (P : pyval) (o o' : pyobj) : Prop :=
  proj o' = proj o /\ (pos2d o = P -> pos2d o' = P).

Definition same_parts_2d (P : pyval) (o o' : pyobj) : Prop :=
  parts o' = parts o /\ cls o' = cls o /\ same_2d P o o'.

(** The members of [group] are all such copies. *)
Definition all_projected (sz : float) (off : float * float) (P : pyval)
    (group : ref) (s : state) : Prop :=
  exists og, objs s !! group = Some og /\ cls og = CGroup /\
    Forall (projected s sz off P) (parts og).

(** A point set of the store whose actor, if it is an object, is in the
    store too. *)
Definition points_ok (s : state) (x : pyval) : Prop :=
  exists r o, x = VObj r /\ objs s !! r = Some o /\ cls o = CPoints /\
    forall a, actor o = Some (VObj a) -> a = r \/ is_Some (objs s !! a).

(** A child of a two-level assembly: a point set, a group, or an assembly
    of point sets. *)
Definition flat_child (s : state) (c : pyval) : Prop :=
  exists r o, c = VObj r /\ objs s !! r = Some o /\
    match cls o with
    | CPoints => points_ok s c
    | CGroup => True
    | CAssembly => Forall (points_ok s) (objects o)
    | _ => False
    end.

(** The assembly [self] has two levels at most. *)
Definition two_level (s : state) (self : ref) : Prop :=
  exists o, objs s !! self = Some o /\ cls o = CAssembly /\
    Forall (flat_child s) (objects o).

(** The same class, position, actor and objects. *)
Definition same_struct (o o' : pyobj) : Prop :=
  cls o' = cls o /\ position o' = position o /\ actor o' = actor o /\
  objects o' = objects o.

(** An object of the store with a [pickable] method of its own class: a
    point set or a group. *)
Definition capable (s : state) (e : pyval) : Prop :=
  exists r o, e = VObj r /\ objs s !! r = Some o /\
    (cls o = CPoints \/ cls o = CGroup).

(** A value that, if it is an object, is in the store. *)
Definition in_store (s : state) (v : pyval) : Prop :=
  forall r, v = VObj r -> is_Some (objs s !! r).

(** The scalarbars that the actors [acts] contribute, in order: those that
    are not [None] (lines 248-249). *)
Definition contributed (s : state) (acts : list pyval) : list pyval :=
  List.filter (fun sb => match sb with VNone => false | _ => true end)
    (map (getattr_scalarbar s) acts).

(** What flattening yields for a child that it does not clone: the objects
    of an assembly, and anything else as it is. *)
Definition shared_yield (s : state) (c : pyval) : list pyval :=
  match c with
  | VObj r =>
      match objs s !! r with
      | Some oc => match cls oc with CAssembly => objects oc | _ => [c] end
      | None => [c]
      end
  | _ => [c]
  end.

(** [c] is not an assembly whose position has a truthy sum. *)
Definition unmoved (s : state) (c : pyval) : Prop :=
  forall r oc, c = VObj r -> objs s !! r = Some oc -> cls oc = CAssembly ->
    float_truthy (np_sum (position oc)) = false.


(** [o'] is [o] but for its pickability flag. *)
Definition only_flag (o o' : pyobj) : Prop := o' = set_pickable (pickable o') o.

(** The objects of the store that [pickable] reaches through the child [c]
    of an assembly: the objects of a child assembly whose position has no
    truthy sum, nothing for one whose position has, and any other child
    itself. *)
Definition reached (s : state) (c : pyval) : list pyval :=
  match c with
  | VObj r =>
      match objs s !! r with
      | Some oc =>
          match cls oc with
          | CAssembly => if float_truthy (np_sum (position oc)) then [] else objects oc
          | _ => [c]
          end
      | None => [c]
      end
  | _ => [c]
  end.

(** The same class, name, number of points, flag and other attributes. *)
Definition same_kind (o o' : pyobj) : Prop :=
  cls o' = cls o /\ name o' = name o /\ npoints o' = npoints o /\
  pickable o' = pickable o /\ extra o' = extra o.

(** What [clone2d] makes a 2D copy of: a point set that has points. *)
Definition countable (s : state) (e : pyval) : bool :=
  is_class CPoints s e && negb (npoints_of s e =? 0)%Z.

(** The attribute [n] is among the attributes [src]. *)
Definition has_attr (src : list (string * pyval)) (n : string) : bool :=
  match assoc n src with Some _ => true | None => false end.

(** A point set of the store with an actor of its own that bears no
    scalarbar. *)
Definition plain_points (s : state) (x : pyval) : Prop :=
  exists r o a oa,
    x = VObj r /\ objs s !! r = Some o /\ cls o = CPoints /\
    actor o = Some (VObj a) /\ a <> r /\ objs s !! a = Some oa /\
    default VNone (scalarbar oa) = VNone.

(** [c] is a clone of the point set [x]: a point set that was not in the
    store [s], with the name, the number of points and the position of
    [x]. *)
Definition clone_of (s s' : state) (x c : pyval) : Prop :=
  exists rx ox rc oc,
    x = VObj rx /\ objs s !! rx = Some ox /\
    c = VObj rc /\ objs s !! rc = None /\ objs s' !! rc = Some oc /\
    cls oc = CPoints /\ name oc = name ox /\ npoints oc = npoints ox /\
    position oc = position ox.

(** What the renderer holds as a part: an object of the store that is a
    prop itself, which the wrapper of a point set is not. *)
Definition is_prop (s : state) (v : pyval) : bool :=
  match class_of s v with
  | Some CPoints | None => false
  | Some _ => true
  end.

(** The same class, number of points, representation and projection. *)
Definition same_shape (o o' : pyobj) : Prop :=
  cls o' = cls o /\ npoints o' = npoints o /\
  representation o' = representation o /\ proj o' = proj o.

Definition representation_of (s : state) (v : pyval) : Z :=
  match v with
  | VObj r => match objs s !! r with Some o => representation o | None => 0%Z end
  | _ => 0%Z
  end.

(** [clone2d] turns the element [e] itself, here object [r]: a point set
    that has points and is not drawn as a wireframe. *)
Definition turned (s : state) (r : ref) (e : pyval) : bool :=
  py_eq e (VObj r) && countable s e && negb (representation_of s e =? 1)%Z.

(** How often object [r] is turned when [clone2d] runs over [elems]. *)
Definition turns (s : state) (elems : list pyval) (r : ref) : nat :=
  length (List.filter (turned s r) elems).

(** Object [p] is the 2D copy that [clone2d] makes for the element [e]: a
    prop that was not in the store [s], projected from [e] itself or, for
    an element drawn as a wireframe, from a point set that was not in the
    store either (its boundaries). *)
Definition copy2d_of (s s' : state) (e : pyval) (p : ref) : Prop :=
  exists op pr,
    objs s !! p = None /\ objs s' !! p = Some op /\ cls op = CProp2D /\
    proj op = Some pr /\
    if (representation_of s e =? 1)%Z
    then exists ob, objs s !! proj_source pr = None /\
           objs s' !! proj_source pr = Some ob /\ cls ob = CPoints
    else e = VObj (proj_source pr).

(** ** A scene to run the code on *)

Definition no_archive : string -> M (list pyval) := fun _ => raise OSError.

(** A point set with [n] points whose actor is object [a]. *)
Definition point_set (nm : string) (a : ref) (n : Z) : pyobj :=
  mkObj CPoints nm (Some (VObj a)) None [] [] [] true (0, 0, 0)%float
    (0, 0)%float (0, 0)%float n 0%Z [] None VNone false [].

(** Three named point sets, objects 1, 3 and 5, with their actors. *)
Definition scene : state :=
  mkState [new_object CProp3D; point_set "A" 0 3;
           new_object CProp3D; point_set "B" 2 4;
           new_object CProp3D; point_set "C" 4 5] [].

(** [Assembly(A, B, C)] is object 6. *)
Definition scene_abc : state :=
  Eval vm_compute in snd (Assembly_init no_archive [VObj 1; VObj 3; VObj 5] scene).

Definition the_object (s : state) (r : ref) : pyobj :=
  default (new_object CProp2D) (objs s !! r).

(** [inner = Assembly(A, B)] (object 6) is moved to (1, 2, 3),
    [other = Assembly([C])] (object 7) stays at the origin, and
    [Assembly(inner, other, A)] is object 8. *)
Definition scene_nested : state :=
  Eval vm_compute in
    snd ((inner <- Assembly_init no_archive [VObj 1; VObj 3] ;;
          update inner (set_position (1, 2, 3)%float) ;;;
          other <- Assembly_init no_archive [VList [VObj 5]] ;;
          Assembly_init no_archive [VObj inner; VObj other; VObj 1]) scene).

(** What [recursive_unpack] returns on object 8, and the store it leaves. *)
Definition scene_nested_flat : list pyval :=
  Eval vm_compute in
    match fst (recursive_unpack no_archive 3 8 scene_nested) with
    | Ok l => l
    | Raise _ => []
    end.

Definition scene_nested_after : state :=
  Eval vm_compute in snd (recursive_unpack no_archive 3 8 scene_nested).

(** [Assembly([A, A])], the same point set twice, is object 6; the renderer
    reports the bounds (0, 10) x (0, 5) for it. *)
Definition scene_twice : state :=
  Eval vm_compute in
    snd ((a <- Assembly_init no_archive [VList [VObj 1; VObj 1]] ;;
          update a (set_bounds (0, 10)%float (0, 5)%float)) scene).

(** The same assembly moved to (3, 4, 0) with the same bounds. *)
Definition scene_moved : state :=
  Eval vm_compute in snd (update 6 (set_position (3, 4, 0)%float) scene_twice).

(** Three 3D scalar bars, the assemblies 6, 7 and 8, and three assemblies 9,
    10 and 11, each with one of the bars as its [scalarbar]. *)
Definition scene_bars : state :=
  Eval vm_compute in
    snd ((b1 <- Assembly_init no_archive [VList [VObj 1]] ;;
          b2 <- Assembly_init no_archive [VList [VObj 3]] ;;
          b3 <- Assembly_init no_archive [VList [VObj 5]] ;;
          x1 <- Assembly_init no_archive [VList [VObj 1]] ;;
          update x1 (set_scalarbar (Some (VObj b1))) ;;;
          x2 <- Assembly_init no_archive [VList [VObj 3]] ;;
          update x2 (set_scalarbar (Some (VObj b2))) ;;;
          x3 <- Assembly_init no_archive [VList [VObj 5]] ;;
          update x3 (set_scalarbar (Some (VObj b3)))) scene).

(** [Assembly([A, None, B])] is object 6. *)
Definition scene_list : state :=
  Eval vm_compute in
    snd (Assembly_init no_archive [VList [VObj 1; VNone; VObj 3]] scene).

(** [Assembly(A, B, C) + A]: object 6 after the addition. *)
Definition scene_abca : state :=
  Eval vm_compute in snd (Assembly_add 6 (VObj 1) scene_abc).

(** [Assembly({"x": A, "y": B})] is object 6. *)
Definition scene_named : state :=
  Eval vm_compute in
    snd (Assembly_init no_archive [VDict [("x", VObj 1); ("y", VObj 3)]] scene).

(** [Assembly(A, B)] (object 6) is moved to (5, -5, 0), and
    [Assembly(inner, C)] is object 7. *)
Definition scene_cancel : state :=
  Eval vm_compute in
    snd ((inner <- Assembly_init no_archive [VObj 1; VObj 3] ;;
          update inner (set_position (5, -5, 0)%float) ;;;
          Assembly_init no_archive [VObj inner; VObj 5]) scene).

(** [Assembly([A, g])] is object 7, where [g = Group([B])] is object 6. *)
Definition scene_grouped : state :=
  Eval vm_compute in
    snd ((g <- Group_init (VList [VObj 3]) ;;
          Assembly_init no_archive [VList [VObj 1; VObj g]]) scene).

(** A histogram cut short: [Assembly([A, A, B])], object 6, with the
    attributes [entries], [frequencies] and [edges], but no [errors]. *)
Definition scene_hist : state :=
  Eval vm_compute in
    snd ((a <- Assembly_init no_archive [VList [VObj 1; VObj 1; VObj 3]] ;;
          update a (set_name "h") ;;;
          update a (set_extra [("entries", VInt 7); ("frequencies", VList []);
                               ("edges", VList [])])) scene).

(** [inner = Assembly(x1, x2)] is object 12: its scalarbar is the Group 13 of
    the bars 6 and 7. *)
Definition scene_bars_inner : state :=
  Eval vm_compute in snd (Assembly_init no_archive [VObj 9; VObj 10] scene_bars).

(** * Reasoning about computations *)

Arguments bind : simpl never.

Lemma bind_Ok {A B} (m : M A) (k : A -> M B) s b s' :
  bind m k s = (Ok b, s') ->
  exists a s1, m s = (Ok a, s1) /\ k a s1 = (Ok b, s').
Proof.
  unfold bind. destruct (m s) as [[a|e] s1]; [eauto | discriminate].
Qed.

Lemma bind_inv {A B} (m : M A) (k : A -> M B) s r s' :
  bind m k s = (r, s') ->
  (exists a s1, m s = (Ok a, s1) /\ k a s1 = (r, s')) \/
  (exists e, m s = (Raise e, s') /\ r = Raise e).
Proof.
  unfold bind. destruct (m s) as [[a|e] s1]; [eauto | ].
  intros [= <- <-]. eauto.
Qed.

Lemma bind_ret_l {A B} (a : A) (k : A -> M B) s : bind (ret a) k s = k a s.
Proof. reflexivity. Qed.

Lemma bind_eq_Ok {A B} (m : M A) (k : A -> M B) s a s1 :
  m s = (Ok a, s1) -> bind m k s = k a s1.
Proof. unfold bind. now intros ->. Qed.

Lemma bind_eq_Raise {A B} (m : M A) (k : A -> M B) s e s1 :
  m s = (Raise e, s1) -> bind m k s = (Raise e, s1).
Proof. unfold bind. now intros ->. Qed.

Lemma forM_cons {A} (a : A) l (f : A -> M unit) : forM_ (a :: l) f = (f a ;;; forM_ l f).
Proof. reflexivity. Qed.

Lemma forM_nil {A} (f : A -> M unit) : forM_ [] f = ret tt.
Proof. reflexivity. Qed.

Lemma bind_assoc {A B C} (m : M A) (k : A -> M B) (k' : B -> M C) s :
  bind (bind m k) k' s = bind m (fun a => bind (k a) k') s.
Proof. unfold bind. destruct (m s) as [[a|e] s1]; reflexivity. Qed.

Lemma deref_Ok r s o s' : deref r s = (Ok o, s') -> objs s !! r = Some o /\ s' = s.
Proof. unfold deref. destruct (objs s !! r); intros [= <- <-]; auto. Qed.

Lemma deref_eq r s o : objs s !! r = Some o -> deref r s = (Ok o, s).
Proof. unfold deref. now intros ->. Qed.

Lemma update_Ok r f s u s' :
  update r f s = (Ok u, s') ->
  exists o, objs s !! r = Some o /\ s' = mkState (<[r := f o]> (objs s)) (logs s).
Proof. unfold update. destruct (objs s !! r); intros [= <-]; eauto. Qed.

Lemma update_eq r f s o :
  objs s !! r = Some o ->
  update r f s = (Ok tt, mkState (<[r := f o]> (objs s)) (logs s)).
Proof. unfold update. now intros ->. Qed.

(** Reading an attribute leaves the state alone. *)
Lemma attr_actor_state v s r s' : attr_actor v s = (r, s') -> s' = s.
Proof.
  destruct v; cbn; try (intros [= <- <-]; reflexivity).
  unfold bind, deref. destruct (objs s !! r0) as [o|]; [|now intros [= <- <-]].
  destruct (actor o); now intros [= <- <-].
Qed.

Lemma attr_actor_Ok v s a s' :
  attr_actor v s = (Ok a, s') ->
  exists r o, v = VObj r /\ objs s !! r = Some o /\ actor o = Some a.
Proof.
  destruct v; cbn; try discriminate.
  unfold bind, deref. destruct (objs s !! r) as [o|] eqn:E; [|discriminate].
  destruct (actor o) eqn:Ea; [|discriminate]. intros [= <- <-]. eauto.
Qed.

Lemma attr_name_eq r s o : objs s !! r = Some o -> attr_name (VObj r) s = (Ok (name o), s).
Proof. intros H. cbn. unfold bind. now rewrite (deref_eq _ _ _ H). Qed.

Lemma attr_npoints_eq r s o :
  objs s !! r = Some o -> attr_npoints (VObj r) s = (Ok (npoints o), s).
Proof. intros H. cbn. unfold bind. now rewrite (deref_eq _ _ _ H). Qed.

Lemma attr_name_alive s v : alive s v -> attr_name v s = (Ok (name_of s v), s).
Proof. intros (r & o & -> & H). cbn. rewrite H. now apply attr_name_eq. Qed.


(** * Lookup by name *)

Lemma find_by_name_spec s k l :
  Forall (alive s) l ->
  exists r, find_by_name k l s = (Ok r, s) /\ first_named s k l r.
Proof.
  induction 1 as [|m l Hm Hl IH]; cbn.
  - exists None. split; [reflexivity|]. intros m Hin. inversion Hin.
  - rewrite (bind_eq_Ok _ _ _ _ _ (attr_name_alive _ _ Hm)).
    destruct (String.eqb k (name_of s m)) eqn:E.
    + apply String.eqb_eq in E. exists (Some m). split; [reflexivity|].
      exists 0. repeat split; auto. intros j m' Hj. lia.
    + apply String.eqb_neq in E. destruct IH as (r & Hr & Hspec).
      exists r. split; [exact Hr|]. destruct r as [m1|]; cbn in *.
      * destruct Hspec as (i & Hi & Hk & Hbefore). exists (S i).
        repeat split; auto. intros [|j] m' Hj Hm'; cbn in Hm'.
        -- injection Hm' as <-. congruence.
        -- apply (Hbefore j); [lia | exact Hm'].
      * intros m' Hin. apply elem_of_cons in Hin as [-> | Hin]; [congruence | auto].
Qed.

(** C8: for every assembly whose objects are in the store and every string
    [k], [__getitem__(k)] and [unpack(k)] return the first object, in
    insertion order, whose name equals [k]; when there is none they return
    [None] and the empty list.  Neither raises, and the store is as before. *)
Theorem lookup_by_name (s : state) (self : ref) (o : pyobj) (k : string) :
  objs s !! self = Some o ->
  Forall (alive s) (objects o) ->
  exists r, first_named s k (objects o) r /\
    Assembly_getitem self (VStr k) s = (Ok (default VNone r), s) /\
    Assembly_unpack self (VStr k) s = (Ok (default (VList []) r), s).
Proof.
  intros Hself Hobjs.
  destruct (find_by_name_spec s k (objects o) Hobjs) as (r & Hfind & Hspec).
  exists r. split; [exact Hspec|].
  unfold Assembly_getitem, Assembly_unpack.
  rewrite !(bind_eq_Ok _ _ _ _ _ (deref_eq _ _ _ Hself)).
  rewrite !(bind_eq_Ok _ _ _ _ _ Hfind).
  destruct r; split; reflexivity.
Qed.

Lemma lookup_by_name_witness :
  exists r, first_named scene_abc "B" (objects (the_object scene_abc 6)) r /\
    Assembly_getitem 6 (VStr "B") scene_abc = (Ok (default VNone r), scene_abc) /\
    Assembly_unpack 6 (VStr "B") scene_abc = (Ok (default (VList []) r), scene_abc).
Proof.
  apply (lookup_by_name scene_abc 6 (the_object scene_abc 6) "B").
  - reflexivity.
  - repeat constructor; eexists _, _; (split; [reflexivity | reflexivity]).
Defined.

(** The scenario of the specification: [assembly["B"]] is B, and
    [assembly["Z"]] is [None]. *)
Example getitem_B : fst (Assembly_getitem 6 (VStr "B") scene_abc) = Ok (VObj 3).
Proof. reflexivity. Qed.

Example getitem_Z : fst (Assembly_getitem 6 (VStr "Z") scene_abc) = Ok VNone.
Proof. reflexivity. Qed.

Example unpack_Z : fst (Assembly_unpack 6 (VStr "Z") scene_abc) = Ok (VList []).
Proof. reflexivity. Qed.

(** * Adding an object without a Prop3D actor *)

(** C10: when [getattr(obj, "actor", None)] is not a Prop3D (the attribute
    is missing, is [None], or is some other object), [A + obj] returns [A]
    and leaves the whole store as it was: objects, actors, parts and
    scalarbar are untouched, and nothing is raised. *)
Theorem add_without_Prop3D_actor (s : state) (self : ref) (obj : pyval) :
  is_Prop3D s (getattr_actor s obj) = false ->
  Assembly_add self obj s = (Ok self, s).
Proof.
  intros H. unfold Assembly_add, bind, get_state. now rewrite H.
Qed.

Lemma add_without_Prop3D_actor_witness :
  Assembly_add 6 (VObj 0) scene_abc = (Ok 6, scene_abc) /\
  Assembly_add 6 (VInt 7) scene_abc = (Ok 6, scene_abc).
Proof.
  split.
  - apply (add_without_Prop3D_actor scene_abc 6 (VObj 0)). reflexivity.
  - apply (add_without_Prop3D_actor scene_abc 6 (VInt 7)). reflexivity.
Defined.

(** * Mismatched point counts in the alignment *)






(** * An incomplete symbolic position *)

(** C6: with a string [pos] that contains "top" or "bottom" and none of
    "cent", "left" and "right", [clone2d] raises ValueError; nothing was
    flattened or created at that point (the objects of the store are those
    of the call), and no group is returned. *)
Theorem clone2d_incomplete_position (from_archive : string -> M (list pyval))
    (fuel : nat) (s : state) (self : ref) (o : pyobj) (p : string)
    (size rotation : float) (ontop : bool) (scale : option float) :
  objs s !! self = Some o ->
  str_contains "top" p || str_contains "bottom" p = true ->
  str_contains "cent" p = false ->
  str_contains "left" p = false ->
  str_contains "right" p = false ->
  exists s',
    Assembly_clone2d from_archive fuel self (VStr p) size rotation ontop scale s =
      (Raise (incomplete_position (VStr p)), s') /\
    objs s' = objs s.
Proof.
  intros Hself Htb Hc Hl Hr.
  assert (Hres : forall s1 a b c d, resolve_pos (VStr p) a b c d s1 =
                   (Raise (incomplete_position (VStr p)), s1)).
  { intros. unfold resolve_pos. cbn [py_contains]. rewrite !bind_ret_l, Hc.
    destruct (str_contains "top" p); cbn [orb] in Htb; rewrite !bind_ret_l.
    - now rewrite Hr, bind_ret_l, Hl.
    - now rewrite Htb, bind_ret_l, Hr, bind_ret_l, Hl. }
  assert (Hrest : forall s1 sz, objs s1 = objs s ->
    (o <- deref self ;;
     let '(x0, x1) := xbounds o in
     let '(y0, y1) := ybounds o in
     let '(ppx, ppy, _) := position o in
     placement <- resolve_pos (VStr p) (x0 - ppx) (x1 - ppx) (y0 - ppy) (y1 - ppy) ;;
     let '(offset, position) := placement in
     group <- Group_init (VList []) ;;
     elems <- recursive_unpack from_archive fuel self ;;
     forM_ elems (clone2d_elem self group [] sz (x0 - ppx) (x1 - ppx) offset
                    position rotation ontop) ;;;
     o <- deref self ;;
     update group (fun g => set_extra (copy_attrs histogram_attrs (extra o) (extra g)) g) ;;;
     update group (set_name (name o)) ;;;
     ret group) s1 = (Raise (incomplete_position (VStr p)), s1)).
  { intros s1 sz Hs1.
    assert (Hd : deref self s1 = (Ok o, s1)) by (apply deref_eq; now rewrite Hs1).
    rewrite (bind_eq_Ok _ _ _ _ _ Hd).
    destruct (xbounds o) as [x0 x1], (ybounds o) as [y0 y1],
      (position o) as [[ppx ppy] ppz].
    now rewrite (bind_eq_Raise _ _ _ _ _ (Hres _ _ _ _ _)). }
  unfold Assembly_clone2d. destruct scale as [sc|].
  - eexists.
    rewrite (bind_eq_Ok
               (log LWarning "clone2d(scale=...) is deprecated, use clone2d(size=...) instead" ;;;
                ret sc) _ s sc _ eq_refl).
    split; [apply Hrest|]; reflexivity.
  - exists s. rewrite bind_ret_l. split; [apply Hrest|]; reflexivity.
Qed.

Lemma clone2d_incomplete_position_witness :
  exists s',
    Assembly_clone2d no_archive 8 6 (VStr "top") 1 0 false None scene_abc =
      (Raise (incomplete_position (VStr "top")), s') /\
    objs s' = objs scene_abc.
Proof.
  apply (clone2d_incomplete_position no_archive 8 scene_abc 6
           (the_object scene_abc 6) "top" 1 0 false None); reflexivity.
Defined.

(** * Frame rules *)

(** ** What a computation keeps of every object of the store

    [lift Ro s s']: every object of [s] is still in [s'], related to what it
    was by [Ro].  [pres Ro m]: whatever [m] does or raises, it relates the
    store it starts from to the one it leaves. *)

Section Pres.

Context (Ro : pyobj -> pyobj -> Prop) `{!Reflexive Ro, !Transitive Ro}.

Lemma lift_refl s : lift Ro s s.
Proof. intros r o H. exists o. split; [exact H | reflexivity]. Qed.

Lemma lift_trans s1 s2 s3 : lift Ro s1 s2 -> lift Ro s2 s3 -> lift Ro s1 s3.
Proof.
  intros H12 H23 r o H. destruct (H12 r o H) as (o2 & H2 & R2).
  destruct (H23 r o2 H2) as (o3 & H3 & R3). exists o3. split; [exact H3|].
  now transitivity o2.
Qed.

Lemma lift_prefix s s' : objs s `prefix_of` objs s' -> lift Ro s s'.
Proof.
  intros [k Hk] r o H. exists o. split; [|reflexivity].
  rewrite Hk. now apply lookup_app_l_Some.
Qed.

Lemma pres_ret {A} (a : A) : pres Ro (ret a).
Proof. intros s. apply lift_refl. Qed.

Lemma pres_raise {A} e : pres Ro (@raise A e).
Proof. intros s. apply lift_refl. Qed.

Lemma pres_get_state : pres Ro get_state.
Proof. intros s. apply lift_refl. Qed.

Lemma pres_deref r : pres Ro (deref r).
Proof. intros s. unfold deref. destruct (objs s !! r); apply lift_refl. Qed.

Lemma pres_log l msg : pres Ro (log l msg).
Proof. intros s. apply lift_prefix. now exists []; rewrite app_nil_r. Qed.

Lemma pres_alloc o : pres Ro (alloc o).
Proof. intros s. apply lift_prefix. cbn. now exists [o]. Qed.

Lemma pres_update r f : (forall o, Ro o (f o)) -> pres Ro (update r f).
Proof.
  intros Hf s. unfold update. destruct (objs s !! r) as [o|] eqn:E; [|apply lift_refl].
  intros r' o' H. cbn. destruct (decide (r = r')) as [<-|Hne].
  - rewrite E in H. injection H as <-. exists (f o). split; [|apply Hf].
    apply list_lookup_insert_eq. now apply lookup_lt_Some in E.
  - exists o'. split; [|reflexivity]. now rewrite list_lookup_insert_ne.
Qed.

Lemma pres_bind {A B} (m : M A) (k : A -> M B) :
  pres Ro m -> (forall a, pres Ro (k a)) -> pres Ro (bind m k).
Proof.
  intros Hm Hk s. unfold bind. specialize (Hm s).
  destruct (m s) as [[a|e] s1]; cbn in *; [|exact Hm].
  eapply lift_trans; [exact Hm | apply Hk].
Qed.

Lemma pres_mapM {A B} (f : A -> M B) l :
  (forall a, pres Ro (f a)) -> pres Ro (mapM f l).
Proof.
  intros Hf. induction l as [|a l IH]; cbn [mapM]; [apply pres_ret|].
  apply pres_bind; [apply Hf|]. intros b.
  apply pres_bind; [apply IH|]. intros bs. apply pres_ret.
Qed.

Lemma pres_forM {A} (f : A -> M unit) l :
  (forall a, pres Ro (f a)) -> pres Ro (forM_ l f).
Proof.
  intros Hf. induction l as [|a l IH]; cbn [forM_]; [apply pres_ret|].
  apply pres_bind; [apply Hf | intros _; apply IH].
Qed.

Lemma pres_foldM {A B} (f : B -> A -> M B) b l :
  (forall b a, pres Ro (f b a)) -> pres Ro (foldM f b l).
Proof.
  intros Hf. revert b. induction l as [|a l IH]; intros b; cbn [foldM]; [apply pres_ret|].
  apply pres_bind; [apply Hf | intros b'; apply IH].
Qed.

Lemma pres_of_prefix {A} (m : M A) :
  (forall s, objs s `prefix_of` objs (snd (m s))) -> pres Ro m.
Proof. intros H s. apply lift_prefix, H. Qed.

End Pres.

(** ** What a computation leaves alone below a bound *)

Lemma safe_weaken {A} n (m : M A) (post post' : A -> Prop) :
  safe n m post -> (forall a, post a -> post' a) -> safe n m post'.
Proof.
  intros H Hw s Hn. destruct (H s Hn) as (H1 & H2 & H3). repeat split; auto.
Qed.

Lemma safe_True {A} n (m : M A) post : safe n m post -> safe n m (fun _ => True).
Proof. intros H. eapply safe_weaken; [exact H | auto]. Qed.

Lemma safe_ret {A} n (a : A) (post : A -> Prop) : post a -> safe n (ret a) post.
Proof. intros H s Hn. cbn. repeat split; auto. now intros ? [= <-]. Qed.

Lemma safe_raise {A} n e (post : A -> Prop) : safe n (raise e) post.
Proof. intros s Hn. cbn. repeat split; auto. discriminate. Qed.

Lemma safe_get_state n : safe n get_state (fun _ => True).
Proof. intros s Hn. cbn. auto. Qed.

Lemma safe_deref n r : safe n (deref r) (fun _ => True).
Proof. intros s Hn. unfold deref. destruct (objs s !! r); cbn; auto. Qed.

Lemma safe_log n l msg : safe n (log l msg) (fun _ => True).
Proof. intros s Hn. cbn. auto. Qed.

Lemma safe_alloc n o : safe n (alloc o) (fun r => n <= r).
Proof.
  intros s Hn. cbn. rewrite length_app. repeat split.
  - lia.
  - now apply take_app_le.
  - now intros a [= <-].
Qed.

Lemma safe_update n r f : n <= r -> safe n (update r f) (fun _ => True).
Proof.
  intros Hr s Hn. unfold update. destruct (objs s !! r); cbn; auto.
  rewrite length_insert. repeat split; auto. now apply take_insert_ge.
Qed.

Lemma safe_bind {A B} n (m : M A) (k : A -> M B) post post' :
  safe n m post -> (forall a, post a -> safe n (k a) post') ->
  safe n (bind m k) post'.
Proof.
  intros Hm Hk s Hn. unfold bind. destruct (Hm s Hn) as (H1 & H2 & H3).
  destruct (m s) as [[a|e] s1]; cbn in *.
  - destruct (Hk a (H3 a eq_refl) s1 H1) as (K1 & K2 & K3).
    repeat split; auto. congruence.
  - repeat split; auto. discriminate.
Qed.

Lemma safe_mapM {A B} n (f : A -> M B) l post :
  (forall a, safe n (f a) post) -> safe n (mapM f l) (Forall post).
Proof.
  intros Hf. induction l as [|a l IH]; cbn [mapM]; [now apply safe_ret|].
  eapply safe_bind; [apply Hf|]. intros b Hb.
  eapply safe_bind; [apply IH|]. intros bs Hbs. apply safe_ret. now constructor.
Qed.

Lemma safe_forM {A} n (f : A -> M unit) l :
  (forall a, safe n (f a) (fun _ => True)) -> safe n (forM_ l f) (fun _ => True).
Proof.
  intros Hf. induction l as [|a l IH]; cbn [forM_]; [now apply safe_ret|].
  eapply safe_bind; [apply Hf | intros _ _; apply IH].
Qed.

Lemma safe_foldM {A B} n (f : B -> A -> M B) b l :
  (forall b a, safe n (f b a) (fun _ => True)) -> safe n (foldM f b l) (fun _ => True).
Proof.
  intros Hf. revert b. induction l as [|a l IH]; intros b; cbn [foldM];
    [now apply safe_ret|].
  eapply safe_bind; [apply Hf | intros b' _; apply IH].
Qed.

Lemma safe_mapM_True {A B} n (f : A -> M B) l :
  (forall a, safe n (f a) (fun _ => True)) -> safe n (mapM f l) (fun _ => True).
Proof. intros Hf. eapply safe_True, safe_mapM, Hf. Qed.

Lemma safe_prefix {A} (m : M A) post s :
  safe (length (objs s)) m post -> objs s `prefix_of` objs (snd (m s)).
Proof.
  intros H. destruct (H s (le_n _)) as (H1 & H2 & _).
  rewrite firstn_all in H2. exists (drop (length (objs s)) (objs (snd (m s)))).
  now rewrite <- H2 at 1; rewrite take_drop.
Qed.

Lemma safe_pure {A} n (m : M A) :
  (forall s, snd (m s) = s) -> safe n m (fun _ => True).
Proof. intros H s Hn. rewrite H. auto. Qed.

Lemma attr_actor_pure v s : snd (attr_actor v s) = s.
Proof. destruct (attr_actor v s) as [r s'] eqn:E. now apply attr_actor_state in E. Qed.

Lemma attr_name_pure v s : snd (attr_name v s) = s.
Proof.
  destruct v; try reflexivity. cbn. unfold bind, deref.
  now destruct (objs s !! r).
Qed.

Lemma attr_npoints_pure v s : snd (attr_npoints v s) = s.
Proof.
  destruct v; try reflexivity. cbn. unfold bind, deref.
  now destruct (objs s !! r).
Qed.

Lemma py_iter_pure v s : snd (py_iter v s) = s.
Proof.
  destruct v; try reflexivity. cbn. unfold bind, deref.
  destruct (objs s !! r) as [o|]; [|reflexivity]. now destruct (cls o).
Qed.

(** The producers: computations whose result is an object above the bound. *)
Ltac safe_prod := apply safe_alloc.

Ltac safe_leaf :=
  first
    [ apply safe_raise
    | apply safe_ret; first [exact I | assumption | eauto; fail]
    | eapply safe_weaken;
      [ first [ apply safe_get_state | apply safe_deref | apply safe_log
              | apply safe_alloc
              | apply safe_update; first [assumption | lia]
              | apply safe_pure; first [ apply attr_actor_pure | apply attr_name_pure
                                       | apply attr_npoints_pure | apply py_iter_pure ]
              | safe_prod ]
      | cbv beta; auto ] ].

Ltac safe_tac :=
  lazymatch goal with
  | |- safe _ (bind _ _) _ =>
      first
        [ eapply safe_bind; [ solve [safe_prod] | intros ? ?; safe_tac ]
        | eapply (safe_bind _ _ _ (fun _ => True));
          [ safe_tac | intros ? _; safe_tac ] ]
  | |- safe _ (forM_ _ _) _ =>
      eapply safe_weaken; [ apply safe_forM; intros ?; safe_tac | cbv beta; auto ]
  | |- safe _ (mapM _ _) _ =>
      eapply safe_weaken; [ apply safe_mapM_True; intros ?; safe_tac | cbv beta; auto ]
  | |- safe _ (foldM _ _ _) _ =>
      eapply safe_weaken; [ apply safe_foldM; intros ? ?; safe_tac | cbv beta; auto ]
  | |- safe _ (match ?x with _ => _ end) _ => destruct x; safe_tac
  | |- _ => first [ safe_leaf | idtac ]
  end.

Lemma AddPart_safe n self a : n <= self -> safe n (AddPart self a) (fun _ => True).
Proof. intros H. unfold AddPart. safe_tac. Qed.

Lemma Group_init_safe n l : safe n (Group_init (VList l)) (fun g => n <= g).
Proof.
  unfold Group_init, SetPickable. cbn [py_iter].
  eapply safe_bind; [apply safe_alloc|]. intros self Hself.
  safe_tac; now apply AddPart_safe.
Qed.

Lemma safe_bind_ret {A B} n (a : A) (k : A -> M B) post :
  safe n (k a) post -> safe n (bind (ret a) k) post.
Proof. intros H s Hn. exact (H s Hn). Qed.

Ltac safe_prod ::= first [ apply safe_alloc | apply Group_init_safe ].

Lemma collect_scalarbars_safe n self acts :
  n <= self -> safe n (collect_scalarbars self acts) (fun _ => True).
Proof. intros H. unfold collect_scalarbars. safe_tac; now apply AddPart_safe. Qed.

Lemma Assembly_init_safe from_archive n l :
  safe n (Assembly_init from_archive [VList l]) (fun a => n <= a).
Proof.
  unfold Assembly_init. cbv beta iota.
  eapply safe_bind; [apply safe_alloc|]. intros self Hself.
  do 2 (apply safe_bind_ret; cbv beta iota).
  unfold Assembly_init_scalarbar. safe_tac; now apply collect_scalarbars_safe.
Qed.

Lemma Points_clone_safe n x : safe n (Points_clone x) (fun x' => n <= x').
Proof. unfold Points_clone. safe_tac. Qed.

Lemma shift_safe n c apos : fresh_obj n c -> safe n (shift c apos) (fun _ => True).
Proof. intros (r & -> & Hr). unfold shift. safe_tac. Qed.

Lemma clone_safe from_archive n fuel x :
  safe n (clone from_archive fuel x) (fresh_obj n).
Proof.
  revert x. induction fuel as [|fuel IH]; intros x; cbn [clone]; [apply safe_raise|].
  destruct x; try apply safe_raise.
  eapply safe_bind; [apply safe_deref|]. intros o _.
  destruct (cls o); try apply safe_raise.
  - eapply safe_bind; [apply Points_clone_safe|]. intros x' Hx'.
    apply safe_ret. now exists x'.
  - eapply safe_bind; [apply safe_mapM, IH|]. intros newlist _.
    eapply safe_bind; [apply Assembly_init_safe|]. intros a Ha.
    apply safe_ret. now exists a.
Qed.

Lemma genflatten_elem_safe from_archive n fuel elem :
  safe n (genflatten_elem from_archive fuel elem) (fun _ => True).
Proof.
  unfold genflatten_elem.
  eapply safe_bind; [apply safe_get_state|]. intros s _.
  destruct elem; try (now apply safe_ret).
  destruct (is_class CAssembly s (VObj r)); [|now apply safe_ret].
  eapply safe_bind; [apply safe_deref|]. intros o _.
  eapply safe_True, safe_mapM. intros x.
  destruct (float_truthy (np_sum (position o))); [|now apply (safe_ret n x (fun _ => True))].
  eapply safe_bind; [apply clone_safe|]. intros c Hc. now apply shift_safe.
Qed.

Lemma Assembly_unpack_pure self i s : snd (Assembly_unpack self i s) = s.
Proof.
  unfold Assembly_unpack, bind, deref. destruct (objs s !! self) as [o|]; [|reflexivity].
  destruct i; try reflexivity.
  - unfold py_index. repeat case_match; reflexivity.
  - assert (H : forall l, snd (find_by_name s0 l s) = s).
    { induction l as [|m l IH]; [reflexivity|]. cbn [find_by_name]. unfold bind.
      pose proof (attr_name_pure m s) as Hm.
      destruct (attr_name m s) as [[nm|e] s1]; cbn in Hm; subst; [|reflexivity].
      destruct (String.eqb s0 nm); [reflexivity | apply IH]. }
    specialize (H (objects o)). destruct (find_by_name s0 (objects o) s) as [[[m|]|e] s1];
      cbn in H; subst; reflexivity.
Qed.

Lemma genflatten_safe from_archive n fuel lst :
  safe n (genflatten from_archive fuel lst) (fun _ => True).
Proof.
  unfold genflatten. destruct lst as [|first lst]; [now apply safe_ret|].
  eapply safe_bind; [apply safe_get_state|]. intros s _.
  eapply (safe_bind _ _ _ (fun _ => True)).
  - destruct (is_class CAssembly s first); [|now apply safe_ret].
    eapply (safe_bind _ _ _ (fun _ => True)).
    + destruct first; try apply safe_raise. apply safe_pure, Assembly_unpack_pure.
    + intros u _. apply safe_pure, py_iter_pure.
  - intros l _. eapply safe_bind; [apply safe_mapM, genflatten_elem_safe|].
    intros y _. now apply safe_ret.
Qed.

Lemma recursive_unpack_prefix from_archive fuel self s :
  objs s `prefix_of` objs (snd (recursive_unpack from_archive fuel self s)).
Proof. eapply safe_prefix, genflatten_safe. Qed.

Lemma Group_init_prefix l s : objs s `prefix_of` objs (snd (Group_init (VList l) s)).
Proof. eapply safe_prefix, Group_init_safe. Qed.

Lemma pres_pure Ro `{!Reflexive Ro} {A} (m : M A) :
  (forall s, snd (m s) = s) -> pres Ro m.
Proof. intros H s. rewrite H. now apply lift_refl. Qed.

Ltac pres_upd :=
  intros ?;
  first [ reflexivity
        | repeat split; first [ reflexivity | intros ?; first [ assumption | reflexivity ] ] ].

Ltac pres_leaf :=
  first
    [ apply (pres_ret _) | apply (pres_raise _) | apply (pres_get_state _) | apply (pres_deref _)
    | apply (pres_log _) | apply (pres_alloc _)
    | apply (pres_update _); pres_upd
    | apply (pres_pure _); first [ apply attr_actor_pure | apply attr_name_pure
                             | apply attr_npoints_pure | apply py_iter_pure
                             | apply Assembly_unpack_pure ]
    | apply (pres_of_prefix _); intros ?;
      first [ apply Group_init_prefix | apply recursive_unpack_prefix ] ].

Ltac pres_tac :=
  lazymatch goal with
  | |- pres _ (bind _ _) => apply (pres_bind _); [ pres_tac | intros ?; pres_tac ]
  | |- pres _ (forM_ _ _) => apply (pres_forM _); intros ?; pres_tac
  | |- pres _ (mapM _ _) => apply (pres_mapM _); intros ?; pres_tac
  | |- pres _ (foldM _ _ _) => apply (pres_foldM _); intros ? ?; pres_tac
  | |- pres _ (match ?x with _ => _ end) => destruct x; pres_tac
  | |- _ => first [ pres_leaf | idtac ]
  end.

(** * The parallel lists of an assembly *)

#[local] Instance same_lists_refl : Reflexive same_lists.
Proof. intros o. repeat split. Qed.

#[local] Instance same_lists_trans : Transitive same_lists.
Proof. intros a b c (H1 & H2 & H3) (K1 & K2 & K3). repeat split; congruence. Qed.

#[local] Instance same_actor_refl : Reflexive same_actor.
Proof. intros o. reflexivity. Qed.

#[local] Instance same_actor_trans : Transitive same_actor.
Proof. intros a b c H1 H2. unfold same_actor in *. congruence. Qed.

Lemma lift_weaken (Ro Ro' : pyobj -> pyobj -> Prop) s s' :
  (forall o o', Ro o o' -> Ro' o o') -> lift Ro s s' -> lift Ro' s s'.
Proof. intros Hw HL r o H. destruct (HL r o H) as (o' & H' & HR). eauto. Qed.

Lemma lift_update Ro `{!Reflexive Ro} self f s o :
  objs s !! self = Some o -> Ro o (f o) ->
  lift Ro s (mkState (<[self := f o]> (objs s)) (logs s)).
Proof.
  intros Hself Hf r o' H. cbn. destruct (decide (self = r)) as [<-|Hne].
  - rewrite Hself in H. injection H as <-. exists (f o). split; [|exact Hf].
    apply list_lookup_insert_eq. now apply lookup_lt_Some in Hself.
  - exists o'. split; [|reflexivity]. now rewrite list_lookup_insert_ne.
Qed.

Lemma has_actor_lift s s' m a : lift same_actor s s' -> has_actor s m a -> has_actor s' m a.
Proof.
  intros HL (r & o & -> & Hr & Ha). destruct (HL r o Hr) as (o' & Hr' & Hact).
  exists r, o'. unfold same_actor in Hact. repeat split; congruence.
Qed.

Lemma attr_actor_eq s m a : has_actor s m a -> attr_actor m s = (Ok a, s).
Proof.
  intros (r & o & -> & Hr & Ha). cbn [attr_actor].
  rewrite (bind_eq_Ok _ _ _ _ _ (deref_eq _ _ _ Hr)). now rewrite Ha.
Qed.

Lemma parallel_lists_lift s s' self :
  lift same_lists s s' -> parallel_lists s self -> parallel_lists s' self.
Proof.
  intros HL (o & Hself & Hlen & Hidx). destruct (HL self o Hself) as (o' & Hself' & _ & Ho & Ha).
  exists o'. rewrite Ho, Ha. repeat split; auto.
  intros i m a Hm Hact. eapply has_actor_lift; [|eauto].
  eapply lift_weaken; [|exact HL]. now intros ? ? (? & _).
Qed.

Lemma mapM_attr_actor l s acts s' :
  mapM attr_actor l s = (Ok acts, s') -> s' = s /\ Forall2 (has_actor s) l acts.
Proof.
  revert acts. induction l as [|m l IH]; intros acts; cbn [mapM].
  - intros [= <- <-]. auto.
  - intros H. apply bind_Ok in H as (a & s1 & Ha & H).
    pose proof (attr_actor_state _ _ _ _ Ha) as ->.
    apply bind_Ok in H as (bs & s2 & Hbs & H). injection H as <- <-.
    destruct (IH _ Hbs) as [-> HF]. split; [reflexivity|]. constructor; [|exact HF].
    exact (attr_actor_Ok _ _ _ _ Ha).
Qed.

Lemma AddPart_pres_lists self a : pres same_lists (AddPart self a).
Proof. unfold AddPart. pres_tac. Qed.

Lemma Group_iadd_pres_lists g x : pres same_lists (Group_iadd g x).
Proof. unfold Group_iadd. pres_tac; apply AddPart_pres_lists. Qed.

Lemma unpack_group_pure sb s : snd (unpack_group sb s) = s.
Proof. unfold unpack_group, bind, get_state. now destruct (as_group s sb). Qed.

Lemma Assembly_init_scalarbar_pres self : pres same_lists (Assembly_init_scalarbar self).
Proof.
  unfold Assembly_init_scalarbar, collect_scalarbars. pres_tac; apply AddPart_pres_lists.
Qed.

Lemma Assembly_add_scalarbar_pres self obj : pres same_lists (Assembly_add_scalarbar self obj).
Proof.
  unfold Assembly_add_scalarbar.
  pres_tac; first [ apply Group_iadd_pres_lists
                  | apply (pres_pure _), unpack_group_pure ].
Qed.

Lemma Assembly_init_parallel from_archive meshs s a s' :
  Assembly_init from_archive meshs s = (Ok a, s') -> parallel_lists s' a.
Proof.
  unfold Assembly_init. intros H.
  apply bind_Ok in H as (self & s1 & _ & H).
  apply bind_Ok in H as (meshs1 & s2 & _ & H).
  apply bind_Ok in H as (meshs2 & s3 & _ & H).
  apply bind_Ok in H as (? & s4 & _ & H).
  apply bind_Ok in H as (? & s5 & _ & H).
  apply bind_Ok in H as (? & s6 & _ & H).
  apply bind_Ok in H as (items & s7 & _ & H).
  apply bind_Ok in H as (s8 & ? & _ & H).
  apply bind_Ok in H as (? & s9 & _ & H).
  apply bind_Ok in H as (o & s10 & Ho & H). apply deref_Ok in Ho as [Ho ->].
  apply bind_Ok in H as (acts & s11 & Hacts & H).
  apply mapM_attr_actor in Hacts as [-> Hacts].
  apply bind_Ok in H as (? & s12 & Hupd & H).
  apply update_Ok in Hupd as (o' & Ho' & ->). rewrite Ho in Ho'. injection Ho' as <-.
  apply bind_Ok in H as (? & s13 & Hsb & H). injection H as <- <-.
  pose proof (Assembly_init_scalarbar_pres self
                (mkState (<[self := set_actors acts o]> (objs s9)) (logs s9))) as HL.
  rewrite Hsb in HL. cbn [snd] in HL.
  eapply parallel_lists_lift; [exact HL|].
  assert (HL9 : lift same_actor s9 (mkState (<[self := set_actors acts o]> (objs s9)) (logs s9))).
  { apply (lift_update _); [exact Ho | reflexivity]. }
  exists (set_actors acts o). cbn [objs objects actors set_actors]. split.
  - apply list_lookup_insert_eq. now apply lookup_lt_Some in Ho.
  - split; [now apply Forall2_length in Hacts|].
    intros i m act Hm Hact. eapply has_actor_lift; [exact HL9|].
    eapply Forall2_lookup_lr; eauto.
Qed.

Lemma update_spec self f s o :
  objs s !! self = Some o ->
  exists s1, update self f s = (Ok tt, s1) /\ objs s1 !! self = Some (f o) /\
    forall Ro, Reflexive Ro -> Ro o (f o) -> lift Ro s s1.
Proof.
  intros Hself. eexists. split; [exact (update_eq _ _ _ _ Hself)|]. split.
  - cbn. apply list_lookup_insert_eq. now apply lookup_lt_Some in Hself.
  - intros Ro HR Hf. now apply (lift_update _).
Qed.

Lemma Assembly_add_parallel self obj s r s' :
  parallel_lists s self -> Assembly_add self obj s = (r, s') -> parallel_lists s' self.
Proof.
  intros Hinv. unfold Assembly_add. rewrite (bind_eq_Ok get_state _ s s s eq_refl).
  destruct (is_Prop3D s (getattr_actor s obj)) eqn:E3; [|now intros [= <- <-]].
  destruct Hinv as (o & Hself & Hlen & Hidx).
  assert (exists ra, has_actor s obj (VObj ra)) as [ra Hact].
  { unfold is_Prop3D, class_of, getattr_actor in *. destruct obj; try discriminate.
    destruct (objs s !! r0) as [oo|] eqn:Eo; [|discriminate].
    destruct (actor oo) as [a|] eqn:Ea; [|discriminate]. cbn [default] in *.
    destruct a; try discriminate. exists r1, r0, oo. auto. }
  destruct (update_spec self (fun o => set_objects (objects o ++ [obj]) o) s o Hself)
    as (s1 & Hu1 & Hself1 & HL1).
  specialize (HL1 same_actor _ eq_refl).
  rewrite (bind_eq_Ok _ _ _ _ _ Hu1).
  rewrite (bind_eq_Ok _ _ _ _ _ (attr_actor_eq _ _ _ (has_actor_lift _ _ _ _ HL1 Hact))).
  destruct (update_spec self (fun o => set_actors (actors o ++ [VObj ra]) o) s1 _ Hself1)
    as (s2 & Hu2 & Hself2 & HL2).
  specialize (HL2 same_actor _ eq_refl).
  rewrite (bind_eq_Ok _ _ _ _ _ Hu2).
  assert (HL12 : lift same_actor s s2) by (eapply (lift_trans _); eauto).
  rewrite (bind_eq_Ok _ _ _ _ _ (attr_actor_eq _ _ _ (has_actor_lift _ _ _ _ HL12 Hact))).
  destruct (update_spec self (fun o => set_parts (parts o ++ [ra]) o) s2 _ Hself2)
    as (s3 & Hu3 & Hself3 & HL3).
  specialize (HL3 same_actor _ eq_refl).
  cbn [AddPart]. rewrite (bind_eq_Ok _ _ _ _ _ Hu3).
  assert (HL13 : lift same_actor s s3) by (eapply (lift_trans _); eauto).
  assert (Hinv3 : parallel_lists s3 self).
  { eexists. split; [exact Hself3|]. cbn. split.
    - rewrite !length_app. cbn. lia.
    - intros i m a Hm Ha. eapply has_actor_lift; [exact HL13|].
      destruct (decide (i < length (objects o))) as [Hi|Hi].
      + rewrite lookup_app_l in Hm by assumption.
        rewrite lookup_app_l in Ha by lia. eauto.
      + assert (i = length (objects o)) as ->.
        { apply lookup_lt_Some in Hm. rewrite length_app in Hm. cbn in Hm. lia. }
        rewrite list_lookup_middle in Hm by reflexivity.
        rewrite list_lookup_middle in Ha by exact Hlen.
        congruence. }
  intros H.
  pose proof (Assembly_add_scalarbar_pres self obj s3) as HL.
  apply bind_inv in H as [(u & s4 & Hsb & H) | (e & Hsb & _)]; rewrite Hsb in HL; cbn [snd] in HL.
  - injection H as _ <-. eapply parallel_lists_lift; eauto.
  - eapply parallel_lists_lift; eauto.
Qed.

(** Every object of an assembly with parallel lists is in the store. *)
Lemma parallel_lists_alive s self o :
  parallel_lists s self -> objs s !! self = Some o -> Forall (alive s) (objects o).
Proof.
  intros (o' & Ho' & Hlen & Hidx) Ho. rewrite Ho in Ho'. injection Ho' as <-.
  apply Forall_lookup. intros i m Hm.
  destruct (lookup_lt_is_Some_2 (actors o) i) as [a Ha].
  { rewrite <- Hlen. now apply lookup_lt_Some in Hm. }
  destruct (Hidx i m a Hm Ha) as (r & om & -> & Hr & _). now exists r, om.
Qed.

(** C1: after every construction that returns (from a list of objects, a
    mapping or the name of an archive, whatever the archive holds) and after
    every [__add__], returning or raising, [objects] and [actors] have the
    same length and [actors[i]] is [objects[i].actor]. *)
Theorem parallel_lists_invariant (from_archive : string -> M (list pyval)) :
  (forall meshs s a s',
     Assembly_init from_archive meshs s = (Ok a, s') -> parallel_lists s' a) /\
  (forall self obj s r s',
     parallel_lists s self -> Assembly_add self obj s = (r, s') ->
     parallel_lists s' self).
Proof.
  split.
  - apply Assembly_init_parallel.
  - apply Assembly_add_parallel.
Qed.

Lemma parallel_lists_invariant_witness :
  parallel_lists scene_abc 6 /\
  parallel_lists (snd (Assembly_add 6 (VObj 1) scene_abc)) 6.
Proof.
  destruct (parallel_lists_invariant no_archive) as [Hinit Hadd].
  assert (H6 : parallel_lists scene_abc 6).
  { apply (Hinit [VObj 1; VObj 3; VObj 5] scene 6 scene_abc). reflexivity. }
  split; [exact H6|].
  apply (Hadd 6 (VObj 1) scene_abc (fst (Assembly_add 6 (VObj 1) scene_abc)) _ H6).
  apply surjective_pairing.
Defined.

(** * Flattening *)

Lemma below_refl n s : n <= length (objs s) -> below n s s.
Proof. intros H. split; auto. Qed.

Lemma below_trans n s1 s2 s3 : below n s1 s2 -> below n s2 s3 -> below n s1 s3.
Proof. intros [L1 H1] [L2 H2]. split; [exact L2|]. intros r Hr. rewrite H2, H1; auto. Qed.

Lemma below_le n k s s' : k <= n -> below n s s' -> below k s s'.
Proof. intros Hk [L H]. split; [lia|]. intros r Hr. apply H. lia. Qed.

Lemma safe_below {A} n (m : M A) post s :
  safe n m post -> n <= length (objs s) -> below n s (snd (m s)).
Proof.
  intros H Hn. destruct (H s Hn) as (H1 & H2 & _). split; [exact H1|].
  intros r Hr. rewrite <- (lookup_take_lt (objs (snd (m s))) n r Hr).
  rewrite H2. now apply lookup_take_lt.
Qed.

Lemma below_lookup n s s' r o :
  below n s s' -> r < n -> objs s !! r = Some o -> objs s' !! r = Some o.
Proof. intros [_ H] Hr Ho. now rewrite H. Qed.

#[local] Instance same_cls_refl : Reflexive same_cls.
Proof. intros o. split; reflexivity. Qed.

#[local] Instance same_cls_trans : Transitive same_cls.
Proof. intros a b c [H1 H2] [K1 K2]. split; congruence. Qed.

Lemma AddPart_pres_cls self a : pres same_cls (AddPart self a).
Proof. unfold AddPart. pres_tac. Qed.

Lemma Assembly_init_list_spec from_archive l s a s' :
  Assembly_init from_archive [VList l] s = (Ok a, s') ->
  a = length (objs s) /\
  exists oa, objs s' !! a = Some oa /\ cls oa = CAssembly /\
    position oa = (0, 0, 0)%float.
Proof.
  unfold Assembly_init. cbv beta iota. intros H.
  apply bind_Ok in H as (self & s1 & Hal & H). injection Hal as <- <-.
  rewrite !bind_ret_l in H. cbv beta iota in H.
  set (self := length (objs s)) in *.
  set (s1 := mkState (objs s ++ [new_object CAssembly]) (logs s)) in *.
  match type of H with
  | ?m s1 = _ =>
      assert (Hret : safe 0 m (fun a => a = self));
      [| assert (Hcls : pres same_cls m) ]
  end.
  - unfold Assembly_init_scalarbar. safe_tac; apply collect_scalarbars_safe; lia.
  - unfold Assembly_init_scalarbar, collect_scalarbars, SetPickable.
    pres_tac; apply AddPart_pres_cls.
  - destruct (Hret s1 (Nat.le_0_l _)) as (_ & _ & Hr). rewrite H in Hr.
    specialize (Hr a eq_refl). subst a. split; [reflexivity|].
    specialize (Hcls s1). rewrite H in Hcls. cbn [snd] in Hcls.
    destruct (Hcls self (new_object CAssembly)) as (oa & Hoa & Hc & Hp).
    + unfold s1, self. cbn. now apply list_lookup_middle.
    + exists oa. split; [exact Hoa|]. split; [exact Hc | exact Hp].
Qed.

Lemma Points_clone_spec x s x' s' :
  Points_clone x s = (Ok x', s') ->
  exists o o', objs s !! x = Some o /\ length (objs s) <= x' /\
    objs s' !! x' = Some o' /\ cls o' = cls o /\ position o' = position o /\
    npoints o' = npoints o /\ name o' = name o.
Proof.
  unfold Points_clone. intros H.
  apply bind_Ok in H as (o & s1 & Ho & H). apply deref_Ok in Ho as [Ho ->].
  assert (Hplain : forall o1, cls o1 = cls o -> position o1 = position o ->
            npoints o1 = npoints o -> name o1 = name o ->
            alloc o1 s = (Ok x', s') ->
            exists o o', objs s !! x = Some o /\ length (objs s) <= x' /\
              objs s' !! x' = Some o' /\ cls o' = cls o /\ position o' = position o /\
              npoints o' = npoints o /\ name o' = name o).
  { intros o1 H1 H2 H3 H4 Hal. injection Hal as <- <-. exists o, o1. cbn.
    repeat split; auto. now apply list_lookup_middle. }
  destruct (actor o) as [[| | | |a| |]|]; try (now apply (Hplain o)).
  destruct (Nat.eqb a x).
  - apply bind_Ok in H as (x1 & s1 & Hal & H). injection Hal as <- <-.
    apply bind_Ok in H as (? & s2 & Hu & H). injection H as <- <-.
    apply update_Ok in Hu as (o1 & Ho1 & ->). cbn in Ho1.
    rewrite list_lookup_middle in Ho1 by reflexivity. injection Ho1 as <-.
    exists o, (set_actor (Some (VObj (length (objs s)))) o). cbn. repeat split; auto.
    apply list_lookup_insert_eq. rewrite length_app. cbn. lia.
  - apply bind_Ok in H as (oa & s1 & Hoa & H). apply deref_Ok in Hoa as [Hoa ->].
    apply bind_Ok in H as (a' & s1 & Hal & H). injection Hal as <- <-.
    injection H as <- <-. eexists o, _. split; [exact Ho|]. cbn [objs].
    split; [rewrite length_app; lia|]. split.
    + apply list_lookup_middle. reflexivity.
    + cbn. auto.
Qed.

Lemma clone_spec from_archive fuel x s c s1 :
  clone from_archive fuel x s = (Ok c, s1) ->
  exists rx rc ox oc,
    x = VObj rx /\ c = VObj rc /\ objs s !! rx = Some ox /\
    length (objs s) <= rc /\ objs s1 !! rc = Some oc /\ cls oc = cls ox /\
    (cls ox = CPoints ->
     position oc = position ox /\ npoints oc = npoints ox /\ name oc = name ox) /\
    (cls ox = CAssembly -> position oc = (0, 0, 0)%float).
Proof.
  destruct fuel as [|fuel]; [discriminate|]. cbn [clone].
  destruct x; try discriminate. intros H.
  apply bind_Ok in H as (ox & s0 & Hox & H). apply deref_Ok in Hox as [Hox ->].
  destruct (cls ox) eqn:Ec; try discriminate.
  - apply bind_Ok in H as (x' & s2 & Hpc & H). injection H as <- <-.
    apply Points_clone_spec in Hpc as (o & o' & Ho & Hlen & Ho' & Hc & Hp & Hn & Hnm).
    rewrite Hox in Ho. injection Ho as <-.
    exists r, x', ox, o'. repeat split; auto; congruence.
  - apply bind_Ok in H as (newlist & sm & Hm & H).
    apply bind_Ok in H as (a & s2 & Hinit & H). injection H as <- <-.
    apply Assembly_init_list_spec in Hinit as (-> & oa & Hoa & Hc & Hp).
    assert (Hb : below (length (objs s)) s sm).
    { replace sm with (snd (mapM (clone from_archive fuel) (objects ox) s)) by now rewrite Hm.
      eapply safe_below; [|reflexivity]. apply safe_mapM, clone_safe. }
    exists r, (length (objs sm)), ox, oa. repeat split; auto; try congruence.
    apply Hb.
Qed.

Lemma mapM_ret {A} (l : list A) s : mapM (fun x => ret x) l s = (Ok l, s).
Proof.
  induction l as [|a l IH]; [reflexivity|]. cbn [mapM].
  now rewrite bind_ret_l, (bind_eq_Ok _ _ _ _ _ IH).
Qed.

Lemma translated_clone_mono s0 s1 s' apos x c :
  translated_clone s0 s1 apos x c -> below (length (objs s1)) s1 s' ->
  translated_clone s0 s' apos x c.
Proof.
  intros (rx & rc & ox & oc & -> & -> & Hx & Hc & Hnew & Hne & Hrest) Hb.
  exists rx, rc, ox, oc. repeat split; try tauto.
  - eapply below_lookup; [exact Hb | now apply lookup_lt_Some in Hx | exact Hx].
  - eapply below_lookup; [exact Hb | now apply lookup_lt_Some in Hc | exact Hc].
Qed.

Lemma clone_shift_loop from_archive fuel apos (s0 : state) l :
  forall s ys s',
    length (objs s0) <= length (objs s) ->
    mapM (fun x => c <- clone from_archive fuel x ;; shift c apos) l s = (Ok ys, s') ->
    Forall2 (translated_clone s0 s' apos) l ys /\ below (length (objs s)) s s'.
Proof.
  induction l as [|x l IH]; intros s ys s' Hlen H; cbn [mapM] in H.
  - injection H as <- <-. split; [constructor | now apply below_refl].
  - apply bind_Ok in H as (y & s2 & Hhead & H).
    apply bind_Ok in H as (ys' & s3 & Htail & H). injection H as <- <-.
    assert (Hb2 : below (length (objs s)) s s2).
    { replace s2 with (snd ((c <- clone from_archive fuel x ;; shift c apos) s))
        by now rewrite Hhead.
      eapply safe_below; [|reflexivity].
      eapply safe_bind; [apply clone_safe|]. intros c Hc. now apply shift_safe. }
    apply bind_Ok in Hhead as (c & s1 & Hclone & Hshift).
    apply clone_spec in Hclone
      as (rx & rc & ox & oc & -> & -> & Hx & Hfresh & Hc & Hcls & Hpts & Hasm).
    cbn [shift] in Hshift.
    apply bind_Ok in Hshift as (? & s2' & Hu & Hshift). injection Hshift as <- <-.
    apply update_Ok in Hu as (oc' & Hoc' & ->). rewrite Hc in Hoc'. injection Hoc' as <-.
    apply IH in Htail as [HF Hb3]; [|destruct Hb2; lia].
    split.
    + constructor; [|exact HF].
      eapply translated_clone_mono; [|exact Hb3].
      exists rx, rc, ox, (set_position (add3 (position oc) apos) oc).
      assert (Hrx : rx < length (objs s)) by now apply lookup_lt_Some in Hx.
      repeat split.
      * eapply below_lookup; [exact Hb2 | exact Hrx | exact Hx].
      * cbn. apply list_lookup_insert_eq. now apply lookup_lt_Some in Hc.
      * apply lookup_ge_None. lia.
      * lia.
      * exact Hcls.
      * cbn. now destruct (Hpts H) as (-> & _).
      * cbn. now destruct (Hpts H) as (_ & -> & _).
      * cbn. now destruct (Hpts H) as (_ & _ & ->).
      * cbn. intros H. now rewrite (Hasm H).
    + eapply below_trans; [exact Hb2|]. eapply below_le; [|exact Hb3]. now destruct Hb2.
Qed.

Lemma yields_of_mono s0 s1 s' e ys :
  yields_of s0 s1 e ys -> below (length (objs s1)) s1 s' -> yields_of s0 s' e ys.
Proof.
  intros H Hb. unfold yields_of in *. destruct e; auto.
  destruct (objs s0 !! r) as [o|]; auto. destruct (cls o); auto.
  destruct (float_truthy (np_sum (position o))); auto.
  eapply Forall2_impl; [exact H|]. intros x c Hxc. eapply translated_clone_mono; eauto.
Qed.

Lemma genflatten_elem_spec from_archive fuel (s0 : state) e s ys s' :
  alive s0 e -> below (length (objs s0)) s0 s ->
  genflatten_elem from_archive fuel e s = (Ok ys, s') ->
  yields_of s0 s' e ys /\ below (length (objs s)) s s'.
Proof.
  intros (r & o & -> & Ho) Hb H. unfold genflatten_elem in H.
  rewrite (bind_eq_Ok get_state _ s s s eq_refl) in H.
  assert (Ho' : objs s !! r = Some o).
  { eapply below_lookup; [exact Hb | now apply lookup_lt_Some in Ho | exact Ho]. }
  unfold yields_of. rewrite Ho. unfold is_class, class_of in H. rewrite Ho' in H.
  cbn [fmap option_fmap option_map] in H.
  assert (Hother : class_eqb CAssembly (cls o) = false ->
            [VObj r] = ys /\ below (length (objs s)) s s').
  { intros E. rewrite E in H. injection H as <- <-. split; [reflexivity|].
    apply below_refl. lia. }
  destruct (cls o) eqn:Ec; try (destruct Hother as [<- ?]; [reflexivity | now split]).
  cbn [class_eqb] in H. rewrite (bind_eq_Ok _ _ _ _ _ (deref_eq _ _ _ Ho')) in H.
  destruct (float_truthy (np_sum (position o))).
  - eapply clone_shift_loop; [|exact H]. now destruct Hb.
  - rewrite mapM_ret in H. injection H as <- <-. split; [reflexivity|].
    apply below_refl. lia.
Qed.

Lemma genflatten_loop from_archive fuel (s0 : state) l :
  forall s yss s',
    Forall (alive s0) l -> below (length (objs s0)) s0 s ->
    mapM (genflatten_elem from_archive fuel) l s = (Ok yss, s') ->
    Forall2 (yields_of s0 s') l yss /\ below (length (objs s)) s s'.
Proof.
  induction l as [|e l IH]; intros s yss s' Hall Hb H; cbn [mapM] in H.
  - injection H as <- <-. split; [constructor|]. apply below_refl. lia.
  - apply bind_Ok in H as (ys & s1 & Hhead & H).
    apply bind_Ok in H as (yss' & s2 & Htail & H). injection H as <- <-.
    inversion Hall as [|? ? He Hl]; subst.
    apply (genflatten_elem_spec _ _ s0) in Hhead as [Hy Hb1]; [|assumption..].
    assert (Hb01 : below (length (objs s0)) s0 s1).
    { eapply below_trans; [exact Hb|]. eapply below_le; [|exact Hb1]. now destruct Hb. }
    apply IH in Htail as [HF Hb2]; [|assumption..].
    split.
    + constructor; [|exact HF]. eapply yields_of_mono; eauto.
    + eapply below_trans; [exact Hb1|]. eapply below_le; [|exact Hb2]. now destruct Hb1.
Qed.

Lemma recursive_unpack_spec (from_archive : string -> M (list pyval))
    (fuel : nat) (s : state) (self : ref) (o : pyobj)
    (elems : list pyval) (s' : state) :
  objs s !! self = Some o -> cls o = CAssembly ->
  Forall (alive s) (objects o) ->
  recursive_unpack from_archive fuel self s = (Ok elems, s') ->
  exists yss, elems = concat yss /\ Forall2 (yields_of s s') (objects o) yss.
Proof.
  intros Hself Hcls Hall H. unfold recursive_unpack, genflatten in H.
  rewrite (bind_eq_Ok get_state _ s s s eq_refl) in H.
  unfold is_class, class_of in H. rewrite Hself in H.
  cbn [fmap option_fmap option_map] in H. rewrite Hcls in H. cbn [class_eqb] in H.
  assert (Hl : (u <- Assembly_unpack self VNone ;; py_iter u) s = (Ok (objects o), s)).
  { unfold Assembly_unpack.
    assert (Hu : (o <- deref self ;; ret (VList (objects o))) s = (Ok (VList (objects o)), s))
      by now rewrite (bind_eq_Ok _ _ _ _ _ (deref_eq _ _ _ Hself)).
    now rewrite (bind_eq_Ok _ _ _ _ _ Hu). }
  rewrite (bind_eq_Ok _ _ _ _ _ Hl) in H.
  apply bind_Ok in H as (yss & s1 & Hloop & H). injection H as <- <-.
  exists yss. split; [reflexivity|].
  eapply genflatten_loop; [exact Hall | apply below_refl; lia | exact Hloop].
Qed.

(** * Pickability *)

#[local] Instance keeps_flag_refl v : Reflexive (keeps_flag v).
Proof. intros o H. exact H. Qed.

#[local] Instance keeps_flag_trans v : Transitive (keeps_flag v).
Proof. intros a b c H1 H2 H. apply H2, H1, H. Qed.

Lemma pickable_is_lift v s s' e :
  lift (keeps_flag v) s s' -> pickable_is s v e -> pickable_is s' v e.
Proof.
  intros HL (r & o & -> & Ho & Hv). destruct (HL r o Ho) as (o' & Ho' & Hk).
  exists r, o'. auto.
Qed.

Lemma elem_pickable_pres v (rec : ref -> bool -> M ref) elem :
  (forall r, pres (keeps_flag v) (rec r v)) ->
  pres (keeps_flag v) (elem_pickable rec v elem).
Proof.
  intros Hrec. unfold elem_pickable, Group_pickable, Points_pickable, SetPickable.
  pres_tac. apply Hrec.
Qed.

Lemma Assembly_pickable_pres from_archive fuel v :
  forall self, pres (keeps_flag v) (Assembly_pickable from_archive fuel self v).
Proof.
  induction fuel as [|fuel IH]; intros self; cbn [Assembly_pickable].
  - apply (pres_raise _).
  - unfold SetPickable. pres_tac. now apply elem_pickable_pres.
Qed.

Lemma SetPickable_spec self v s o :
  objs s !! self = Some o ->
  exists s', SetPickable self v s = (Ok tt, s') /\
    objs s' !! self = Some (set_pickable v o) /\
    forall r, r <> self -> objs s' !! r = objs s !! r.
Proof.
  intros Ho. eexists. split; [exact (update_eq _ _ _ _ Ho)|]. cbn. split.
  - apply list_lookup_insert_eq. now apply lookup_lt_Some in Ho.
  - intros r Hr. now apply list_lookup_insert_ne.
Qed.

Lemma SetPickable_Ok self v s u s' :
  SetPickable self v s = (Ok u, s') -> pickable_is s' v (VObj self).
Proof.
  intros H. apply update_Ok in H as (o & Ho & ->).
  exists self, (set_pickable v o). repeat split. cbn.
  apply list_lookup_insert_eq. now apply lookup_lt_Some in Ho.
Qed.

Lemma elem_pickable_sets v (rec : ref -> bool -> M ref) elem s u s' :
  (forall r s a s', rec r v s = (Ok a, s') -> pickable_is s' v (VObj r)) ->
  elem_pickable rec v elem s = (Ok u, s') -> pickable_is s' v elem.
Proof.
  intros Hrec H. unfold elem_pickable in H. destruct elem; try discriminate.
  apply bind_Ok in H as (o & s0 & Ho & H). apply deref_Ok in Ho as [Ho ->].
  destruct (cls o); try discriminate.
  - unfold Points_pickable in H.
    apply bind_Ok in H as (? & s1 & H1 & H). injection H as _ <-.
    apply bind_Ok in H1 as (? & s2 & H2 & H1). injection H1 as _ <-.
    eapply SetPickable_Ok; eauto.
  - apply bind_Ok in H as (? & s1 & H1 & H). injection H as _ <-. eauto.
  - unfold Group_pickable in H.
    apply bind_Ok in H as (? & s1 & H1 & H). injection H as _ <-.
    apply bind_Ok in H1 as (? & s2 & H2 & H1). injection H1 as _ <-.
    eapply SetPickable_Ok; eauto.
Qed.

Lemma pickable_loop v (rec : ref -> bool -> M ref) elems :
  (forall r, pres (keeps_flag v) (rec r v)) ->
  (forall r s a s', rec r v s = (Ok a, s') -> pickable_is s' v (VObj r)) ->
  forall s u s', forM_ elems (elem_pickable rec v) s = (Ok u, s') ->
    Forall (pickable_is s' v) elems.
Proof.
  intros Hpres Hrec. induction elems as [|e elems IH]; intros s u s' H; [constructor|].
  cbn [forM_] in H. apply bind_Ok in H as (? & s1 & He & H).
  constructor; [|eapply IH; exact H].
  eapply pickable_is_lift; [|eapply elem_pickable_sets; eauto].
  pose proof (pres_forM (keeps_flag v) (elem_pickable rec v) elems
                (fun a => elem_pickable_pres v rec a Hpres) s1) as HL.
  now rewrite H in HL.
Qed.

Lemma Assembly_pickable_spec from_archive fuel :
  forall self v s a s',
    Assembly_pickable from_archive fuel self v s = (Ok a, s') ->
    a = self /\ pickable_is s' v (VObj self) /\
    exists s0 s1 elems,
      SetPickable self v s = (Ok tt, s0) /\
      recursive_unpack from_archive (pred fuel) self s0 = (Ok elems, s1) /\
      Forall (pickable_is s' v) elems.
Proof.
  induction fuel as [|fuel IH]; intros self v s a s' H; [discriminate|].
  cbn [Assembly_pickable] in H.
  apply bind_Ok in H as ([] & s0 & H0 & H).
  apply bind_Ok in H as (elems & s1 & H1 & H).
  apply bind_Ok in H as (? & s2 & H2 & H). injection H as <- <-.
  split; [reflexivity|].
  assert (HL1 : lift (keeps_flag v) s0 s1).
  { apply (lift_prefix _). replace s1 with (snd (recursive_unpack from_archive fuel self s0))
      by now rewrite H1. apply recursive_unpack_prefix. }
  assert (HL2 : lift (keeps_flag v) s1 s2).
  { pose proof (pres_forM (keeps_flag v)
        (elem_pickable (Assembly_pickable from_archive fuel) v) elems
        (fun a => elem_pickable_pres v _ a (fun r => Assembly_pickable_pres from_archive fuel v r))
        s1) as HL.
    now rewrite H2 in HL. }
  split.
  - eapply pickable_is_lift; [exact HL2|]. eapply pickable_is_lift; [exact HL1|].
    eapply SetPickable_Ok; eauto.
  - exists s0, s1, elems. repeat split; auto.
    eapply pickable_loop; [| |exact H2].
    + intros r. apply Assembly_pickable_pres.
    + intros r s3 a s4 Hr. now apply IH in Hr.
Qed.

(** * The members of the 2D group *)

(** C3 (code bug): [Assembly([A, A])] flattens to the point set A twice, and
    [clone2d] puts two 2D copies of A in the group.  Line 557 tests
    [a in scanned], but nothing is ever appended to [scanned] (line 554), so
    no element is skipped as already processed: the group holds one copy per
    occurrence, not one per identity. *)
Theorem clone2d_copies_shared_element_twice :
  fst (recursive_unpack no_archive 3 6 scene_twice) = Ok [VObj 1; VObj 1] /\
  exists g s',
    Assembly_clone2d no_archive 4 6 (VStr "bottom-left") 1 0 false None scene_twice
      = (Ok g, s') /\
    map (fun p => proj_source <$> proj (the_object s' p)) (parts (the_object s' g))
      = [Some 1; Some 1].
Proof.
  split; [reflexivity|]. eexists _, _. split; [vm_compute; reflexivity|]. reflexivity.
Qed.

(** * The scalarbar of an assembly *)

(** C2 (code bug): [Assembly(inner, x3)], where the scalarbar of [inner] is
    the Group 13 of the bars 6 and 7 and the scalarbar of [x3] is the bar 8.
    Two children contribute, and the constructor wraps what they contribute
    as it is (line 252): the scalarbar is a Group whose members are the
    Group 13 and the bar 8, a Group nested in a Group, where the
    specification has the members 6, 7 and 8. *)
Theorem constructor_nests_group_scalarbar :
  exists outer s',
    Assembly_init no_archive [VObj 12; VObj 11] scene_bars_inner = (Ok outer, s') /\
    scalarbar (the_object s' outer) = Some (VObj 15) /\
    cls (the_object s' 15) = CGroup /\ parts (the_object s' 15) = [13; 8] /\
    cls (the_object s' 13) = CGroup /\ parts (the_object s' 13) = [6; 7].
Proof.
  eexists _, _. split; [vm_compute; reflexivity|]. repeat split.
Qed.

(** The other path to the same pair of children: [Assembly([x3]) + inner].
    [__add__] does unwrap a Group scalarbar, through [unpack_group], but
    that calls [Group.unpack], which does not exist: the call raises
    AttributeError, after [inner] was appended to the lists. *)
Lemma add_group_scalarbar_raises :
  exists s',
    (outer <- Assembly_init no_archive [VList [VObj 11]] ;;
     Assembly_add outer (VObj 12)) scene_bars_inner = (Raise AttributeError, s') /\
    objects (the_object s' 14) = [VObj 11; VObj 12] /\
    scalarbar (the_object s' 14) = Some (VObj 8).
Proof.
  eexists. split; [vm_compute; reflexivity|]. split; reflexivity.
Qed.

(** With no contributing child the scalarbar stays [None], and with one it
    is the scalarbar of that child. *)
Example scalarbar_of_none_and_one :
  scalarbar (the_object scene_abc 6) = Some VNone /\
  scalarbar (the_object
    (snd (Assembly_init no_archive [VObj 11; VObj 1] scene_bars_inner)) 14) = Some (VObj 8).
Proof. split; reflexivity. Qed.

(** * The placement of the 2D copies *)

(** C5 as it is written fails where the assembly is not at the origin: with
    the bounds (0, 10) x (0, 5) and the position (3, 4, 0), the scale factor
    is 100 and the position [0.5, 0.5], but the offset is (-3, -4) and not
    the lower-left bound (0, 0). *)
Lemma clone2d_offset_counterexample :
  xbounds (the_object scene_moved 6) = (0, 10)%float /\
  ybounds (the_object scene_moved 6) = (0, 5)%float /\
  exists g s' p pr,
    Assembly_clone2d no_archive 4 6 (VList [VFloat 0.5; VFloat 0.5]) 2 0 false None
      scene_moved = (Ok g, s') /\
    parts (the_object s' g) !! 0 = Some p /\
    proj (the_object s' p) = Some pr /\
    proj_size pr = 100%float /\
    pos2d (the_object s' p) = VList [VFloat 0.5; VFloat 0.5] /\
    proj_offset pr = (-3, -4)%float /\
    proj_offset pr <> (0, 0)%float.
Proof.
  split; [reflexivity|]. split; [reflexivity|].
  eexists _, _, _, _. split; [vm_compute; reflexivity|].
  split; [reflexivity|]. split; [reflexivity|]. split; [reflexivity|].
  split; [reflexivity|]. split; [reflexivity|].
  cbn. intros H. apply (f_equal (fun p => PrimFloat.ltb (fst p) 0)) in H.
  vm_compute in H. discriminate.
Qed.

#[local] Instance same_2d_refl P : Reflexive (same_2d P).
Proof. intros o. split; auto. Qed.

#[local] Instance same_2d_trans P : Transitive (same_2d P).
Proof. intros a b c [H1 H2] [K1 K2]. split; [congruence | auto]. Qed.

#[local] Instance same_parts_2d_refl P : Reflexive (same_parts_2d P).
Proof. intros o. repeat split; auto. Qed.

#[local] Instance same_parts_2d_trans P : Transitive (same_parts_2d P).
Proof.
  intros a b c (H1 & H2 & H3) (K1 & K2 & K3).
  repeat split; [congruence | congruence | | ]; destruct H3, K3; [congruence | auto].
Qed.

Lemma projected_lift s s' sz off P p :
  lift (same_2d P) s s' -> projected s sz off P p -> projected s' sz off P p.
Proof.
  intros HL (op & pr & Hp & Hpr & Hsz & Hoff & Hpos).
  destruct (HL p op Hp) as (op' & Hp' & Hproj & Hposk).
  exists op', pr. repeat split; auto. congruence.
Qed.

Lemma all_projected_lift s s' sz off P group :
  lift (same_parts_2d P) s s' ->
  all_projected sz off P group s -> all_projected sz off P group s'.
Proof.
  intros HL (og & Hg & Hc & Hall). destruct (HL group og Hg) as (og' & Hg' & Hparts & Hcls & _).
  exists og'. split; [exact Hg'|]. split; [congruence|]. rewrite Hparts.
  eapply Forall_impl; [exact Hall|]. intros p Hp. eapply projected_lift; [|exact Hp].
  eapply lift_weaken; [|exact HL]. now intros ? ? (_ & _ & ?).
Qed.

Lemma Points_clone2d_Ok x sz off s a2d s1 :
  Points_clone2d x sz off s = (Ok a2d, s1) ->
  exists op, objs s1 !! a2d = Some op /\ cls op = CProp2D /\
    proj op = Some (mkProjection x sz off).
Proof.
  unfold Points_clone2d. intros H.
  apply bind_Ok in H as (o & s0 & Ho & H). apply deref_Ok in Ho as [_ ->].
  injection H as <- <-. eexists. cbn. split; [now apply list_lookup_middle|].
  split; reflexivity.
Qed.

Lemma project_elem_pres P r size x0 x1 off rotation ontop :
  pres (same_parts_2d P) (project_elem r size x0 x1 off P rotation ontop).
Proof.
  unfold project_elem, Points_boundaries, rotate_z, Points_clone2d, place2d. pres_tac.
Qed.

Lemma project_elem_Ok P r size x0 x1 off rotation ontop s a2d s1 :
  project_elem r size x0 x1 off P rotation ontop s = (Ok a2d, s1) ->
  (exists op, objs s1 !! a2d = Some op /\ cls op = CProp2D) /\
  projected s1 (size * 500 / (x1 - x0))%float off P a2d.
Proof.
  unfold project_elem. intros H.
  apply bind_Ok in H as (o & s0 & Ho & H). apply deref_Ok in Ho as [_ ->].
  apply bind_Ok in H as (a & s2 & Hmk & H).
  apply bind_Ok in H as (? & s3 & Hplace & H). injection H as <- <-.
  assert (exists src op, objs s2 !! a = Some op /\ cls op = CProp2D /\
            proj op = Some (mkProjection src (size * 500 / (x1 - x0))%float off))
    as (src & op & Hop & Hcls & Hproj).
  { destruct (representation o =? 1)%Z.
    - apply bind_Ok in Hmk as (b & sb & _ & Hmk).
      apply bind_Ok in Hmk as (? & sr & _ & Hmk).
      apply Points_clone2d_Ok in Hmk. eauto.
    - apply bind_Ok in Hmk as (? & sr & _ & Hmk).
      apply Points_clone2d_Ok in Hmk. eauto. }
  unfold place2d in Hplace.
  apply bind_Ok in Hplace as (? & s4 & Hu1 & Hu2).
  apply update_Ok in Hu1 as (o1 & Ho1 & ->). rewrite Hop in Ho1. injection Ho1 as <-.
  apply update_Ok in Hu2 as (o2 & Ho2 & ->). cbn in Ho2.
  rewrite list_lookup_insert_eq in Ho2 by now apply lookup_lt_Some in Hop.
  injection Ho2 as <-.
  assert (Hfinal : objs (mkState (<[a := set_ontop ontop (set_pos2d P op)]>
             (<[a := set_pos2d P op]> (objs s2))) (logs s2)) !! a
           = Some (set_ontop ontop (set_pos2d P op))).
  { cbn. apply list_lookup_insert_eq. rewrite length_insert.
    now apply lookup_lt_Some in Hop. }
  split.
  - eexists. split; [exact Hfinal | exact Hcls].
  - eexists _, _. split; [exact Hfinal|]. cbn. rewrite Hproj. repeat split.
Qed.

Lemma Group_iadd_one group x s og ox :
  objs s !! group = Some og -> objs s !! x = Some ox -> cls ox = CProp2D ->
  Group_iadd group (VObj x) s =
    (Ok group, mkState (<[group := set_parts (parts og ++ [x]) og]> (objs s)) (logs s)).
Proof.
  intros Hg Hx Hc. unfold Group_iadd. cbn [is_sequence]. rewrite bind_ret_l.
  rewrite forM_cons, forM_nil, !bind_assoc.
  rewrite (bind_eq_Ok get_state _ s s s eq_refl).
  unfold truthy. rewrite Hx, Hc. cbn [AddPart].
  rewrite (bind_eq_Ok _ _ _ _ _ (update_eq _ _ _ _ Hg)).
  now rewrite !bind_ret_l.
Qed.

Lemma clone2d_elem_inv self group size x0 x1 off P rotation ontop a s r s' :
  all_projected (size * 500 / (x1 - x0))%float off P group s ->
  clone2d_elem self group [] size x0 x1 off P rotation ontop a s = (r, s') ->
  all_projected (size * 500 / (x1 - x0))%float off P group s'.
Proof.
  intros Hinv H. unfold clone2d_elem in H. cbn [py_in existsb] in H.
  rewrite (bind_eq_Ok get_state _ s s s eq_refl) in H.
  destruct (negb (is_class CPoints s a)); [now injection H as _ <-|].
  apply bind_inv in H as [(n & s0 & Hn & H) | (e & Hn & _)].
  2: { pose proof (attr_npoints_pure a s) as Hp. rewrite Hn in Hp. cbn in Hp. now subst. }
  pose proof (attr_npoints_pure a s) as Hp. rewrite Hn in Hp. cbn in Hp. subst s0.
  destruct (n =? 0)%Z; [now injection H as _ <-|].
  destruct a; try (now injection H as _ <-).
  pose proof (project_elem_pres P r0 size x0 x1 off rotation ontop s) as HL.
  apply bind_inv in H as [(a2d & s1 & Hmk & H) | (e & Hmk & _)]; rewrite Hmk in HL;
    cbn [snd] in HL; [|eapply all_projected_lift; eauto].
  apply (all_projected_lift _ _ _ _ _ _ HL) in Hinv as (og & Hg & Hcls & Hall).
  apply project_elem_Ok in Hmk as [(op & Hop & Hc) Hnew].
  rewrite (bind_eq_Ok _ _ _ _ _ (Group_iadd_one _ _ _ _ _ Hg Hop Hc)) in H.
  injection H as _ <-.
  assert (HL2 : lift (same_2d P) s1
            (mkState (<[group := set_parts (parts og ++ [a2d]) og]> (objs s1)) (logs s1))).
  { apply (lift_update _); [exact Hg|]. now split. }
  exists (set_parts (parts og ++ [a2d]) og). cbn [objs]. split.
  - apply list_lookup_insert_eq. now apply lookup_lt_Some in Hg.
  - split; [exact Hcls|]. cbn [parts set_parts]. apply Forall_app. split.
    + eapply Forall_impl; [exact Hall|]. intros p Hp. eapply projected_lift; eauto.
    + constructor; [|constructor]. eapply projected_lift; eauto.
Qed.

Lemma clone2d_loop_inv self group size x0 x1 off P rotation ontop elems :
  forall s r s',
    all_projected (size * 500 / (x1 - x0))%float off P group s ->
    forM_ elems (clone2d_elem self group [] size x0 x1 off P rotation ontop) s = (r, s') ->
    all_projected (size * 500 / (x1 - x0))%float off P group s'.
Proof.
  induction elems as [|a elems IH]; intros s r s' Hinv H; cbn [forM_] in H.
  - now injection H as _ <-.
  - apply bind_inv in H as [(u & s1 & Ha & H) | (e & Ha & _)].
    + eapply IH; [|exact H]. eapply clone2d_elem_inv; eauto.
    + eapply clone2d_elem_inv; eauto.
Qed.

Lemma Group_init_nil s :
  exists og,
    Group_init (VList []) s = (Ok (length (objs s)), mkState (objs s ++ [og]) (logs s)) /\
    cls og = CGroup /\ parts og = [].
Proof.
  unfold Group_init, SetPickable. cbn [py_iter].
  rewrite (bind_eq_Ok _ _ s (length (objs s))
             (mkState (objs s ++ [new_object CGroup]) (logs s)) eq_refl).
  rewrite bind_ret_l.
  assert (Hup : forall o f (k : unit -> M ref),
            (update (length (objs s)) f ;;; k tt)
              (mkState (objs s ++ [o]) (logs s)) =
            k tt (mkState (objs s ++ [f o]) (logs s))).
  { intros o f k. erewrite bind_eq_Ok.
    2: { apply update_eq. cbn. now apply list_lookup_middle. }
    cbn [objs logs]. f_equal. f_equal.
    replace (length (objs s)) with (length (objs s) + 0) at 1 by lia.
    now rewrite insert_app_r. }
  rewrite (Hup _ _ (fun _ => _)). rewrite (Hup _ _ (fun _ => _)).
  rewrite (Hup _ _ (fun _ => _)).
  change (py_iter (VList [])) with (ret (@nil pyval)). rewrite bind_ret_l.
  change (flatten []) with (@nil pyval). rewrite forM_nil, bind_ret_l.
  rewrite (Hup _ _ (fun _ => ret (length (objs s)))).
  eexists. split; [reflexivity|]. split; reflexivity.
Qed.

Lemma clone2d_explicit_spec (from_archive : string -> M (list pyval))
    (fuel : nat) (s : state) (self : ref) (o : pyobj) (a b : float)
    (size rotation : float) (ontop : bool) (scale : option float)
    (g : ref) (s' : state) :
  objs s !! self = Some o ->
  Assembly_clone2d from_archive fuel self (VList [VFloat a; VFloat b])
    size rotation ontop scale s = (Ok g, s') ->
  let px := fst (fst (position o)) in
  let py := snd (fst (position o)) in
  let x0 := (fst (xbounds o) - px)%float in
  let x1 := (snd (xbounds o) - px)%float in
  let y0 := (fst (ybounds o) - py)%float in
  all_projected (default size scale * 500 / (x1 - x0))%float (x0, y0)
    (VList [VFloat a; VFloat b]) g s'.
Proof.
  intros Hself H. unfold Assembly_clone2d in H.
  assert (exists sa,
    (match scale with
     | Some sc =>
         log LWarning "clone2d(scale=...) is deprecated, use clone2d(size=...) instead" ;;;
         ret sc
     | None => ret size
     end) s = (Ok (default size scale), sa) /\ objs sa = objs s) as (sa & Hsize & Hsa).
  { destruct scale; eexists; split; reflexivity. }
  rewrite (bind_eq_Ok _ _ _ _ _ Hsize) in H. rewrite <- Hsa in Hself. clear Hsize Hsa s.
  rewrite (bind_eq_Ok _ _ _ _ _ (deref_eq _ _ _ Hself)) in H.
  destruct (xbounds o) as [bx0 bx1], (ybounds o) as [by0 by1],
    (position o) as [[px py] pz]. cbn [fst snd].
  set (P := VList [VFloat a; VFloat b]) in *.
  set (x0 := (bx0 - px)%float) in *. set (x1 := (bx1 - px)%float) in *.
  set (y0 := (by0 - py)%float) in *. set (y1 := (by1 - py)%float) in *.
  rewrite (bind_eq_Ok (resolve_pos P x0 x1 y0 y1) _ sa ((x0, y0), P) sa eq_refl) in H.
  destruct (Group_init_nil sa) as (og & Hg & Hcls & Hparts).
  rewrite (bind_eq_Ok _ _ _ _ _ Hg) in H.
  set (group := length (objs sa)) in *.
  set (sb := mkState (objs sa ++ [og]) (logs sa)) in *.
  assert (Hinv : all_projected (default size scale * 500 / (x1 - x0))%float (x0, y0) P group sb).
  { exists og. split; [now apply list_lookup_middle|]. split; [exact Hcls|].
    rewrite Hparts. constructor. }
  apply bind_Ok in H as (elems & sc & Hflat & H).
  assert (Hinv' : all_projected (default size scale * 500 / (x1 - x0))%float (x0, y0) P group sc).
  { eapply all_projected_lift; [|exact Hinv]. apply (lift_prefix _).
    replace sc with (snd (recursive_unpack from_archive fuel self sb)) by now rewrite Hflat.
    apply recursive_unpack_prefix. }
  apply bind_Ok in H as (? & sd & Hloop & H).
  apply clone2d_loop_inv in Hloop; [|exact Hinv'].
  match type of H with
  | ?m sd = _ => assert (Hp : pres (same_parts_2d P) m) by pres_tac
  end.
  specialize (Hp sd). rewrite H in Hp. cbn [snd] in Hp.
  apply bind_Ok in H as (? & ? & _ & H). apply bind_Ok in H as (? & ? & _ & H).
  apply bind_Ok in H as (? & ? & _ & H). injection H as <- _.
  eapply all_projected_lift; eauto.
Qed.

(** * Two-level assemblies: the calls return *)

#[local] Instance same_struct_refl : Reflexive same_struct.
Proof. intros o. repeat split. Qed.

#[local] Instance same_struct_trans : Transitive same_struct.
Proof. intros a b c (H1 & H2 & H3 & H4) (K1 & K2 & K3 & K4). repeat split; congruence. Qed.

Lemma lift_below n s s' : n = length (objs s) -> below n s s' -> lift same_struct s s'.
Proof.
  intros -> Hb r o Hr. exists o. split; [|reflexivity].
  eapply below_lookup; [exact Hb | now apply lookup_lt_Some in Hr | exact Hr].
Qed.

Lemma points_ok_lift s s' x : lift same_struct s s' -> points_ok s x -> points_ok s' x.
Proof.
  intros HL (r & o & -> & Hr & Hc & Hact).
  destruct (HL r o Hr) as (o' & Hr' & Hc' & _ & Ha' & _).
  exists r, o'. repeat split; auto; [congruence|].
  intros a Ha. rewrite Ha' in Ha. destruct (Hact a Ha) as [->|[oa Hoa]]; [now left|].
  right. destruct (HL a oa Hoa) as (oa' & Hoa' & _). eauto.
Qed.

Lemma flat_child_lift s s' c : lift same_struct s s' -> flat_child s c -> flat_child s' c.
Proof.
  intros HL (r & o & -> & Hr & Hk).
  destruct (HL r o Hr) as (o' & Hr' & Hc' & _ & _ & Ho').
  exists r, o'. repeat split; auto. rewrite Hc', Ho'.
  destruct (cls o); auto.
  - eapply points_ok_lift; eauto.
  - eapply Forall_impl; [exact Hk|]. intros x. now apply points_ok_lift.
Qed.

Lemma two_level_lift s s' self : lift same_struct s s' -> two_level s self -> two_level s' self.
Proof.
  intros HL (o & Hr & Hc & Hk).
  destruct (HL self o Hr) as (o' & Hr' & Hc' & _ & _ & Ho').
  exists o'. repeat split; auto; [congruence|]. rewrite Ho'.
  eapply Forall_impl; [exact Hk|]. intros x. now apply flat_child_lift.
Qed.

Lemma Points_clone_returns s r :
  points_ok s (VObj r) -> exists x' s', Points_clone r s = (Ok x', s').
Proof.
  intros (r' & o & [= <-] & Hr & _ & Hact). unfold Points_clone.
  rewrite (bind_eq_Ok _ _ _ _ _ (deref_eq _ _ _ Hr)).
  destruct (actor o) as [[| | | |a| |]|] eqn:Ea; try (eexists _, _; reflexivity).
  destruct (Nat.eqb_spec a r) as [->|Hne].
  - rewrite (bind_eq_Ok (alloc o) _ s _ _ eq_refl).
    erewrite bind_eq_Ok; [eexists _, _; reflexivity|].
    apply update_eq. cbn. now apply list_lookup_middle.
  - destruct (Hact a eq_refl) as [->|[oa Hoa]]; [contradiction|].
    rewrite (bind_eq_Ok _ _ _ _ _ (deref_eq _ _ _ Hoa)).
    rewrite (bind_eq_Ok (alloc oa) _ s _ _ eq_refl). eexists _, _. reflexivity.
Qed.

Lemma clone_shift_returns from_archive fuel apos s x :
  points_ok s x ->
  exists y s', (c <- clone from_archive (S fuel) x ;; shift c apos) s = (Ok y, s').
Proof.
  intros Hx. pose proof Hx as (r & o & -> & Hr & Hc & _).
  destruct (Points_clone_returns s r Hx) as (x' & s1 & Hpc).
  assert (Hcl : clone from_archive (S fuel) (VObj r) s = (Ok (VObj x'), s1)).
  { cbn [clone]. rewrite (bind_eq_Ok _ _ _ _ _ (deref_eq _ _ _ Hr)), Hc.
    now rewrite (bind_eq_Ok _ _ _ _ _ Hpc). }
  rewrite (bind_eq_Ok _ _ _ _ _ Hcl).
  apply Points_clone_spec in Hpc as (_ & o' & _ & _ & Ho' & _).
  cbn [shift]. rewrite (bind_eq_Ok _ _ _ _ _ (update_eq _ _ _ _ Ho')).
  eexists _, _. reflexivity.
Qed.

Lemma clone_shift_loop_returns from_archive fuel apos l :
  forall s, Forall (points_ok s) l ->
    exists ys s',
      mapM (fun x => c <- clone from_archive (S fuel) x ;; shift c apos) l s = (Ok ys, s').
Proof.
  induction l as [|x l IH]; intros s Hall; [eexists _, _; reflexivity|].
  inversion Hall as [|? ? Hx Hl]; subst. cbn [mapM].
  destruct (clone_shift_returns from_archive fuel apos s x Hx) as (y & s1 & Hy).
  rewrite (bind_eq_Ok _ _ _ _ _ Hy).
  destruct (IH s1) as (ys & s2 & Hys).
  { eapply Forall_impl; [exact Hl|]. intros z. apply points_ok_lift.
    apply (lift_below (length (objs s))); [reflexivity|].
    replace s1 with (snd ((c <- clone from_archive (S fuel) x ;; shift c apos) s))
      by now rewrite Hy.
    eapply safe_below; [|reflexivity].
    eapply safe_bind; [apply clone_safe|]. intros c Hc. now apply shift_safe. }
  rewrite (bind_eq_Ok _ _ _ _ _ Hys). eexists _, _. reflexivity.
Qed.

Lemma genflatten_elem_returns from_archive fuel s e :
  flat_child s e ->
  exists ys s', genflatten_elem from_archive (S fuel) e s = (Ok ys, s').
Proof.
  intros (r & o & -> & Hr & Hk). unfold genflatten_elem.
  rewrite (bind_eq_Ok get_state _ s s s eq_refl).
  unfold is_class, class_of. rewrite Hr. cbn [fmap option_fmap option_map].
  destruct (cls o); try (eexists _, _; reflexivity); try contradiction.
  cbn [class_eqb]. rewrite (bind_eq_Ok _ _ _ _ _ (deref_eq _ _ _ Hr)).
  destruct (float_truthy (np_sum (position o))).
  - now apply clone_shift_loop_returns.
  - rewrite mapM_ret. eexists _, _. reflexivity.
Qed.

Lemma genflatten_loop_returns from_archive fuel l :
  forall s, Forall (flat_child s) l ->
    exists yss s', mapM (genflatten_elem from_archive (S fuel)) l s = (Ok yss, s').
Proof.
  induction l as [|e l IH]; intros s Hall; [eexists _, _; reflexivity|].
  inversion Hall as [|? ? He Hl]; subst. cbn [mapM].
  destruct (genflatten_elem_returns from_archive fuel s e He) as (ys & s1 & Hys).
  rewrite (bind_eq_Ok _ _ _ _ _ Hys).
  destruct (IH s1) as (yss & s2 & Hyss).
  { eapply Forall_impl; [exact Hl|]. intros z. apply flat_child_lift.
    apply (lift_below (length (objs s))); [reflexivity|].
    replace s1 with (snd (genflatten_elem from_archive (S fuel) e s)) by now rewrite Hys.
    eapply safe_below; [apply genflatten_elem_safe | reflexivity]. }
  rewrite (bind_eq_Ok _ _ _ _ _ Hyss). eexists _, _. reflexivity.
Qed.

Lemma recursive_unpack_returns from_archive fuel s self :
  two_level s self ->
  exists elems s', recursive_unpack from_archive (S fuel) self s = (Ok elems, s').
Proof.
  intros (o & Hself & Hcls & Hall). unfold recursive_unpack, genflatten.
  rewrite (bind_eq_Ok get_state _ s s s eq_refl).
  unfold is_class, class_of. rewrite Hself.
  cbn [fmap option_fmap option_map]. rewrite Hcls. cbn [class_eqb].
  assert (Hl : (u <- Assembly_unpack self VNone ;; py_iter u) s = (Ok (objects o), s)).
  { unfold Assembly_unpack.
    assert (Hu : (o <- deref self ;; ret (VList (objects o))) s = (Ok (VList (objects o)), s))
      by now rewrite (bind_eq_Ok _ _ _ _ _ (deref_eq _ _ _ Hself)).
    now rewrite (bind_eq_Ok _ _ _ _ _ Hu). }
  rewrite (bind_eq_Ok _ _ _ _ _ Hl).
  destruct (genflatten_loop_returns from_archive fuel (objects o) s Hall) as (yss & s' & Hy).
  rewrite (bind_eq_Ok _ _ _ _ _ Hy). eexists _, _. reflexivity.
Qed.

Lemma flat_child_alive s c : flat_child s c -> alive s c.
Proof. intros (r & o & -> & Hr & _). now exists r, o. Qed.


Ltac solve_points_ok :=
  eexists _, _; split; [reflexivity|]; split; [reflexivity|]; split; [reflexivity|];
  intros ? [= <-]; right; eexists; reflexivity.

Ltac solve_flat_child :=
  eexists _, _; split; [reflexivity|]; split; [reflexivity|];
  first [ exact I | solve_points_ok | repeat (constructor; [solve_points_ok|]); constructor ].

Lemma scene_nested_two_level : two_level scene_nested 8.
Proof.
  eexists. split; [reflexivity|]. split; [reflexivity|].
  repeat (constructor; [solve_flat_child|]). constructor.
Qed.


(** On that scene: the two objects of the moved inner assembly come back as
    new objects 10 and 12 (9 and 11 are their actors), translated; the
    object of the assembly at the origin and the direct child come back as
    they are. *)
Example recursive_unpack_nested :
  recursive_unpack no_archive 3 8 scene_nested = (Ok scene_nested_flat, scene_nested_after) /\
  scene_nested_flat = [VObj 10; VObj 12; VObj 5; VObj 1] /\
  length (objs scene_nested) = 9 /\
  position (the_object scene_nested_after 10) = (1, 2, 3)%float.
Proof. repeat split. Qed.

Lemma yields_capable s s' c ys :
  objs s `prefix_of` objs s' -> flat_child s c -> yields_of s s' c ys ->
  Forall (capable s') ys.
Proof.
  intros Hpre (r & o & -> & Hr & Hk) Hy. unfold yields_of in Hy. rewrite Hr in Hy.
  assert (Hup : forall x, points_ok s x -> capable s' x).
  { intros x (rx & ox & -> & Hx & Hc & _). exists rx, ox. repeat split; auto.
    destruct Hpre as [k ->]. now apply lookup_app_l_Some. }
  assert (Hself : forall k, cls o = k -> k = CPoints \/ k = CGroup -> capable s' (VObj r)).
  { intros k Hc Hk'. exists r, o. repeat split; [|congruence].
    destruct Hpre as [l ->]. now apply lookup_app_l_Some. }
  destruct (cls o) eqn:Hc; try contradiction.
  - subst ys. repeat constructor. eapply Hself; eauto.
  - destruct (float_truthy (np_sum (position o))).
    + clear Hself. induction Hy as [|x c l ys Hxc Hrest IH]; [constructor|].
      inversion Hk as [|? ? Hx Hl]; subst. constructor; [|now apply IH].
      destruct Hxc as (rx & rc & ox & oc & -> & -> & Hox & Hoc & _ & _ & Hcls & _).
      exists rc, oc. repeat split; auto. left. rewrite Hcls.
      destruct (Hup _ Hx) as (rx' & ox' & [= <-] & Hox' & _).
      destruct Hx as (rx' & ox'' & [= <-] & Hs & Hp & _).
      assert (objs s' !! rx = Some ox'') as Hs'.
      { destruct Hpre as [k ->]. now apply lookup_app_l_Some. }
      congruence.
    + subst ys. eapply Forall_impl; [exact Hk | exact Hup].
  - subst ys. repeat constructor. eapply Hself; eauto.
Qed.

Lemma capable_lift s s' e : lift same_cls s s' -> capable s e -> capable s' e.
Proof.
  intros HL (r & o & -> & Hr & Hc). destruct (HL r o Hr) as (o' & Hr' & Hc' & _).
  exists r, o'. repeat split; auto. rewrite Hc'. exact Hc.
Qed.

Lemma pickable_loop_returns v (rec : ref -> bool -> M ref) elems :
  forall s, Forall (capable s) elems ->
    exists s', forM_ elems (elem_pickable rec v) s = (Ok tt, s').
Proof.
  induction elems as [|e elems IH]; intros s Hall; [eexists; reflexivity|].
  inversion Hall as [|? ? He Hl]; subst. destruct He as (r & o & -> & Hr & Hc).
  rewrite forM_cons.
  assert (exists s1, elem_pickable rec v (VObj r) s = (Ok tt, s1) /\ lift same_cls s s1)
    as (s1 & H1 & HL).
  { destruct (update_spec r (set_pickable v) s o Hr) as (s1 & Hu & _ & HL).
    exists s1. split; [|apply HL; [typeclasses eauto | now split]].
    unfold elem_pickable. rewrite (bind_eq_Ok _ _ _ _ _ (deref_eq _ _ _ Hr)).
    unfold Points_pickable, Group_pickable, SetPickable.
    destruct Hc as [-> | ->]; rewrite !bind_assoc, (bind_eq_Ok _ _ _ _ _ Hu);
      reflexivity. }
  rewrite (bind_eq_Ok _ _ _ _ _ H1). apply IH.
  eapply Forall_impl; [exact Hl|]. intros x. now apply capable_lift.
Qed.

Lemma recursive_unpack_capable from_archive fuel self s elems s1 :
  two_level s self ->
  recursive_unpack from_archive fuel self s = (Ok elems, s1) ->
  Forall (capable s1) elems.
Proof.
  intros (o0 & Ho0 & Hc0 & Hch) Hflat.
  assert (Hpre : objs s `prefix_of` objs s1).
  { replace s1 with (snd (recursive_unpack from_archive fuel self s))
      by now rewrite Hflat. apply recursive_unpack_prefix. }
  destruct (recursive_unpack_spec from_archive fuel s self o0 elems s1 Ho0 Hc0)
    as (yss & -> & Hy); [|exact Hflat|].
  { eapply Forall_impl; [exact Hch | apply flat_child_alive]. }
  apply Forall_concat. clear Hflat.
  induction Hy as [|c ys l yss Hcy Hrest IH]; [constructor|].
  inversion Hch as [|? ? Hc Hl]; subst. constructor; [|now apply IH].
  eapply yields_capable; eauto.
Qed.

Lemma Assembly_pickable_returns from_archive fuel self v s :
  two_level s self ->
  exists s', Assembly_pickable from_archive (S (S fuel)) self v s = (Ok self, s').
Proof.
  intros Htwo. pose proof Htwo as (o & Hself & _).
  cbn [Assembly_pickable].
  destruct (update_spec self (set_pickable v) s o Hself) as (s0 & Hu & Hself0 & HL).
  unfold SetPickable at 1. rewrite (bind_eq_Ok _ _ _ _ _ Hu).
  apply (two_level_lift s s0) in Htwo; [|apply HL; [typeclasses eauto | now repeat split]].
  destruct (recursive_unpack_returns from_archive fuel s0 self Htwo) as (elems & s1 & Hflat).
  rewrite (bind_eq_Ok _ _ _ _ _ Hflat).
  pose proof (recursive_unpack_capable _ _ _ _ _ _ Htwo Hflat) as Hcap.
  destruct (pickable_loop_returns v (Assembly_pickable from_archive (S fuel)) elems s1 Hcap)
    as (s2 & Hloop).
  rewrite (bind_eq_Ok _ _ _ _ _ Hloop). eexists. reflexivity.
Qed.

(** C7: [Assembly.pickable(False)] on [Assembly(inner, other, A)], where
    [inner = Assembly(A, B)] has been moved to (1, 2, 3).  The call returns
    the assembly, whose own flag is set; but [B], an element of the
    displaced [inner], and the actor of [B] are exactly what they were,
    still pickable, and so is [inner]: the flag went to the clones that the
    flattening made for the call.  A flattening of the assembly after the
    call still yields an element that is pickable. *)
Theorem pickable_misses_displaced_child :
  objects (the_object scene_nested 8) = [VObj 6; VObj 7; VObj 1] /\
  objects (the_object scene_nested 6) = [VObj 1; VObj 3] /\
  position (the_object scene_nested 6) = (1, 2, 3)%float /\
  exists s',
    Assembly_pickable no_archive 4 8 false scene_nested = (Ok 8, s') /\
    pickable_is s' false (VObj 8) /\
    objs s' !! 3 = objs scene_nested !! 3 /\ pickable_is s' true (VObj 3) /\
    objs s' !! 2 = objs scene_nested !! 2 /\ pickable_is s' true (VObj 2) /\
    objs s' !! 6 = objs scene_nested !! 6 /\ pickable_is s' true (VObj 6) /\
    exists elems s'',
      recursive_unpack no_archive 3 8 s' = (Ok elems, s'') /\
      ~ Forall (pickable_is s'' false) elems.
Proof.
  split; [reflexivity|]. split; [reflexivity|]. split; [reflexivity|].
  eexists. split; [vm_compute; reflexivity|].
  split; [eexists _, _; repeat split; reflexivity|].
  split; [reflexivity|]. split; [eexists _, _; repeat split; reflexivity|].
  split; [reflexivity|]. split; [eexists _, _; repeat split; reflexivity|].
  split; [reflexivity|]. split; [eexists _, _; repeat split; reflexivity|].
  eexists _, _. split; [vm_compute; reflexivity|].
  intros Hall. apply Forall_cons in Hall as [_ Hall].
  apply Forall_cons in Hall as [(r & x & E & Hx & Hflag) _].
  injection E as <-. vm_compute in Hx. injection Hx as <-. discriminate.
Qed.

Lemma update_returns r f s :
  is_Some (objs s !! r) ->
  exists s1, update r f s = (Ok tt, s1) /\
    forall r', is_Some (objs s !! r') -> is_Some (objs s1 !! r').
Proof.
  intros [o Ho]. eexists. split; [exact (update_eq _ _ _ _ Ho)|].
  intros r' Hr'. cbn. apply lookup_lt_is_Some. rewrite length_insert.
  now apply lookup_lt_is_Some.
Qed.

Lemma rotate_returns b rotation s :
  is_Some (objs s !! b) ->
  exists s1, (if float_truthy rotation then rotate_z b rotation else ret tt) s = (Ok tt, s1) /\
    forall r', is_Some (objs s !! r') -> is_Some (objs s1 !! r').
Proof.
  intros Hb. destruct (float_truthy rotation).
  - now apply update_returns.
  - exists s. split; [reflexivity | auto].
Qed.

Lemma Points_clone2d_returns x sz off s :
  is_Some (objs s !! x) ->
  exists a2d s1, Points_clone2d x sz off s = (Ok a2d, s1) /\ is_Some (objs s1 !! a2d).
Proof.
  intros [o Ho]. unfold Points_clone2d.
  rewrite (bind_eq_Ok _ _ _ _ _ (deref_eq _ _ _ Ho)).
  eexists _, _. split; [reflexivity|]. cbn. eexists. now apply list_lookup_middle.
Qed.

Lemma project_elem_returns P r size x0 x1 off rotation ontop s :
  is_Some (objs s !! r) ->
  exists a2d s1, project_elem r size x0 x1 off P rotation ontop s = (Ok a2d, s1).
Proof.
  intros Hr. pose proof Hr as [o Ho]. unfold project_elem.
  rewrite (bind_eq_Ok _ _ _ _ _ (deref_eq _ _ _ Ho)).
  assert (exists a s2,
    (if (representation o =? 1)%Z
     then b <- Points_boundaries r ;;
          (if float_truthy rotation then rotate_z b rotation else ret tt) ;;;
          Points_clone2d b (size * 500 / (x1 - x0))%float off
     else (if float_truthy rotation then rotate_z r rotation else ret tt) ;;;
          Points_clone2d r (size * 500 / (x1 - x0))%float off) s = (Ok a, s2) /\
    is_Some (objs s2 !! a)) as (a & s2 & Hmk & Ha).
  { destruct (representation o =? 1)%Z.
    - assert (Hb : Points_boundaries r s =
                (Ok (length (objs s)), mkState (objs s ++ [o]) (logs s))).
      { unfold Points_boundaries. now rewrite (bind_eq_Ok _ _ _ _ _ (deref_eq _ _ _ Ho)). }
      rewrite (bind_eq_Ok _ _ _ _ _ Hb).
      destruct (rotate_returns (length (objs s)) rotation
                  (mkState (objs s ++ [o]) (logs s))) as (s1 & Hrot & Hkeep).
      { cbn. eexists. now apply list_lookup_middle. }
      rewrite (bind_eq_Ok _ _ _ _ _ Hrot).
      apply Points_clone2d_returns, Hkeep. cbn. eexists. now apply list_lookup_middle.
    - destruct (rotate_returns r rotation s Hr) as (s1 & Hrot & Hkeep).
      rewrite (bind_eq_Ok _ _ _ _ _ Hrot). apply Points_clone2d_returns, Hkeep, Hr. }
  rewrite (bind_eq_Ok _ _ _ _ _ Hmk). unfold place2d.
  destruct (update_returns a (set_pos2d P) s2 Ha) as (s3 & Hu1 & Hkeep).
  destruct (update_returns a (set_ontop ontop) s3 (Hkeep a Ha)) as (s4 & Hu2 & _).
  rewrite !bind_assoc, (bind_eq_Ok _ _ _ _ _ Hu1), (bind_eq_Ok _ _ _ _ _ Hu2).
  eexists _, _. reflexivity.
Qed.

Lemma clone2d_elem_pres_cls self group size x0 x1 off P rotation ontop a :
  pres same_cls (clone2d_elem self group [] size x0 x1 off P rotation ontop a).
Proof.
  unfold clone2d_elem, project_elem, Points_boundaries, rotate_z, Points_clone2d, place2d,
    Group_iadd.
  cbn [py_in existsb]. pres_tac; apply AddPart_pres_cls.
Qed.

Lemma clone2d_elem_returns self group size x0 x1 off P rotation ontop a s og :
  objs s !! group = Some og -> capable s a ->
  exists s', clone2d_elem self group [] size x0 x1 off P rotation ontop a s = (Ok tt, s').
Proof.
  intros Hg (r & o & -> & Hr & Hc). unfold clone2d_elem. cbn [py_in existsb].
  rewrite (bind_eq_Ok get_state _ s s s eq_refl).
  unfold is_class, class_of. rewrite Hr. cbn [fmap option_fmap option_map].
  destruct Hc as [Hc | Hc]; rewrite Hc; cbn [class_eqb negb]; [|eexists; reflexivity].
  rewrite (bind_eq_Ok _ _ _ _ _ (attr_npoints_eq _ _ _ Hr)).
  destruct (npoints o =? 0)%Z; [eexists; reflexivity|].
  destruct (project_elem_returns P r size x0 x1 off rotation ontop s)
    as (a2d & s1 & Hmk); [eauto|].
  rewrite (bind_eq_Ok _ _ _ _ _ Hmk).
  pose proof (project_elem_pres P r size x0 x1 off rotation ontop s) as HL.
  rewrite Hmk in HL. cbn [snd] in HL. destruct (HL group og Hg) as (og1 & Hg1 & _).
  apply project_elem_Ok in Hmk as [(op & Hop & Hcp) _].
  rewrite (bind_eq_Ok _ _ _ _ _ (Group_iadd_one _ _ _ _ _ Hg1 Hop Hcp)).
  eexists. reflexivity.
Qed.

Lemma clone2d_loop_returns self group size x0 x1 off P rotation ontop elems :
  forall s, is_Some (objs s !! group) -> Forall (capable s) elems ->
    exists s',
      forM_ elems (clone2d_elem self group [] size x0 x1 off P rotation ontop) s = (Ok tt, s') /\
      lift same_cls s s'.
Proof.
  induction elems as [|a elems IH]; intros s Hg Hall.
  - exists s. split; [reflexivity | apply (lift_refl _)].
  - inversion Hall as [|? ? Ha Hl]; subst. destruct Hg as [og Hg]. rewrite forM_cons.
    destruct (clone2d_elem_returns self group size x0 x1 off P rotation ontop a s og Hg Ha)
      as (s1 & H1).
    pose proof (clone2d_elem_pres_cls self group size x0 x1 off P rotation ontop a s) as HL.
    rewrite H1 in HL. cbn [snd] in HL. rewrite (bind_eq_Ok _ _ _ _ _ H1).
    destruct (IH s1) as (s2 & H2 & HL2).
    + destruct (HL group og Hg) as (og1 & Hg1 & _). eauto.
    + eapply Forall_impl; [exact Hl|]. intros x. now apply capable_lift.
    + exists s2. split; [exact H2|]. eapply (lift_trans _); eauto.
Qed.

Lemma clone2d_returns from_archive fuel s self a b size rotation ontop scale :
  two_level s self ->
  exists g s',
    Assembly_clone2d from_archive (S fuel) self (VList [VFloat a; VFloat b])
      size rotation ontop scale s = (Ok g, s').
Proof.
  intros Htwo. unfold Assembly_clone2d.
  assert (exists sa,
    (match scale with
     | Some sc =>
         log LWarning "clone2d(scale=...) is deprecated, use clone2d(size=...) instead" ;;;
         ret sc
     | None => ret size
     end) s = (Ok (default size scale), sa) /\ objs sa = objs s) as (sa & Hsize & Hsa).
  { destruct scale; eexists; split; reflexivity. }
  rewrite (bind_eq_Ok _ _ _ _ _ Hsize).
  assert (Htwo' : two_level sa self).
  { destruct Htwo as (o & Ho & Hrest). unfold two_level, flat_child, points_ok in *.
    rewrite Hsa. eauto. }
  clear Htwo Hsize Hsa s. pose proof Htwo' as (o & Hself & _).
  rewrite (bind_eq_Ok _ _ _ _ _ (deref_eq _ _ _ Hself)).
  destruct (xbounds o) as [bx0 bx1], (ybounds o) as [by0 by1],
    (position o) as [[px py] pz].
  set (P := VList [VFloat a; VFloat b]).
  set (x0 := (bx0 - px)%float). set (x1 := (bx1 - px)%float).
  set (y0 := (by0 - py)%float). set (y1 := (by1 - py)%float).
  rewrite (bind_eq_Ok (resolve_pos P x0 x1 y0 y1) _ sa ((x0, y0), P) sa eq_refl).
  destruct (Group_init_nil sa) as (og & Hg & Hcls & Hparts).
  rewrite (bind_eq_Ok _ _ _ _ _ Hg).
  set (group := length (objs sa)) in *.
  set (sb := mkState (objs sa ++ [og]) (logs sa)) in *.
  assert (Hpre : objs sa `prefix_of` objs sb) by now exists [og].
  apply (two_level_lift sa sb) in Htwo'; [|now apply (lift_prefix _)].
  destruct (recursive_unpack_returns from_archive fuel sb self Htwo') as (elems & sc & Hflat).
  rewrite (bind_eq_Ok _ _ _ _ _ Hflat).
  pose proof (recursive_unpack_capable _ _ _ _ _ _ Htwo' Hflat) as Hcap.
  assert (Hpre2 : objs sb `prefix_of` objs sc).
  { replace sc with (snd (recursive_unpack from_archive (S fuel) self sb))
      by now rewrite Hflat. apply recursive_unpack_prefix. }
  assert (Hgc : is_Some (objs sc !! group)).
  { exists og. destruct Hpre2 as [k ->]. apply lookup_app_l_Some.
    now apply list_lookup_middle. }
  assert (Hselfc : is_Some (objs sc !! self)).
  { exists o. destruct Hpre2 as [k ->]. apply lookup_app_l_Some.
    cbn. now apply lookup_app_l_Some. }
  destruct (clone2d_loop_returns self group (default size scale) x0 x1 (x0, y0) P rotation
              ontop elems sc Hgc Hcap) as (sd & Hloop & HL).
  rewrite (bind_eq_Ok _ _ _ _ _ Hloop).
  destruct Hselfc as [oc Hoc]. destruct (HL self oc Hoc) as (od & Hod & _).
  rewrite (bind_eq_Ok _ _ _ _ _ (deref_eq _ _ _ Hod)).
  destruct Hgc as [ogc Hogc]. destruct (HL group ogc Hogc) as (ogd & Hogd & _).
  destruct (update_returns group
              (fun g => set_extra (copy_attrs histogram_attrs (extra od) (extra g)) g) sd)
    as (se & Hu1 & Hkeep); [eauto|].
  destruct (update_returns group (set_name (name od)) se) as (sf & Hu2 & _);
    [apply Hkeep; eauto|].
  rewrite (bind_eq_Ok _ _ _ _ _ Hu1), (bind_eq_Ok _ _ _ _ _ Hu2).
  eexists _, _. reflexivity.
Qed.

(** C5 (amended): [clone2d] takes the bounds of the assembly relative to its
    own position.  With an explicit position [[a, b]], every 2D copy in the
    returned group was made with the scale factor
    [size * 500 / ((x1 - px) - (x0 - px))] and the offset
    [(x0 - px, y0 - py)], the lower-left bound relative to the position
    [(px, py, _)] of the assembly, and was placed at [[a, b]] itself.
    And [clone2d] does return, at any depth of calls but zero, on an
    assembly of point sets, groups and assemblies of point sets. *)
Theorem clone2d_explicit_position (from_archive : string -> M (list pyval))
    (s : state) (self : ref) (o : pyobj) (a b : float)
    (size rotation : float) (ontop : bool) (scale : option float) :
  objs s !! self = Some o ->
  let px := fst (fst (position o)) in
  let py := snd (fst (position o)) in
  let x0 := (fst (xbounds o) - px)%float in
  let x1 := (snd (xbounds o) - px)%float in
  let y0 := (fst (ybounds o) - py)%float in
  (forall fuel g s',
     Assembly_clone2d from_archive fuel self (VList [VFloat a; VFloat b])
       size rotation ontop scale s = (Ok g, s') ->
     all_projected (default size scale * 500 / (x1 - x0))%float (x0, y0)
       (VList [VFloat a; VFloat b]) g s') /\
  (two_level s self ->
   forall fuel, exists g s',
     Assembly_clone2d from_archive (S fuel) self (VList [VFloat a; VFloat b])
       size rotation ontop scale s = (Ok g, s')).
Proof.
  intros Hself. cbv zeta. split.
  - intros fuel g s' H.
    exact (clone2d_explicit_spec from_archive fuel s self o a b size rotation ontop scale
             g s' Hself H).
  - intros Htwo fuel. now apply clone2d_returns.
Qed.

Lemma scene_moved_two_level : two_level scene_moved 6.
Proof.
  eexists. split; [reflexivity|]. split; [reflexivity|].
  repeat (constructor; [solve_flat_child|]). constructor.
Qed.

Lemma clone2d_explicit_position_witness :
  all_projected 100%float (-3, -4)%float (VList [VFloat 0.5; VFloat 0.5]) 7
    (snd (Assembly_clone2d no_archive 4 6 (VList [VFloat 0.5; VFloat 0.5])
            2 0 false None scene_moved)) /\
  (exists g s',
     Assembly_clone2d no_archive 4 6 (VList [VFloat 0.5; VFloat 0.5])
       2 0 false None scene_moved = (Ok g, s')).
Proof.
  destruct (clone2d_explicit_position no_archive scene_moved 6 (the_object scene_moved 6)
              0.5 0.5 2 0 false None eq_refl) as [Hspec Hreturns].
  split.
  - apply (Hspec 4 7 _). vm_compute. reflexivity.
  - apply (Hreturns scene_moved_two_level 3).
Defined.

(** The scenario of the specification, for an assembly at the origin with
    the bounds (0, 10) x (0, 5): both copies were made with the scale factor
    100 and the lower-left bound as offset, and sit at [0.5, 0.5]. *)
Example clone2d_at_origin :
  let s' := snd (Assembly_clone2d no_archive 4 6 (VList [VFloat 0.5; VFloat 0.5])
                   2 0 false None scene_twice) in
  map (fun p => (proj_size <$> proj (the_object s' p),
                 proj_offset <$> proj (the_object s' p),
                 pos2d (the_object s' p))) (parts (the_object s' 7))
  = [(Some 100, Some (0, 0), VList [VFloat 0.5; VFloat 0.5]);
     (Some 100, Some (0, 0), VList [VFloat 0.5; VFloat 0.5])]%float.
Proof. vm_compute. reflexivity. Qed.


(** * Further properties of the module *)

(** ** Lookup by index *)

(** [A[i]] and [A.unpack(i)] for an integer [i] are the same call: with [n]
    objects, an index between [-n] and [n - 1] gives the object at
    [i mod n], counting from the end when [i] is negative, and any other
    index raises IndexError; the store is left as it was. *)
Theorem lookup_by_index (s : state) (self : ref) (o : pyobj) (i : Z) :
  objs s !! self = Some o ->
  Assembly_unpack self (VInt i) s = Assembly_getitem self (VInt i) s /\
  ((- Z.of_nat (length (objects o)) <= i < Z.of_nat (length (objects o)))%Z ->
   exists m, objects o !! Z.to_nat (i mod Z.of_nat (length (objects o))) = Some m /\
     Assembly_getitem self (VInt i) s = (Ok m, s)) /\
  ((i < - Z.of_nat (length (objects o)) \/ Z.of_nat (length (objects o)) <= i)%Z ->
   Assembly_getitem self (VInt i) s = (Raise IndexError, s)).
Proof.
  intros Hself. unfold Assembly_getitem, Assembly_unpack.
  rewrite !(bind_eq_Ok _ _ _ _ _ (deref_eq _ _ _ Hself)).
  split; [reflexivity|]. unfold py_index.
  set (n := Z.of_nat (length (objects o))). split.
  - intros Hi. destruct (i <? 0)%Z eqn:E.
    + apply Z.ltb_lt in E.
      assert (Hj : (i + n <? 0)%Z = false) by (apply Z.ltb_ge; lia). rewrite Hj.
      assert (Hmod : (i mod n = i + n)%Z).
      { rewrite <- (Z.mod_add i 1 n) by lia. rewrite Z.mul_1_l. apply Z.mod_small. lia. }
      rewrite Hmod.
      destruct (lookup_lt_is_Some_2 (objects o) (Z.to_nat (i + n))) as [m Hm]; [lia|].
      exists m. rewrite Hm. auto.
    + rewrite E. apply Z.ltb_ge in E. rewrite Z.mod_small by lia.
      destruct (lookup_lt_is_Some_2 (objects o) (Z.to_nat i)) as [m Hm]; [lia|].
      exists m. rewrite Hm. auto.
  - intros Hi. destruct (i <? 0)%Z eqn:E.
    + apply Z.ltb_lt in E. destruct (i + n <? 0)%Z eqn:E'; [reflexivity|].
      apply Z.ltb_ge in E'. lia.
    + rewrite E. apply Z.ltb_ge in E.
      rewrite (lookup_ge_None_2 (objects o) (Z.to_nat i)) by lia. reflexivity.
Qed.

Lemma lookup_by_index_witness :
  Assembly_unpack 6 (VInt (-1)) scene_abc = Assembly_getitem 6 (VInt (-1)) scene_abc /\
  Assembly_getitem 6 (VInt (-1)) scene_abc = (Ok (VObj 5), scene_abc) /\
  Assembly_getitem 6 (VInt 3) scene_abc = (Raise IndexError, scene_abc).
Proof.
  assert (H6 : objs scene_abc !! 6 = Some (the_object scene_abc 6)) by reflexivity.
  destruct (lookup_by_index scene_abc 6 _ (-1) H6) as (Heq & Hin & _).
  destruct (lookup_by_index scene_abc 6 _ 3 H6) as (_ & _ & Hout).
  split; [exact Heq|]. split.
  - destruct Hin as (m & Hm & Hget); [vm_compute; split; [discriminate|reflexivity]|].
    vm_compute in Hm. injection Hm as <-. exact Hget.
  - apply Hout. right. vm_compute. discriminate.
Defined.

(** ** The placement keywords of [clone2d] *)

(** [resolve_pos] on a string, branch by branch. *)
Lemma resolve_pos_string (p : string) (x0 x1 y0 y1 : float) (s : state) :
  resolve_pos (VStr p) x0 x1 y0 y1 s =
    (let c := str_contains "cent" p in
     let t := str_contains "top" p in
     let b := str_contains "bottom" p in
     let l := str_contains "left" p in
     let r := str_contains "right" p in
     if c then
       Ok ((if l then x0 else if r then x1 else (x0 + x1) / 2,
            if b then y0 else if t then y1 else (y0 + y1) / 2)%float,
           if b then VList [VInt 0; VFloat (-1 + padding)]
           else if t then VList [VInt 0; VFloat (1 - padding)]
           else if l then VList [VFloat (-1 + padding); VInt 0]
           else if r then VList [VFloat (1 - padding); VInt 0]
           else VList [VFloat 0; VFloat 0])
     else if t || b then
       if r || l then
         Ok ((if r then x1 else x0, if t then y1 else y0),
             VList [VFloat (if r then 1 - padding else -1 + padding);
                    VFloat (if t then 1 - padding else -1 + padding)])
       else Raise (incomplete_position (VStr p))
     else Ok ((x0, y0), VStr p),
     s).
Proof.
  unfold resolve_pos. cbn [py_contains]. rewrite !bind_ret_l.
  destruct (str_contains "cent" p).
  - rewrite !bind_ret_l.
    destruct (str_contains "right" p); rewrite !bind_ret_l;
      destruct (str_contains "left" p); rewrite !bind_ret_l;
      destruct (str_contains "top" p); rewrite !bind_ret_l;
      destruct (str_contains "bottom" p); reflexivity.
  - rewrite !bind_ret_l.
    destruct (str_contains "top" p); rewrite !bind_ret_l.
    + destruct (str_contains "right" p); [destruct (str_contains "bottom" p); reflexivity|].
      rewrite !bind_ret_l.
      destruct (str_contains "left" p); destruct (str_contains "bottom" p); reflexivity.
    + destruct (str_contains "bottom" p); [|reflexivity].
      rewrite !bind_ret_l. destruct (str_contains "right" p); [reflexivity|].
      rewrite !bind_ret_l. destruct (str_contains "left" p); reflexivity.
Qed.

(** A keyword with "cent" never fails: the offset snaps to every edge the
    keyword names (left over right, bottom over top) and is the midpoint of
    the bounds on an axis with no edge named, while the position is nudged
    toward one edge only: bottom, else top, else left, else right. *)
Theorem centered_placement (p : string) (x0 x1 y0 y1 : float) (s : state) :
  str_contains "cent" p = true ->
  resolve_pos (VStr p) x0 x1 y0 y1 s =
    (Ok ((if str_contains "left" p then x0
          else if str_contains "right" p then x1 else (x0 + x1) / 2,
          if str_contains "bottom" p then y0
          else if str_contains "top" p then y1 else (y0 + y1) / 2)%float,
         if str_contains "bottom" p then VList [VInt 0; VFloat (-1 + padding)]
         else if str_contains "top" p then VList [VInt 0; VFloat (1 - padding)]
         else if str_contains "left" p then VList [VFloat (-1 + padding); VInt 0]
         else if str_contains "right" p then VList [VFloat (1 - padding); VInt 0]
         else VList [VFloat 0; VFloat 0]), s).
Proof. intros Hc. rewrite resolve_pos_string. cbv zeta. now rewrite Hc. Qed.

Lemma centered_placement_witness :
  resolve_pos (VStr "center") 0 10 0 5 scene =
    (Ok ((5, 2.5)%float, VList [VFloat 0; VFloat 0]), scene) /\
  resolve_pos (VStr "top-center-right") 0 10 0 5 scene =
    (Ok ((10, 5)%float, VList [VInt 0; VFloat (1 - padding)]), scene).
Proof.
  split.
  - exact (centered_placement "center" 0 10 0 5 scene eq_refl).
  - exact (centered_placement "top-center-right" 0 10 0 5 scene eq_refl).
Defined.

(** Without "cent", a keyword that names a vertical and a horizontal edge
    anchors the matching corner of the bounds at the matching corner of the
    view, inset by the padding; "right" wins over "left" and "top" over
    "bottom". *)
Theorem corner_placement (p : string) (x0 x1 y0 y1 : float) (s : state) :
  str_contains "cent" p = false ->
  str_contains "top" p || str_contains "bottom" p = true ->
  str_contains "right" p || str_contains "left" p = true ->
  resolve_pos (VStr p) x0 x1 y0 y1 s =
    (Ok ((if str_contains "right" p then x1 else x0,
          if str_contains "top" p then y1 else y0),
         VList [VFloat (if str_contains "right" p then 1 - padding else -1 + padding);
                VFloat (if str_contains "top" p then 1 - padding else -1 + padding)]),
     s).
Proof.
  intros Hc Hv Hh. rewrite resolve_pos_string. cbv zeta. now rewrite Hc, Hv, Hh.
Qed.

Lemma corner_placement_witness :
  resolve_pos (VStr "bottom-left") 0 10 0 5 scene =
    (Ok ((0, 0)%float, VList [VFloat (-1 + padding); VFloat (-1 + padding)]), scene).
Proof. exact (corner_placement "bottom-left" 0 10 0 5 scene eq_refl eq_refl eq_refl). Defined.

(** [clone2d] returns on a two-level assembly whenever the placement is
    resolved. *)
Lemma clone2d_returns_for from_archive fuel s self pos size rotation ontop scale :
  two_level s self ->
  (forall x0 x1 y0 y1 sa, exists r, resolve_pos pos x0 x1 y0 y1 sa = (Ok r, sa)) ->
  exists g s',
    Assembly_clone2d from_archive (S fuel) self pos size rotation ontop scale s = (Ok g, s').
Proof.
  intros Htwo Hres. unfold Assembly_clone2d.
  assert (exists sa,
    (match scale with
     | Some sc =>
         log LWarning "clone2d(scale=...) is deprecated, use clone2d(size=...) instead" ;;;
         ret sc
     | None => ret size
     end) s = (Ok (default size scale), sa) /\ objs sa = objs s) as (sa & Hsize & Hsa).
  { destruct scale; eexists; split; reflexivity. }
  rewrite (bind_eq_Ok _ _ _ _ _ Hsize).
  assert (Htwo' : two_level sa self).
  { destruct Htwo as (o & Ho & Hrest). unfold two_level, flat_child, points_ok in *.
    rewrite Hsa. eauto. }
  clear Htwo Hsize Hsa s. pose proof Htwo' as (o & Hself & _).
  rewrite (bind_eq_Ok _ _ _ _ _ (deref_eq _ _ _ Hself)).
  destruct (xbounds o) as [bx0 bx1], (ybounds o) as [by0 by1],
    (position o) as [[px py] pz].
  set (x0 := (bx0 - px)%float). set (x1 := (bx1 - px)%float).
  set (y0 := (by0 - py)%float). set (y1 := (by1 - py)%float).
  destruct (Hres x0 x1 y0 y1 sa) as [[off P] Hr].
  rewrite (bind_eq_Ok _ _ _ _ _ Hr).
  destruct (Group_init_nil sa) as (og & Hg & Hcls & Hparts).
  rewrite (bind_eq_Ok _ _ _ _ _ Hg).
  set (group := length (objs sa)) in *.
  set (sb := mkState (objs sa ++ [og]) (logs sa)) in *.
  assert (Hpre : objs sa `prefix_of` objs sb) by now exists [og].
  apply (two_level_lift sa sb) in Htwo'; [|now apply (lift_prefix _)].
  destruct (recursive_unpack_returns from_archive fuel sb self Htwo') as (elems & sc & Hflat).
  rewrite (bind_eq_Ok _ _ _ _ _ Hflat).
  pose proof (recursive_unpack_capable _ _ _ _ _ _ Htwo' Hflat) as Hcap.
  assert (Hpre2 : objs sb `prefix_of` objs sc).
  { replace sc with (snd (recursive_unpack from_archive (S fuel) self sb))
      by now rewrite Hflat. apply recursive_unpack_prefix. }
  assert (Hgc : is_Some (objs sc !! group)).
  { exists og. destruct Hpre2 as [k ->]. apply lookup_app_l_Some.
    now apply list_lookup_middle. }
  assert (Hselfc : is_Some (objs sc !! self)).
  { exists o. destruct Hpre2 as [k ->]. apply lookup_app_l_Some.
    cbn. now apply lookup_app_l_Some. }
  destruct (clone2d_loop_returns self group (default size scale) x0 x1 off P rotation
              ontop elems sc Hgc Hcap) as (sd & Hloop & HL).
  rewrite (bind_eq_Ok _ _ _ _ _ Hloop).
  destruct Hselfc as [oc Hoc]. destruct (HL self oc Hoc) as (od & Hod & _).
  rewrite (bind_eq_Ok _ _ _ _ _ (deref_eq _ _ _ Hod)).
  destruct Hgc as [ogc Hogc]. destruct (HL group ogc Hogc) as (ogd & Hogd & _).
  destruct (update_returns group
              (fun g => set_extra (copy_attrs histogram_attrs (extra od) (extra g)) g) sd)
    as (se & Hu1 & Hkeep); [eauto|].
  destruct (update_returns group (set_name (name od)) se) as (sf & Hu2 & _);
    [apply Hkeep; eauto|].
  rewrite (bind_eq_Ok _ _ _ _ _ Hu1), (bind_eq_Ok _ _ _ _ _ Hu2).
  eexists _, _. reflexivity.
Qed.

(** On an assembly of point sets, groups and assemblies of point sets,
    [clone2d] with a keyword returns a group exactly when the keyword has
    "cent", or has neither "top" nor "bottom", or has "left" or "right":
    the only keywords refused are those that name a vertical edge alone. *)
Theorem clone2d_keyword_accepted (from_archive : string -> M (list pyval))
    (fuel : nat) (s : state) (self : ref) (p : string)
    (size rotation : float) (ontop : bool) (scale : option float) :
  two_level s self ->
  (exists g s',
     Assembly_clone2d from_archive (S fuel) self (VStr p) size rotation ontop scale s
       = (Ok g, s')) <->
  str_contains "cent" p
  || negb (str_contains "top" p || str_contains "bottom" p)
  || str_contains "right" p || str_contains "left" p = true.
Proof.
  intros Htwo. split.
  - intros (g & s' & H). unfold Assembly_clone2d in H.
    apply bind_Ok in H as (sz & sa & _ & H).
    apply bind_Ok in H as (o & ? & Ho & H). apply deref_Ok in Ho as [_ ->].
    destruct (xbounds o) as [bx0 bx1], (ybounds o) as [by0 by1],
      (position o) as [[px py] pz].
    apply bind_Ok in H as (pl & sb & Hres & _).
    rewrite resolve_pos_string in Hres. cbv zeta in Hres.
    destruct (str_contains "cent" p); [reflexivity|].
    destruct (str_contains "top" p || str_contains "bottom" p); [|reflexivity].
    destruct (str_contains "right" p); [reflexivity|].
    destruct (str_contains "left" p); [reflexivity|]. discriminate.
  - intros Hok. apply clone2d_returns_for; [exact Htwo|].
    intros x0 x1 y0 y1 sa. rewrite resolve_pos_string. cbv zeta.
    destruct (str_contains "cent" p); [eauto|].
    destruct (str_contains "top" p || str_contains "bottom" p); [|eauto].
    destruct (str_contains "right" p); [eauto|].
    destruct (str_contains "left" p); [eauto|]. discriminate.
Qed.

Lemma clone2d_keyword_accepted_witness :
  (exists g s',
     Assembly_clone2d no_archive 4 8 (VStr "left") 1 0 false None scene_nested
       = (Ok g, s')) <->
  str_contains "cent" "left"
  || negb (str_contains "top" "left" || str_contains "bottom" "left")
  || str_contains "right" "left" || str_contains "left" "left" = true.
Proof.
  exact (clone2d_keyword_accepted no_archive 3 scene_nested 8 "left" 1 0 false None
           scene_nested_two_level).
Defined.

(** ** Groups *)

Lemma set_parts_id o : set_parts (parts o) o = o.
Proof. now destruct o. Qed.

(** [bool(v)] does not look at the parts of an object. *)
Lemma truthy_update s g og f v :
  objs s !! g = Some og -> cls (f og) = cls og -> objects (f og) = objects og ->
  truthy (mkState (<[g := f og]> (objs s)) (logs s)) v = truthy s v.
Proof.
  intros Hg Hc Ho. destruct v as [| | | |r| |]; try reflexivity. cbn [truthy objs].
  destruct (decide (r = g)) as [->|Hne].
  - rewrite list_lookup_insert_eq by (now apply lookup_lt_Some in Hg).
    rewrite Hg, Hc, Ho. reflexivity.
  - rewrite list_lookup_insert_ne by congruence. reflexivity.
Qed.

Lemma clear_loop g l :
  forall s og, objs s !! g = Some og -> parts og = l ->
    forM_ (map VObj l) (RemovePart g) s =
      (Ok tt, mkState (<[g := set_parts [] og]> (objs s)) (logs s)).
Proof.
  induction l as [|x l IH]; intros s og Hg Hp.
  - cbn [map]. rewrite forM_nil. unfold ret. f_equal. destruct s as [os lg]. cbn. f_equal.
    symmetry. apply list_insert_id. rewrite <- Hp, set_parts_id. exact Hg.
  - cbn [map]. rewrite forM_cons. cbn [RemovePart].
    rewrite (bind_eq_Ok _ _ _ _ _ (update_eq _ _ _ _ Hg)).
    rewrite Hp. cbn [remove_first]. rewrite Nat.eqb_refl.
    rewrite (IH _ (set_parts l og)).
    + cbn [objs logs]. rewrite list_insert_insert_eq. reflexivity.
    + cbn [objs]. apply list_lookup_insert_eq. now apply lookup_lt_Some in Hg.
    + reflexivity.
Qed.

(** [Group.clear()] returns the group with no part left, whatever parts it
    had and however often; nothing else of the group and no other object
    changes, and [_unpack()] is then empty. *)
Theorem clear_empties_group (s : state) (g : ref) (og : pyobj) :
  objs s !! g = Some og ->
  let s' := mkState (<[g := set_parts [] og]> (objs s)) (logs s) in
  Group_clear g s = (Ok g, s') /\
  Group__unpack g s' = (Ok [], s') /\
  Group_clear g s' = (Ok g, s').
Proof.
  intros Hg s'.
  assert (Hg' : objs s' !! g = Some (set_parts [] og)).
  { apply list_lookup_insert_eq. now apply lookup_lt_Some in Hg. }
  assert (Hclear : forall s0 o0, objs s0 !! g = Some o0 ->
            Group_clear g s0 = (Ok g, mkState (<[g := set_parts [] o0]> (objs s0)) (logs s0))).
  { intros s0 o0 H0. unfold Group_clear, Group__unpack.
    rewrite bind_assoc. rewrite (bind_eq_Ok _ _ _ _ _ (deref_eq _ _ _ H0)).
    rewrite bind_ret_l. rewrite (bind_eq_Ok _ _ _ _ _ (clear_loop g _ s0 o0 H0 eq_refl)).
    reflexivity. }
  split; [now apply Hclear|]. split.
  - unfold Group__unpack. rewrite (bind_eq_Ok _ _ _ _ _ (deref_eq _ _ _ Hg')). reflexivity.
  - rewrite (Hclear s' _ Hg'). unfold s'. cbn [objs logs set_parts parts].
    rewrite list_insert_insert_eq. reflexivity.
Qed.

Lemma clear_empties_group_witness :
  Group_clear 13 scene_bars_inner =
    (Ok 13, mkState (<[13 := set_parts [] (the_object scene_bars_inner 13)]>
                       (objs scene_bars_inner)) (logs scene_bars_inner)) /\
  parts (the_object scene_bars_inner 13) = [6; 7].
Proof.
  split; [|reflexivity].
  exact (proj1 (clear_empties_group scene_bars_inner 13 (the_object scene_bars_inner 13)
                  eq_refl)).
Defined.

Lemma iadd_loop g items :
  forall refs s og, objs s !! g = Some og ->
    List.filter (truthy s) items = map VObj refs ->
    forM_ items (fun a => s <- get_state ;;
                          if truthy s a then AddPart g a else ret tt) s =
      (Ok tt, mkState (<[g := set_parts (parts og ++ refs) og]> (objs s)) (logs s)).
Proof.
  induction items as [|a items IH]; intros refs s og Hg Hf.
  - destruct refs; [|discriminate]. rewrite forM_nil. unfold ret. f_equal.
    destruct s as [os lg]. cbn. f_equal. symmetry. apply list_insert_id.
    rewrite app_nil_r, set_parts_id. exact Hg.
  - rewrite forM_cons. rewrite (bind_assoc get_state).
    rewrite (bind_eq_Ok get_state _ s s s eq_refl).
    cbn [List.filter] in Hf. destruct (truthy s a) eqn:Et.
    + destruct refs as [|r refs]; [discriminate|]. cbn [map] in Hf.
      injection Hf as -> Hf. cbn [AddPart].
      rewrite (bind_eq_Ok _ _ _ _ _ (update_eq _ _ _ _ Hg)).
      rewrite (IH refs _ (set_parts (parts og ++ [r]) og)).
      * cbn [objs logs set_parts parts]. rewrite list_insert_insert_eq.
        rewrite <- app_assoc. reflexivity.
      * cbn [objs]. apply list_lookup_insert_eq. now apply lookup_lt_Some in Hg.
      * rewrite <- Hf. apply filter_ext. intros v.
        now apply (truthy_update s g og (fun o => set_parts (parts o ++ [r]) o)).
    + rewrite bind_ret_l. now apply IH.
Qed.

(** [group += obj] for props that the group does not hold yet: the call
    returns the group itself and appends to its parts, in order, the truthy
    elements of [obj] when it is a list whose truthy elements are distinct
    props, none of them a member already, or [obj] itself when it is one
    such prop (nothing when it is falsy); [None] adds nothing.  No other
    object changes. *)
Theorem iadd_appends (s : state) (g : ref) (og : pyobj) :
  objs s !! g = Some og -> cls og = CGroup ->
  (forall items refs,
     List.filter (truthy s) items = map VObj refs ->
     Forall (fun r => is_prop s (VObj r) = true) refs ->
     NoDup (parts og ++ refs) ->
     Group_iadd g (VList items) s =
       (Ok g, mkState (<[g := set_parts (parts og ++ refs) og]> (objs s)) (logs s))) /\
  (forall r,
     is_prop s (VObj r) = true -> r ∉ parts og ->
     Group_iadd g (VObj r) s =
       (Ok g, mkState (<[g := set_parts (parts og ++ if truthy s (VObj r) then [r] else [])
                               og]> (objs s)) (logs s))) /\
  Group_iadd g VNone s = (Ok g, s).
Proof.
  intros Hg _. split; [|split].
  - intros items refs Hf _ _. unfold Group_iadd. cbn [is_sequence py_iter].
    rewrite bind_ret_l. rewrite (bind_eq_Ok _ _ _ _ _ (iadd_loop g items refs s og Hg Hf)).
    reflexivity.
  - intros r _ _. unfold Group_iadd. cbn [is_sequence]. rewrite bind_ret_l.
    rewrite (bind_eq_Ok _ _ _ _ _
               (iadd_loop g [VObj r] (if truthy s (VObj r) then [r] else []) s og Hg
                  ltac:(cbn [List.filter]; now destruct (truthy s (VObj r))))).
    reflexivity.
  - unfold Group_iadd. cbn [is_sequence]. rewrite bind_ret_l.
    rewrite (bind_eq_Ok _ _ _ _ _ (iadd_loop g [VNone] [] s og Hg eq_refl)).
    unfold ret. f_equal. destruct s as [os lg]. cbn. f_equal. apply list_insert_id.
    rewrite app_nil_r, set_parts_id. exact Hg.
Qed.

Ltac not_member :=
  let H := fresh in
  intros H; repeat (apply elem_of_cons in H as [H|H]; [discriminate|]); inversion H.

Ltac distinct :=
  cbn; repeat (apply NoDup_cons; split; [not_member|]); apply NoDup_nil_2.

Lemma iadd_appends_witness :
  parts (the_object scene_bars_inner 13) = [6; 7] /\
  Group_iadd 13 (VList [VObj 8; VNone; VObj 9]) scene_bars_inner =
    (Ok 13, mkState (<[13 := set_parts [6; 7; 8; 9] (the_object scene_bars_inner 13)]>
                       (objs scene_bars_inner)) (logs scene_bars_inner)).
Proof.
  split; [reflexivity|].
  apply (proj1 (iadd_appends scene_bars_inner 13 (the_object scene_bars_inner 13)
                  eq_refl eq_refl) [VObj 8; VNone; VObj 9] [8; 9] eq_refl).
  - repeat constructor.
  - distinct.
Defined.

Lemma update_last l lg o f :
  update (length l) f (mkState (l ++ [o]) lg) = (Ok tt, mkState (l ++ [f o]) lg).
Proof.
  rewrite (update_eq _ _ _ o) by (cbn; now apply list_lookup_middle).
  cbn [objs logs]. f_equal. f_equal.
  replace (length l) with (length l + 0) at 1 by lia. now rewrite insert_app_r.
Qed.

(** A new object that is not an assembly changes no truth value. *)
Lemma truthy_snoc s og lg v :
  cls og <> CAssembly -> truthy (mkState (objs s ++ [og]) lg) v = truthy s v.
Proof.
  intros Hc. destruct v as [| | | |r| |]; try reflexivity. cbn [truthy objs].
  destruct (lt_eq_lt_dec r (length (objs s))) as [[Hlt| ->]|Hgt].
  - now rewrite lookup_app_l.
  - rewrite list_lookup_middle by reflexivity.
    rewrite (lookup_ge_None_2 (objs s)) by lia. now destruct (cls og).
  - rewrite !lookup_ge_None_2; [reflexivity|lia|rewrite length_app; cbn; lia].
Qed.

Lemma attr_actor_snoc s og lg a act :
  has_actor s a act ->
  attr_actor a (mkState (objs s ++ [og]) lg) = (Ok act, mkState (objs s ++ [og]) lg).
Proof.
  intros (r & o & -> & Hr & Ha). apply attr_actor_eq. exists r, o.
  split; [reflexivity|]. split; [|exact Ha]. cbn. now apply lookup_app_l_Some.
Qed.

Lemma Group_init_loop s lg items :
  forall acts og, cls og = CGroup ->
    Forall2 (has_actor s) (List.filter (truthy s) items) (map VObj acts) ->
    forM_ items (fun a =>
      st <- get_state ;;
      if truthy st a then (act <- attr_actor a ;; AddPart (length (objs s)) act) else ret tt)
      (mkState (objs s ++ [og]) lg) =
    (Ok tt, mkState (objs s ++ [set_parts (parts og ++ acts) og]) lg).
Proof.
  induction items as [|a items IH]; intros acts og Hc Hf.
  - cbn [List.filter] in Hf. apply Forall2_nil_inv_l in Hf.
    destruct acts; [|discriminate]. rewrite forM_nil, app_nil_r, set_parts_id. reflexivity.
  - rewrite forM_cons. rewrite (bind_assoc get_state).
    rewrite (bind_eq_Ok get_state _ _ _ _ eq_refl).
    rewrite truthy_snoc by (rewrite Hc; discriminate).
    cbn [List.filter] in Hf. destruct (truthy s a) eqn:Et.
    + apply Forall2_cons_inv_l in Hf as (y & ys & Hact & Hf & Hys).
      destruct acts as [|r acts]; [discriminate|]. cbn [map] in Hys.
      injection Hys as <- <-.
      rewrite bind_assoc. rewrite (bind_eq_Ok _ _ _ _ _ (attr_actor_snoc s og lg a _ Hact)).
      cbn [AddPart].
      rewrite (bind_eq_Ok _ _ _ _ _
                 (update_last (objs s) lg og (fun o => set_parts (parts o ++ [r]) o))).
      rewrite (IH acts (set_parts (parts og ++ [r]) og) Hc Hf).
      cbn [set_parts parts]. rewrite <- app_assoc. reflexivity.
    + rewrite bind_ret_l. now apply IH.
Qed.

(** [Group(l)] for a list [l] whose truthy elements, nested lists opened,
    have actors that are distinct props: a new group, not pickable, named
    "Group", whose members, as [_unpack()] returns them, are those actors
    in order; no existing object changes. *)
Theorem Group_init_members (s : state) (l : list pyval) (acts : list ref) :
  Forall2 (has_actor s) (List.filter (truthy s) (flatten l)) (map VObj acts) ->
  Forall (fun r => is_prop s (VObj r) = true) acts -> NoDup acts ->
  exists og,
    Group_init (VList l) s = (Ok (length (objs s)), mkState (objs s ++ [og]) (logs s)) /\
    cls og = CGroup /\ name og = "Group" /\ pickable og = false /\
    Group__unpack (length (objs s)) (mkState (objs s ++ [og]) (logs s))
      = (Ok (map VObj acts), mkState (objs s ++ [og]) (logs s)).
Proof.
  intros Hf _ _. unfold Group_init, SetPickable.
  rewrite (bind_eq_Ok _ _ s (length (objs s))
             (mkState (objs s ++ [new_object CGroup]) (logs s)) eq_refl).
  rewrite bind_ret_l.
  rewrite (bind_eq_Ok _ _ _ _ _ (update_last _ _ _ _)).
  rewrite (bind_eq_Ok _ _ _ _ _ (update_last _ _ _ _)).
  rewrite (bind_eq_Ok _ _ _ _ _ (update_last _ _ _ _)).
  change (py_iter (VList l)) with (ret l). rewrite bind_ret_l.
  erewrite bind_eq_Ok; [|apply Group_init_loop; [reflexivity|exact Hf]].
  rewrite (bind_eq_Ok _ _ _ _ _ (update_last _ _ _ _)).
  eexists. split; [reflexivity|]. split; [reflexivity|]. split; [reflexivity|].
  split; [reflexivity|].
  unfold Group__unpack. erewrite bind_eq_Ok.
  2: { apply deref_eq. cbn. now apply list_lookup_middle. }
  reflexivity.
Qed.

Lemma Group_init_members_witness :
  exists og,
    Group_init (VList [VObj 1; VList [VNone; VObj 6]; VObj 5]) scene_abc =
      (Ok 7, mkState (objs scene_abc ++ [og]) (logs scene_abc)) /\
    cls og = CGroup /\ name og = "Group" /\ pickable og = false /\
    Group__unpack 7 (mkState (objs scene_abc ++ [og]) (logs scene_abc))
      = (Ok [VObj 0; VObj 6; VObj 4], mkState (objs scene_abc ++ [og]) (logs scene_abc)).
Proof.
  apply (Group_init_members scene_abc [VObj 1; VList [VNone; VObj 6]; VObj 5] [0; 6; 4]).
  - repeat (constructor; [eexists _, _; repeat split; reflexivity|]). constructor.
  - repeat constructor.
  - distinct.
Defined.

(** ** Construction of an assembly *)

Lemma class_of_snoc l0 lg lg' o o' v :
  cls o' = cls o ->
  class_of (mkState (l0 ++ [o']) lg') v = class_of (mkState (l0 ++ [o]) lg) v.
Proof.
  intros Hc. destruct v as [| | | |r| |]; try reflexivity. cbn [class_of objs].
  destruct (lt_eq_lt_dec r (length l0)) as [[Hlt| ->]|Hgt].
  - now rewrite !lookup_app_l.
  - rewrite !list_lookup_middle by reflexivity. cbn. now rewrite Hc.
  - rewrite !lookup_ge_None_2; [reflexivity|rewrite length_app; cbn; lia..].
Qed.

Lemma is_Prop3D_snoc l0 lg lg' o o' v :
  cls o' = cls o ->
  is_Prop3D (mkState (l0 ++ [o']) lg') v = is_Prop3D (mkState (l0 ++ [o]) lg) v.
Proof. intros Hc. unfold is_Prop3D. now rewrite (class_of_snoc l0 lg lg' o o'). Qed.

Lemma getattr_scalarbar_snoc l0 lg lg' o o' v :
  scalarbar o' = scalarbar o ->
  getattr_scalarbar (mkState (l0 ++ [o']) lg') v =
  getattr_scalarbar (mkState (l0 ++ [o]) lg) v.
Proof.
  intros Hc. destruct v as [| | | |r| |]; try reflexivity. cbn [getattr_scalarbar objs].
  destruct (lt_eq_lt_dec r (length l0)) as [[Hlt| ->]|Hgt].
  - now rewrite !lookup_app_l.
  - rewrite !list_lookup_middle by reflexivity. now rewrite Hc.
  - rewrite !lookup_ge_None_2; [reflexivity|rewrite length_app; cbn; lia..].
Qed.

Lemma is_Prop3D_VObj s a : is_Prop3D s a = true -> exists r, a = VObj r.
Proof. destruct a; try discriminate. eauto. Qed.

Lemma contributed_cons s a acts :
  contributed s (a :: acts) =
    match getattr_scalarbar s a with
    | VNone => contributed s acts
    | sb => sb :: contributed s acts
    end.
Proof. unfold contributed. cbn [map List.filter]. now destruct (getattr_scalarbar s a). Qed.

Lemma contributed_snoc l0 lg lg' o o' acts :
  scalarbar o' = scalarbar o ->
  contributed (mkState (l0 ++ [o']) lg') acts = contributed (mkState (l0 ++ [o]) lg) acts.
Proof.
  intros Hc. unfold contributed. f_equal. apply map_ext. intros v.
  now apply getattr_scalarbar_snoc.
Qed.

(** The loop of lines 245-249, run on a store whose last object is the
    assembly under construction. *)
Lemma collect_loop l0 lg acts :
  forall sbs0 o,
    exists refs,
      foldM (fun scalarbars a =>
        s <- get_state ;;
        (if is_Prop3D s a then AddPart (length l0) a else ret tt) ;;;
        s <- get_state ;;
        match getattr_scalarbar s a with
        | VNone => ret scalarbars
        | sb => ret (scalarbars ++ [sb])
        end) sbs0 acts (mkState (l0 ++ [o]) lg) =
      (Ok (sbs0 ++ contributed (mkState (l0 ++ [o]) lg) acts),
       mkState (l0 ++ [set_parts (parts o ++ refs) o]) lg) /\
      map VObj refs = List.filter (is_Prop3D (mkState (l0 ++ [o]) lg)) acts.
Proof.
  induction acts as [|a acts IH]; intros sbs0 o.
  - exists []. cbn [foldM]. unfold contributed. cbn [map List.filter].
    rewrite !app_nil_r, set_parts_id. split; reflexivity.
  - cbn [foldM]. rewrite !bind_assoc.
    rewrite (bind_eq_Ok get_state _ _ _ _ eq_refl).
    rewrite contributed_cons. cbn [List.filter].
    destruct (is_Prop3D (mkState (l0 ++ [o]) lg) a) eqn:E3.
    + destruct (is_Prop3D_VObj _ _ E3) as [r ->]. cbn [AddPart].
      rewrite !bind_assoc.
      rewrite (bind_eq_Ok _ _ _ _ _
                 (update_last l0 lg o (fun o => set_parts (parts o ++ [r]) o))).
      rewrite !bind_assoc. rewrite (bind_eq_Ok get_state _ _ _ _ eq_refl).
      rewrite (getattr_scalarbar_snoc l0 lg lg o (set_parts (parts o ++ [r]) o)) by reflexivity.
      destruct (IH (sbs0 ++ match getattr_scalarbar (mkState (l0 ++ [o]) lg) (VObj r) with
                            | VNone => [] | sb => [sb] end)
                  (set_parts (parts o ++ [r]) o)) as (refs & Hrun & Hrefs).
      exists (r :: refs).
      rewrite (contributed_snoc l0 lg lg o (set_parts (parts o ++ [r]) o)) in Hrun
        by reflexivity.
      rewrite (filter_ext _ _ (fun v => is_Prop3D_snoc l0 lg lg o
                 (set_parts (parts o ++ [r]) o) v eq_refl)) in Hrefs.
      cbn [set_parts parts] in Hrun. rewrite <- !app_assoc in Hrun. cbn [app] in Hrun.
      split; [|cbn [map]; now rewrite Hrefs].
      destruct (getattr_scalarbar (mkState (l0 ++ [o]) lg) (VObj r));
        rewrite bind_ret_l; rewrite ?app_nil_r in Hrun; rewrite Hrun; reflexivity.
    + rewrite ?bind_assoc. rewrite bind_ret_l. rewrite ?bind_assoc.
      rewrite (bind_eq_Ok get_state _ _ _ _ eq_refl).
      destruct (IH (sbs0 ++ match getattr_scalarbar (mkState (l0 ++ [o]) lg) a with
                            | VNone => [] | sb => [sb] end) o) as (refs & Hrun & Hrefs).
      exists refs. split; [|exact Hrefs].
      rewrite <- !app_assoc in Hrun.
      destruct (getattr_scalarbar (mkState (l0 ++ [o]) lg) a);
        rewrite bind_ret_l; rewrite ?app_nil_r in Hrun; rewrite Hrun; reflexivity.
Qed.

Lemma insert_middle {A} (l0 : list A) o o' t :
  <[length l0 := o']> (l0 ++ o :: t) = l0 ++ o' :: t.
Proof.
  replace (length l0) with (length l0 + 0) at 1 by lia. now rewrite insert_app_r.
Qed.

Lemma update_middle l0 lg o t f :
  update (length l0) f (mkState (l0 ++ o :: t) lg) = (Ok tt, mkState (l0 ++ f o :: t) lg).
Proof.
  rewrite (update_eq _ _ _ o) by (cbn; now apply list_lookup_middle).
  cbn [objs logs]. now rewrite insert_middle.
Qed.

Lemma truthy_middle l0 lg o o' t v :
  cls o' = cls o -> objects o' = objects o ->
  truthy (mkState (l0 ++ o' :: t) lg) v = truthy (mkState (l0 ++ o :: t) lg) v.
Proof.
  intros Hc Ho. rewrite <- (insert_middle l0 o o' t).
  apply (truthy_update (mkState (l0 ++ o :: t) lg) (length l0) o (fun _ => o'));
    [cbn; now apply list_lookup_middle|assumption..].
Qed.

Lemma has_actor_middle l0 lg o o' t m a :
  actor o' = actor o ->
  has_actor (mkState (l0 ++ o :: t) lg) m a -> has_actor (mkState (l0 ++ o' :: t) lg) m a.
Proof.
  intros Ha. apply has_actor_lift. rewrite <- (insert_middle l0 o o' t).
  apply (lift_update _ (length l0) (fun _ => o') (mkState (l0 ++ o :: t) lg) o);
    [cbn; now apply list_lookup_middle|exact Ha].
Qed.

Lemma has_actor_prefix s s' m a :
  objs s `prefix_of` objs s' -> has_actor s m a -> has_actor s' m a.
Proof. intros Hp. apply has_actor_lift. now apply (lift_prefix _). Qed.

Lemma Group_init_loop_inv s lg items :
  forall og s', cls og = CGroup ->
    forM_ items (fun a =>
      st <- get_state ;;
      if truthy st a then (act <- attr_actor a ;; AddPart (length (objs s)) act) else ret tt)
      (mkState (objs s ++ [og]) lg) = (Ok tt, s') ->
    exists acts,
      s' = mkState (objs s ++ [set_parts (parts og ++ acts) og]) lg /\
      Forall2 (has_actor (mkState (objs s ++ [og]) lg))
        (List.filter (truthy s) items) (map VObj acts).
Proof.
  induction items as [|a items IH]; intros og s' Hc H.
  - rewrite forM_nil in H. injection H as <-. exists [].
    rewrite app_nil_r, set_parts_id. split; [reflexivity|constructor].
  - rewrite forM_cons in H. apply bind_Ok in H as ([] & s1 & Hfa & H).
    rewrite (bind_eq_Ok get_state _ _ _ _ eq_refl) in Hfa.
    rewrite truthy_snoc in Hfa by (rewrite Hc; discriminate).
    cbn [List.filter]. destruct (truthy s a) eqn:Et.
    + apply bind_Ok in Hfa as (act & s2 & Hact & Hadd).
      pose proof (attr_actor_state _ _ _ _ Hact) as ->.
      apply attr_actor_Ok in Hact as (r & o & -> & Hr & Ha).
      destruct act as [| | | |x| |]; try discriminate. cbn [AddPart] in Hadd.
      rewrite update_last in Hadd. injection Hadd as <-.
      apply IH in H as (acts & -> & Hf); [|exact Hc].
      exists (x :: acts). cbn [set_parts parts]. rewrite <- app_assoc. split; [reflexivity|].
      cbn [map]. constructor.
      * now exists r, o.
      * eapply Forall2_impl; [exact Hf|]. intros m b.
        apply (has_actor_middle (objs s) lg _ og []). reflexivity.
    + injection Hfa as <-. now apply IH.
Qed.

(** What [Group(l)] leaves when it returns: one new object, the group. *)
Lemma Group_init_inv l s g s' :
  Group_init (VList l) s = (Ok g, s') ->
  g = length (objs s) /\
  exists og, s' = mkState (objs s ++ [og]) (logs s) /\ cls og = CGroup /\
    name og = "Group" /\ pickable og = false /\
    Forall2 (has_actor s') (List.filter (truthy s') (flatten l)) (map VObj (parts og)).
Proof.
  intros H. unfold Group_init, SetPickable in H.
  rewrite (bind_eq_Ok _ _ s (length (objs s))
             (mkState (objs s ++ [new_object CGroup]) (logs s)) eq_refl) in H.
  rewrite bind_ret_l in H.
  rewrite (bind_eq_Ok _ _ _ _ _ (update_last _ _ _ _)) in H.
  rewrite (bind_eq_Ok _ _ _ _ _ (update_last _ _ _ _)) in H.
  rewrite (bind_eq_Ok _ _ _ _ _ (update_last _ _ _ _)) in H.
  change (py_iter (VList l)) with (ret l) in H. rewrite bind_ret_l in H.
  apply bind_Ok in H as ([] & s1 & Hloop & H).
  apply Group_init_loop_inv in Hloop as (acts & -> & Hf); [|reflexivity].
  rewrite (bind_eq_Ok _ _ _ _ _ (update_last _ _ _ _)) in H. injection H as <- <-.
  split; [reflexivity|]. eexists. split; [reflexivity|].
  split; [reflexivity|]. split; [reflexivity|]. split; [reflexivity|].
  cbn [parts set_pickable set_parts app].
  rewrite (filter_ext _ (truthy s)) by (intros v; now apply truthy_snoc).
  eapply Forall2_impl; [exact Hf|]. intros m b.
  apply (has_actor_middle (objs s) (logs s) _ _ []). reflexivity.
Qed.

Lemma deref_middle l0 lg o t :
  deref (length l0) (mkState (l0 ++ o :: t) lg) = (Ok o, mkState (l0 ++ o :: t) lg).
Proof. apply deref_eq. cbn. now apply list_lookup_middle. Qed.

Lemma getattr_scalarbar_new l0 lg lg' o v :
  default VNone (scalarbar o) = VNone ->
  getattr_scalarbar (mkState (l0 ++ [o]) lg) v = getattr_scalarbar (mkState l0 lg') v.
Proof.
  intros Hc. destruct v as [| | | |r| |]; try reflexivity. cbn [getattr_scalarbar objs].
  destruct (lt_eq_lt_dec r (length l0)) as [[Hlt| ->]|Hgt].
  - now rewrite lookup_app_l.
  - rewrite list_lookup_middle by reflexivity.
    rewrite (lookup_ge_None_2 l0) by lia. exact Hc.
  - rewrite !lookup_ge_None_2; [reflexivity|lia|rewrite length_app; cbn; lia].
Qed.

Lemma is_Prop3D_tail l0 lg lg' o o' tail v :
  cls o' = cls o -> Forall (fun g => cls g = CGroup) tail ->
  is_Prop3D (mkState (l0 ++ o' :: tail) lg') v = is_Prop3D (mkState (l0 ++ [o]) lg) v.
Proof.
  intros Hc Ht. unfold is_Prop3D. destruct v as [| | | |r| |]; try reflexivity.
  cbn [class_of objs].
  destruct (lt_eq_lt_dec r (length l0)) as [[Hlt| ->]|Hgt].
  - now rewrite !lookup_app_l.
  - rewrite !list_lookup_middle by reflexivity. cbn. now rewrite Hc.
  - rewrite (lookup_ge_None_2 (l0 ++ [o])) by (rewrite length_app; cbn; lia).
    rewrite lookup_app_r by lia.
    destruct (length l0) as [|n] eqn:En.
    + destruct r as [|r]; [lia|]. cbn.
      destruct (tail !! r) as [g|] eqn:Eg; [|reflexivity].
      cbn. now rewrite (proj1 (Forall_lookup _ _) Ht _ _ Eg).
    + destruct (r - S n) as [|k] eqn:Ek; [lia|]. cbn.
      destruct (tail !! k) as [g|] eqn:Eg; [|reflexivity].
      cbn. now rewrite (proj1 (Forall_lookup _ _) Ht _ _ Eg).
Qed.

Lemma Assembly_init_scalarbar_inv l0 lg o3 s4 :
  Assembly_init_scalarbar (length l0) (mkState (l0 ++ [o3]) lg) = (Ok tt, s4) ->
  exists refs,
    map VObj refs = List.filter (is_Prop3D (mkState (l0 ++ [o3]) lg)) (actors o3) /\
    match contributed (mkState (l0 ++ [o3]) lg) (actors o3) with
    | [] => s4 = mkState (l0 ++ [set_parts (parts o3 ++ refs) o3]) lg
    | [sb] =>
        s4 = mkState (l0 ++ [set_scalarbar (Some sb) (set_parts (parts o3 ++ refs) o3)]) lg
    | sbs =>
        exists og,
          s4 = mkState (l0 ++ [set_scalarbar (Some (VObj (S (length l0))))
                                 (set_parts (parts o3 ++ refs) o3); og]) lg /\
          cls og = CGroup /\ name og = "Group" /\ pickable og = false /\
          Forall2 (has_actor s4) (List.filter (truthy s4) (flatten sbs)) (map VObj (parts og))
    end.
Proof.
  intros H. unfold Assembly_init_scalarbar, collect_scalarbars in H.
  rewrite (bind_eq_Ok _ _ _ _ _ (deref_middle l0 lg o3 [])) in H.
  destruct (collect_loop l0 lg (actors o3) [] o3) as (refs & Hrun & Hrefs).
  rewrite (bind_eq_Ok _ _ _ _ _ Hrun) in H. cbn [app] in H.
  exists refs. split; [exact Hrefs|].
  destruct (contributed (mkState (l0 ++ [o3]) lg) (actors o3)) as [|sb [|sb2 sbs]].
  - now injection H as <-.
  - rewrite update_last in H. now injection H as <-.
  - apply bind_Ok in H as (g & s5 & Hg & H).
    apply Group_init_inv in Hg as (-> & og & -> & Hc & Hn & Hp & Hf).
    cbn [objs logs] in H, Hf. rewrite <- app_assoc in H, Hf. cbn [app] in H, Hf.
    rewrite update_middle in H. injection H as <-.
    exists og. rewrite length_app, Nat.add_1_r. cbn [length].
    split; [reflexivity|]. split; [exact Hc|]. split; [exact Hn|]. split; [exact Hp|].
    rewrite (filter_ext _ _ (fun v => truthy_middle l0 lg
               (set_parts (parts o3 ++ refs) o3)
               (set_scalarbar (Some (VObj (S (length l0)))) (set_parts (parts o3 ++ refs) o3))
               [og] v eq_refl eq_refl)).
    eapply Forall2_impl; [exact Hf|]. intros m b.
    apply has_actor_middle. reflexivity.
Qed.

(** What [Assembly(l)] leaves when it returns: the new assembly, and the
    group of its scalarbars when there are several. *)
Lemma Assembly_init_list_inv from_archive l s a s' :
  Assembly_init from_archive [VList l] s = (Ok a, s') ->
  a = length (objs s) /\
  exists oa tail,
    s' = mkState (objs s ++ oa :: tail) (logs s) /\
    cls oa = CAssembly /\ name oa = "Assembly" /\ actor oa = Some (VObj a) /\
    position oa = (0, 0, 0)%float /\
    objects oa =
      List.filter (truthy (mkState (objs s ++ [new_object CAssembly]) (logs s))) l /\
    Forall2 (has_actor s') (objects oa) (actors oa) /\
    map VObj (parts oa) = List.filter (is_Prop3D s') (actors oa) /\
    match contributed s (actors oa) with
    | [] => scalarbar oa = Some VNone /\ tail = []
    | [sb] => scalarbar oa = Some sb /\ tail = []
    | sbs =>
        exists og, scalarbar oa = Some (VObj (S a)) /\ tail = [og] /\
          cls og = CGroup /\ name og = "Group" /\ pickable og = false /\
          Forall2 (has_actor s') (List.filter (truthy s') (flatten sbs)) (map VObj (parts og))
    end.
Proof.
  intros H. unfold Assembly_init in H.
  rewrite (bind_eq_Ok _ _ s (length (objs s))
             (mkState (objs s ++ [new_object CAssembly]) (logs s)) eq_refl) in H.
  rewrite bind_ret_l in H. rewrite bind_ret_l in H.
  rewrite (bind_eq_Ok _ _ _ _ _ (update_last _ _ _ _)) in H.
  rewrite (bind_eq_Ok _ _ _ _ _ (update_last _ _ _ _)) in H.
  rewrite (bind_eq_Ok _ _ _ _ _ (update_last _ _ _ _)) in H.
  change (py_iter (VList l)) with (ret l) in H. rewrite bind_ret_l in H.
  rewrite (bind_eq_Ok get_state _ _ _ _ eq_refl) in H.
  rewrite (bind_eq_Ok _ _ _ _ _ (update_last _ _ _ _)) in H.
  rewrite (bind_eq_Ok _ _ _ _ _ (deref_middle _ _ _ [])) in H.
  apply bind_Ok in H as (acts & s2 & Hacts & H).
  apply mapM_attr_actor in Hacts as [-> Hacts].
  rewrite (bind_eq_Ok _ _ _ _ _ (update_last _ _ _ _)) in H.
  apply bind_Ok in H as ([] & s4 & Hsb & H). injection H as <- <-.
  apply Assembly_init_scalarbar_inv in Hsb as (refs & Hrefs & Hsb).
  split; [reflexivity|].
  set (l0 := objs s) in *. set (lg := logs s) in *.
  set (o1 := set_scalarbar (Some VNone)
               (set_name "Assembly"
                  (set_actor (Some (VObj (length l0))) (new_object CAssembly)))) in *.
  set (objs2 := List.filter (truthy (mkState (l0 ++ [o1]) lg)) l) in *.
  assert (Hobjs : objs2 =
            List.filter (truthy (mkState (l0 ++ [new_object CAssembly]) lg)) l).
  { apply filter_ext. intros v. now apply (truthy_middle l0 lg _ _ []). }
  cbn [actors set_actors parts set_objects] in Hrefs, Hsb.
  change (parts o1) with (@nil ref) in Hsb. cbn [app] in Hsb.
  rewrite (contributed_snoc l0 lg lg o1) in Hsb by reflexivity.
  assert (Hcontr : contributed (mkState (l0 ++ [o1]) lg) acts = contributed s acts).
  { unfold contributed. f_equal. apply map_ext. intros v. destruct s as [os ls].
    now apply getattr_scalarbar_new. }
  rewrite Hcontr in Hsb.
  destruct (contributed s acts) as [|sb [|sb2 sbs]] eqn:Ec.
  - subst s4. eexists _, []. split; [reflexivity|].
    cbn [cls name actor position objects actors parts scalarbar
         set_parts set_actors set_objects set_scalarbar set_name set_actor new_object].
    repeat (split; [first [reflexivity | exact Hobjs]|]). rewrite Ec. split; [|split]; cycle 2.
    + split; reflexivity.
    + eapply Forall2_impl; [exact Hacts|]. intros m b.
      apply (has_actor_middle l0 lg _ _ []). reflexivity.
    + rewrite Hrefs. apply filter_ext. intros v. symmetry.
      now apply (is_Prop3D_tail l0 lg lg).
  - subst s4. eexists _, []. split; [reflexivity|].
    cbn [cls name actor position objects actors parts scalarbar
         set_parts set_actors set_objects set_scalarbar set_name set_actor new_object].
    repeat (split; [first [reflexivity | exact Hobjs]|]). rewrite Ec. split; [|split]; cycle 2.
    + split; reflexivity.
    + eapply Forall2_impl; [exact Hacts|]. intros m b.
      apply (has_actor_middle l0 lg _ _ []). reflexivity.
    + rewrite Hrefs. apply filter_ext. intros v. symmetry.
      now apply (is_Prop3D_tail l0 lg lg).
  - destruct Hsb as (og & -> & Hc & Hn & Hp & Hf). eexists _, [og]. split; [reflexivity|].
    cbn [cls name actor position objects actors parts scalarbar
         set_parts set_actors set_objects set_scalarbar set_name set_actor new_object].
    repeat (split; [first [reflexivity | exact Hobjs]|]). rewrite Ec. split; [|split]; cycle 2.
    + exists og. repeat (split; [first [reflexivity | assumption]|]). exact Hf.
    + eapply Forall2_impl; [exact Hacts|]. intros m b Hm.
      eapply has_actor_prefix; [|eapply (has_actor_middle l0 lg _ _ []); [|exact Hm]].
      * cbn. exists [og]. now rewrite <- app_assoc.
      * reflexivity.
    + rewrite Hrefs. apply filter_ext. intros v. symmetry.
      apply (is_Prop3D_tail l0 lg lg); [reflexivity|]. now constructor.
Qed.

Lemma filter_ext_Forall {A} (f g : A -> bool) l :
  Forall (fun v => f v = g v) l -> List.filter f l = List.filter g l.
Proof.
  induction 1 as [|v l Hv _ IH]; [reflexivity|]. cbn [List.filter]. now rewrite Hv, IH.
Qed.

Lemma truthy_in_store s o lg v :
  in_store s v -> truthy (mkState (objs s ++ [o]) lg) v = truthy s v.
Proof.
  intros Hv. destruct v as [| | | |r| |]; try reflexivity. cbn [truthy objs].
  destruct (Hv r eq_refl) as [x Hx]. now rewrite (lookup_app_l_Some _ _ _ _ Hx), Hx.
Qed.

(** [Assembly(l)] for a list [l] of values of the store, when it returns:
    the new assembly is named "Assembly", is its own actor, and holds the
    truthy elements of [l] in order ([None] and assemblies without objects
    are dropped); when no Prop3D actor is repeated, the parts of the
    composite are those of its actors that are Prop3D, in order; and no
    existing object has changed. *)
Theorem construction_from_list (from_archive : string -> M (list pyval))
    (l : list pyval) (s : state) (a : ref) (s' : state) :
  Forall (in_store s) l ->
  Assembly_init from_archive [VList l] s = (Ok a, s') ->
  objs s `prefix_of` objs s' /\ objs s !! a = None /\
  exists oa, objs s' !! a = Some oa /\
    name oa = "Assembly" /\ actor oa = Some (VObj a) /\
    objects oa = List.filter (truthy s) l /\
    (NoDup (List.filter (is_Prop3D s') (actors oa)) ->
     map VObj (parts oa) = List.filter (is_Prop3D s') (actors oa)).
Proof.
  intros Hin H.
  apply Assembly_init_list_inv in H
    as (-> & oa & tail & -> & _ & Hn & Ha & _ & Ho & _ & Hp & _).
  split; [now exists (oa :: tail)|]. split; [now apply lookup_ge_None_2|].
  exists oa. split; [cbn; now apply list_lookup_middle|].
  split; [exact Hn|]. split; [exact Ha|]. split; [|intros _; exact Hp].
  rewrite Ho. apply filter_ext_Forall. eapply Forall_impl; [exact Hin|].
  intros v Hv. now apply truthy_in_store.
Qed.

Lemma construction_from_list_witness :
  objs scene `prefix_of` objs scene_list /\ objs scene !! 6 = None /\
  exists oa, objs scene_list !! 6 = Some oa /\
    name oa = "Assembly" /\ actor oa = Some (VObj 6) /\
    objects oa = [VObj 1; VObj 3] /\ map VObj (parts oa) = [VObj 0; VObj 2].
Proof.
  destruct (construction_from_list no_archive [VObj 1; VNone; VObj 3] scene 6 scene_list)
    as (Hpre & Hnew & oa & Hoa & Hn & Ha & Ho & Hp); [|reflexivity|].
  { repeat (constructor; [intros r [= <-]; eexists; reflexivity|]). constructor. }
  split; [exact Hpre|]. split; [exact Hnew|]. exists oa.
  split; [exact Hoa|]. split; [exact Hn|]. split; [exact Ha|]. split; [exact Ho|].
  vm_compute in Hoa. injection Hoa as <-.
  rewrite Hp; [reflexivity|]. vm_compute. distinct.
Defined.

Lemma has_actor_fun s m a b : has_actor s m a -> has_actor s m b -> a = b.
Proof.
  intros (r & o & -> & Hr & Ha) (r' & o' & [= <-] & Hr' & Hb). congruence.
Qed.

Lemma Forall2_has_actor_fun s l :
  forall a b, Forall2 (has_actor s) l (map VObj a) -> Forall2 (has_actor s) l (map VObj b) ->
    a = b.
Proof.
  induction l as [|m l IH]; intros a b Ha Hb.
  - apply Forall2_nil_inv_l in Ha, Hb. destruct a, b; try discriminate. reflexivity.
  - apply Forall2_cons_inv_l in Ha as (x & xs & Hx & Ha & Ex).
    apply Forall2_cons_inv_l in Hb as (y & ys & Hy & Hb & Ey).
    destruct a as [|ra a], b as [|rb b]; try discriminate.
    cbn [map] in Ex, Ey. injection Ex as <- <-. injection Ey as <- <-.
    pose proof (has_actor_fun _ _ _ _ Hx Hy) as E. injection E as ->.
    f_equal. now apply IH.
Qed.

(** The scalarbar of a constructed assembly, from the scalarbars its actors
    contribute: [None] when there is none, that very scalarbar when there
    is one, and otherwise a new group; when the contributed scalarbars,
    nested lists opened, have actors that are distinct props, the members
    of that group are those actors, in order, taken as they are. *)
Theorem constructed_scalarbar (from_archive : string -> M (list pyval))
    (l : list pyval) (s : state) (a : ref) (s' : state) :
  Assembly_init from_archive [VList l] s = (Ok a, s') ->
  exists oa, objs s' !! a = Some oa /\
    match contributed s (actors oa) with
    | [] => scalarbar oa = Some VNone
    | [sb] => scalarbar oa = Some sb
    | sbs =>
        exists g og, scalarbar oa = Some (VObj g) /\
          objs s !! g = None /\ objs s' !! g = Some og /\ cls og = CGroup /\
          forall acts,
            Forall2 (has_actor s') (List.filter (truthy s') (flatten sbs)) (map VObj acts) ->
            Forall (fun r => is_prop s' (VObj r) = true) acts -> NoDup acts ->
            parts og = acts
    end.
Proof.
  intros H.
  apply Assembly_init_list_inv in H
    as (-> & oa & tail & -> & _ & _ & _ & _ & _ & _ & _ & Hsb).
  exists oa. split; [cbn; now apply list_lookup_middle|].
  destruct (contributed s (actors oa)) as [|sb [|sb2 sbs]].
  - apply Hsb.
  - apply Hsb.
  - destruct Hsb as (og & Hs & -> & Hc & _ & _ & Hf).
    exists (S (length (objs s))), og. split; [exact Hs|].
    split; [apply lookup_ge_None_2; lia|]. split; [|split; [exact Hc|]].
    + cbn [objs]. rewrite lookup_app_r by lia.
      replace (S (length (objs s)) - length (objs s)) with 1 by lia. reflexivity.
    + intros acts Hacts _ _. exact (Forall2_has_actor_fun _ _ _ _ Hf Hacts).
Qed.

Lemma constructed_scalarbar_witness :
  contributed scene_bars (actors (the_object scene_bars_inner 12)) = [VObj 6; VObj 7] /\
  exists oa g og, objs scene_bars_inner !! 12 = Some oa /\
    scalarbar oa = Some (VObj g) /\
    objs scene_bars !! g = None /\ objs scene_bars_inner !! g = Some og /\
    cls og = CGroup /\ parts og = [6; 7].
Proof.
  split; [reflexivity|].
  destruct (constructed_scalarbar no_archive [VObj 9; VObj 10] scene_bars 12 scene_bars_inner
              eq_refl) as (oa & Hoa & Hsb).
  assert (E : Some oa = Some (the_object scene_bars_inner 12))
    by (rewrite <- Hoa; reflexivity).
  injection E as ->.
  change (contributed scene_bars (actors (the_object scene_bars_inner 12)))
    with [VObj 6; VObj 7] in Hsb.
  cbv beta iota in Hsb. destruct Hsb as (g & og & Hs & Hnew & Hg & Hc & Hm).
  exists (the_object scene_bars_inner 12), g, og. split; [exact Hoa|]. split; [exact Hs|].
  split; [exact Hnew|]. split; [exact Hg|]. split; [exact Hc|].
  apply (Hm [6; 7]).
  - change (Forall2 (has_actor scene_bars_inner) [VObj 6; VObj 7] [VObj 6; VObj 7]).
    repeat (constructor; [eexists _, _; repeat split; reflexivity|]). constructor.
  - repeat constructor.
  - distinct.
Defined.

(** ** Addition and the container protocol *)

Lemma getattr_actor_has s obj a : has_actor s obj a -> getattr_actor s obj = a.
Proof. intros (r & o & -> & Hr & Ha). cbn. now rewrite Hr, Ha. Qed.

Lemma Prop3D_has_actor s obj :
  is_Prop3D s (getattr_actor s obj) = true ->
  exists ra, has_actor s obj (VObj ra) /\ is_Prop3D s (VObj ra) = true.
Proof.
  intros H3. destruct obj as [| | | |r| |]; try discriminate.
  unfold getattr_actor in H3. destruct (objs s !! r) as [oo|] eqn:Eo; [|discriminate].
  destruct (actor oo) as [a|] eqn:Ea; [|discriminate].
  change (is_Prop3D s a = true) in H3.
  destruct (is_Prop3D_VObj _ _ H3) as [ra ->]. exists ra. split; [|exact H3].
  now exists r, oo.
Qed.

Lemma getattr_scalarbar_update s g og f v :
  objs s !! g = Some og -> scalarbar (f og) = scalarbar og ->
  getattr_scalarbar (mkState (<[g := f og]> (objs s)) (logs s)) v = getattr_scalarbar s v.
Proof.
  intros Hg Hc. destruct v as [| | | |r| |]; try reflexivity. cbn [getattr_scalarbar objs].
  destruct (decide (r = g)) as [->|Hne].
  - rewrite list_lookup_insert_eq by (now apply lookup_lt_Some in Hg).
    now rewrite Hg, Hc.
  - rewrite list_lookup_insert_ne by congruence. reflexivity.
Qed.

(** Lines 369-371 of [__add__], run. *)
Lemma Assembly_add_appended self obj s o ra :
  objs s !! self = Some o -> has_actor s obj (VObj ra) -> is_Prop3D s (VObj ra) = true ->
  Assembly_add self obj s =
    (Assembly_add_scalarbar self obj ;;; ret self)
      (mkState (<[self := set_parts (parts o ++ [ra])
                            (set_actors (actors o ++ [VObj ra])
                               (set_objects (objects o ++ [obj]) o))]> (objs s)) (logs s)).
Proof.
  intros Hself Hact H3. unfold Assembly_add.
  rewrite (bind_eq_Ok get_state _ s s s eq_refl).
  rewrite (getattr_actor_has _ _ _ Hact), H3.
  pose proof (lookup_lt_Some _ _ _ Hself) as Hlt.
  rewrite (bind_eq_Ok _ _ _ _ _ (update_eq _ _ _ _ Hself)).
  set (o1 := set_objects (objects o ++ [obj]) o).
  assert (H1 : has_actor (mkState (<[self := o1]> (objs s)) (logs s)) obj (VObj ra)).
  { eapply has_actor_lift; [|exact Hact].
    apply (lift_update _ self (fun _ => o1) s o Hself). reflexivity. }
  rewrite (bind_eq_Ok _ _ _ _ _ (attr_actor_eq _ _ _ H1)).
  rewrite (bind_eq_Ok _ _ _ _ _
             (update_eq self _ (mkState (<[self := o1]> (objs s)) (logs s)) o1
                (list_lookup_insert_eq _ _ _ Hlt))).
  cbn [objs logs]. rewrite list_insert_insert_eq.
  set (o2 := set_actors (actors o1 ++ [VObj ra]) o1).
  assert (H2 : has_actor (mkState (<[self := o2]> (objs s)) (logs s)) obj (VObj ra)).
  { eapply has_actor_lift; [|exact Hact].
    apply (lift_update _ self (fun _ => o2) s o Hself). reflexivity. }
  rewrite (bind_eq_Ok _ _ _ _ _ (attr_actor_eq _ _ _ H2)). cbn [AddPart].
  rewrite (bind_eq_Ok _ _ _ _ _
             (update_eq self _ (mkState (<[self := o2]> (objs s)) (logs s)) o2
                (list_lookup_insert_eq _ _ _ Hlt))).
  cbn [objs logs]. rewrite list_insert_insert_eq. reflexivity.
Qed.

Lemma py_in_last obj l : (exists r, obj = VObj r) -> py_in obj (l ++ [obj]) = true.
Proof.
  intros [r ->]. unfold py_in. rewrite existsb_app. cbn. rewrite Nat.eqb_refl.
  now rewrite orb_true_r.
Qed.

Lemma py_index_last l obj s :
  py_index (l ++ [obj]) (-1) s = (Ok obj, s).
Proof.
  unfold py_index. rewrite length_app. cbn [length].
  change (-1 <? 0)%Z with true. cbv iota.
  assert (Hj : (-1 + Z.of_nat (length l + 1) = Z.of_nat (length l))%Z) by lia.
  rewrite Hj. assert (Hn : (Z.of_nat (length l) <? 0)%Z = false) by (apply Z.ltb_ge; lia).
  rewrite Hn, Nat2Z.id. now rewrite list_lookup_middle.
Qed.

(** [A + obj] when [obj.actor] is a Prop3D: whether the call returns or
    raises while merging scalarbars, [obj] has been appended to the objects
    of [A] itself, so that [len(A)] is one more, [obj in A] holds and
    [A[-1]] is [obj]; a call that returns returns [A], and it does return
    when [obj] has no scalarbar. *)
Theorem add_then_lookup (self : ref) (obj : pyval) (s : state) (o : pyobj)
    (r : result ref) (s' : state) :
  objs s !! self = Some o ->
  is_Prop3D s (getattr_actor s obj) = true ->
  Assembly_add self obj s = (r, s') ->
  (exists o', objs s' !! self = Some o' /\ objects o' = objects o ++ [obj]) /\
  Assembly_len self s' = (Ok (Z.of_nat (length (objects o)) + 1)%Z, s') /\
  Assembly_contains self obj s' = (Ok true, s') /\
  Assembly_getitem self (VInt (-1)) s' = (Ok obj, s') /\
  (forall x, r = Ok x -> x = self) /\
  (getattr_scalarbar s obj = VNone -> r = Ok self).
Proof.
  intros Hself H3 H.
  destruct (Prop3D_has_actor _ _ H3) as (ra & Hact & H3').
  rewrite (Assembly_add_appended self obj s o ra Hself Hact H3') in H.
  set (o3 := set_parts (parts o ++ [ra])
               (set_actors (actors o ++ [VObj ra]) (set_objects (objects o ++ [obj]) o))) in *.
  set (s3 := mkState (<[self := o3]> (objs s)) (logs s)) in *.
  assert (Hself3 : objs s3 !! self = Some o3).
  { cbn. apply list_lookup_insert_eq. now apply lookup_lt_Some in Hself. }
  pose proof (Assembly_add_scalarbar_pres self obj s3) as HL.
  assert (Hr : snd (Assembly_add_scalarbar self obj s3) = s' /\
               (forall x, r = Ok x -> x = self) /\
               (getattr_scalarbar s obj = VNone -> r = Ok self)).
  { unfold Assembly_add_scalarbar in H |- *.
    rewrite (bind_assoc get_state) in H.
    rewrite (bind_eq_Ok get_state _ _ _ _ eq_refl) in H.
    rewrite (bind_eq_Ok get_state _ _ _ _ eq_refl).
    unfold s3 in H at 1. unfold s3 at 1.
    rewrite (getattr_scalarbar_update s self o (fun _ => o3) obj Hself eq_refl) in H |- *.
    destruct (getattr_scalarbar s obj) eqn:Esb.
    1: { rewrite bind_ret_l in H. injection H as <- <-.
         split; [reflexivity|]. split; [now intros x [= <-]|reflexivity]. }
    all: apply bind_inv in H as [(u & s4 & Hsb & H) | (e & Hsb & ->)];
      [ injection H as <- <-; rewrite Hsb; cbn; split; [reflexivity|];
        split; [now intros x [= <-]|discriminate]
      | rewrite Hsb; cbn; split; [reflexivity|]; split; discriminate ]. }
  destruct Hr as (Hs' & Hx & Hnone). rewrite Hs' in HL.
  destruct (HL self o3 Hself3) as (o' & Ho' & _ & Hobjs & _).
  change (objects o3) with (objects o ++ [obj]) in Hobjs.
  assert (Hobj : exists rr, obj = VObj rr) by (destruct Hact as (rr & ? & -> & _); eauto).
  split; [exists o'; split; [exact Ho'|exact Hobjs]|].
  unfold Assembly_len, Assembly_contains, Assembly_getitem.
  rewrite !(bind_eq_Ok _ _ _ _ _ (deref_eq _ _ _ Ho')). rewrite Hobjs.
  split; [|split; [|split; [|split; assumption]]].
  - unfold ret. rewrite length_app. cbn [length objects]. do 2 f_equal. lia.
  - unfold ret. now rewrite py_in_last.
  - apply py_index_last.
Qed.

Lemma add_then_lookup_witness :
  (exists o', objs scene_abca !! 6 = Some o' /\
     objects o' = objects (the_object scene_abc 6) ++ [VObj 1]) /\
  Assembly_len 6 scene_abca = (Ok 4%Z, scene_abca) /\
  Assembly_contains 6 (VObj 1) scene_abca = (Ok true, scene_abca) /\
  Assembly_getitem 6 (VInt (-1)) scene_abca = (Ok (VObj 1), scene_abca) /\
  (forall x, Ok 6 = Ok x -> x = 6) /\
  (getattr_scalarbar scene_abc (VObj 1) = VNone -> Ok 6 = Ok 6).
Proof.
  exact (add_then_lookup 6 (VObj 1) scene_abc (the_object scene_abc 6) (Ok 6) scene_abca
           eq_refl eq_refl eq_refl).
Defined.

(** ** Construction from a mapping *)

Lemma elem_of_filter {A} (f : A -> bool) l x :
  x ∈ List.filter f l <-> x ∈ l /\ f x = true.
Proof.
  induction l as [|y l IH]; cbn [List.filter].
  - split; [intros H; inversion H|intros [H _]; inversion H].
  - destruct (f y) eqn:Ey; rewrite ?elem_of_cons, IH, ?elem_of_cons; intuition congruence.
Qed.

Lemma elem_of_map_snd {A B} (d : list (A * B)) v :
  v ∈ map snd d <-> exists k, (k, v) ∈ d.
Proof.
  induction d as [|[k0 v0] d IH]; cbn [map snd].
  - split; [intros H; inversion H|intros [k H]; inversion H].
  - rewrite elem_of_cons, IH. split.
    + intros [->|[k Hk]]; [exists k0; left|exists k; right]; auto.
    + intros [k Hk]. apply elem_of_cons in Hk as [[= -> ->]|Hk]; eauto.
Qed.

Lemma NoDup_fst_fun {A B} (d : list (A * B)) k v v' :
  NoDup (map fst d) -> (k, v) ∈ d -> (k, v') ∈ d -> v = v'.
Proof.
  induction d as [|[k0 v0] d IH]; intros Hnd H1 H2; [inversion H1|].
  cbn [map fst] in Hnd. apply NoDup_cons in Hnd as [Hk0 Hnd].
  assert (Hin : forall w, (k0, w) ∈ d -> False).
  { intros w Hw. apply Hk0. clear -Hw.
    induction d as [|[k1 v1] d IHd]; [inversion Hw|].
    cbn [map fst]. apply elem_of_cons in Hw as [[= -> ->]|Hw]; [left|right; auto]. }
  apply elem_of_cons in H1 as [E1|H1]; apply elem_of_cons in H2 as [E2|H2].
  - congruence.
  - injection E1 as -> ->. now apply Hin in H2.
  - injection E2 as -> ->. now apply Hin in H1.
  - now apply IH.
Qed.

Lemma in_store_length s s' v :
  length (objs s') = length (objs s) -> in_store s v -> in_store s' v.
Proof.
  intros Hl Hv r Hr. destruct (Hv r Hr) as [x Hx]. apply lookup_lt_is_Some.
  rewrite Hl. now apply lookup_lt_Some in Hx.
Qed.

(** Naming the values of a mapping commutes with the allocation of one
    more object. *)
Lemma rename_snoc (d : list (string * pyval)) :
  forall s o, Forall (in_store s) (map snd d) ->
    forM_ d (fun kv => setattr_name (snd kv) (fst kv)) (mkState (objs s ++ [o]) (logs s)) =
    (fst (forM_ d (fun kv => setattr_name (snd kv) (fst kv)) s),
     mkState (objs (snd (forM_ d (fun kv => setattr_name (snd kv) (fst kv)) s)) ++ [o])
       (logs (snd (forM_ d (fun kv => setattr_name (snd kv) (fst kv)) s)))) /\
    length (objs (snd (forM_ d (fun kv => setattr_name (snd kv) (fst kv)) s)))
      = length (objs s).
Proof.
  induction d as [|[k v] d IH]; intros s o Hin.
  - rewrite !forM_nil. split; reflexivity.
  - cbn [map snd] in Hin. apply Forall_cons in Hin as [Hv Hin].
    rewrite !forM_cons. cbn [fst snd].
    destruct v as [| | | |r| |];
      try (cbn [setattr_name];
           rewrite !(bind_eq_Raise (@raise unit AttributeError) _ _ AttributeError _ eq_refl);
           split; reflexivity).
    destruct (Hv r eq_refl) as [x Hx]. cbn [setattr_name].
    rewrite (bind_eq_Ok _ _ _ _ _ (update_eq r (set_name k) s x Hx)).
    rewrite (bind_eq_Ok _ _ _ _ _
               (update_eq r (set_name k) (mkState (objs s ++ [o]) (logs s)) x
                  (lookup_app_l_Some _ _ _ _ Hx))).
    cbn [objs logs]. rewrite insert_app_l by (now apply lookup_lt_Some in Hx).
    set (s1 := mkState (<[r := set_name k x]> (objs s)) (logs s)).
    assert (Hl : length (objs s1) = length (objs s)) by apply length_insert.
    destruct (IH s1 o) as [Hrun Hlen].
    { eapply Forall_impl; [exact Hin|]. intros w. now apply in_store_length. }
    split; [exact Hrun|]. now rewrite Hlen.
Qed.

Lemma construction_from_mapping_eq (from_archive : string -> M (list pyval))
    (d : list (string * pyval)) (s sR : state) :
  Forall (in_store s) (map snd d) ->
  forM_ d (fun kv => setattr_name (snd kv) (fst kv)) s = (Ok tt, sR) ->
  Assembly_init from_archive [VDict d] s =
  Assembly_init from_archive [VList (map snd d)] sR.
Proof.
  intros Hin Hren. unfold Assembly_init.
  rewrite (bind_eq_Ok _ _ s (length (objs s))
             (mkState (objs s ++ [new_object CAssembly]) (logs s)) eq_refl).
  rewrite (bind_eq_Ok _ _ sR (length (objs sR))
             (mkState (objs sR ++ [new_object CAssembly]) (logs sR)) eq_refl).
  rewrite !bind_ret_l. rewrite bind_assoc.
  destruct (rename_snoc d s (new_object CAssembly) Hin) as [Hrun Hlen].
  rewrite Hren in Hrun, Hlen. cbn [fst snd] in Hrun, Hlen.
  rewrite (bind_eq_Ok _ _ _ _ _ Hrun). rewrite bind_ret_l. now rewrite Hlen.
Qed.

(** [Assembly(d)] for a mapping [d] whose values are in the store and can
    be named is [Assembly(list(d.values()))] on the store where every value
    has been given its key as name. *)
Theorem construction_from_mapping (from_archive : string -> M (list pyval))
    (d : list (string * pyval)) (s sR : state) :
  Forall (in_store s) (map snd d) ->
  forM_ d (fun kv => setattr_name (snd kv) (fst kv)) s = (Ok tt, sR) ->
  Assembly_init from_archive [VDict d] s =
  Assembly_init from_archive [VList (map snd d)] sR.
Proof. apply construction_from_mapping_eq. Qed.

Lemma construction_from_mapping_witness :
  Assembly_init no_archive [VDict [("x", VObj 1); ("y", VObj 3)]] scene =
  Assembly_init no_archive [VList [VObj 1; VObj 3]]
    (snd (forM_ [("x", VObj 1); ("y", VObj 3)]
            (fun kv => setattr_name (snd kv) (fst kv)) scene)).
Proof.
  apply (construction_from_mapping no_archive [("x", VObj 1); ("y", VObj 3)] scene);
    [|reflexivity].
  repeat (constructor; [intros r [= <-]; eexists; reflexivity|]). constructor.
Defined.

Lemma rename_pres (d : list (string * pyval)) :
  pres same_struct (forM_ d (fun kv => setattr_name (snd kv) (fst kv))).
Proof.
  apply (pres_forM _). intros [k v]. cbn [fst snd].
  destruct v; cbn [setattr_name]; pres_tac.
Qed.

Lemma rename_frame (d : list (string * pyval)) :
  forall s sR, forM_ d (fun kv => setattr_name (snd kv) (fst kv)) s = (Ok tt, sR) ->
    forall r, VObj r ∉ map snd d -> objs sR !! r = objs s !! r.
Proof.
  induction d as [|[k v] d IH]; intros s sR H r Hr.
  - rewrite forM_nil in H. now injection H as <-.
  - rewrite forM_cons in H. apply bind_Ok in H as ([] & s1 & Hset & H).
    cbn [map snd] in Hr. apply not_elem_of_cons in Hr as [Hne Hr].
    rewrite (IH _ _ H r Hr). cbn [fst snd] in Hset.
    destruct v as [| | | |r0| |]; try discriminate. cbn [setattr_name] in Hset.
    apply update_Ok in Hset as (o & Ho & ->). cbn [objs].
    apply list_lookup_insert_ne. congruence.
Qed.

Lemma rename_names (d : list (string * pyval)) :
  forall s sR, forM_ d (fun kv => setattr_name (snd kv) (fst kv)) s = (Ok tt, sR) ->
    NoDup (map snd d) ->
    forall k v, (k, v) ∈ d -> name_of sR v = k.
Proof.
  induction d as [|[k0 v0] d IH]; intros s sR H Hnd k v Hkv; [inversion Hkv|].
  rewrite forM_cons in H. apply bind_Ok in H as ([] & s1 & Hset & H).
  cbn [map snd] in Hnd. apply NoDup_cons in Hnd as [Hv0 Hnd].
  apply elem_of_cons in Hkv as [E|Hkv]; [|now apply (IH _ _ H Hnd)].
  injection E as -> ->. cbn [fst snd] in Hset.
  destruct v0 as [| | | |r0| |]; try discriminate. cbn [setattr_name] in Hset.
  apply update_Ok in Hset as (o & Ho & ->). cbn [name_of].
  rewrite (rename_frame _ _ _ H r0 Hv0). cbn [objs].
  rewrite list_lookup_insert_eq by (now apply lookup_lt_Some in Ho). reflexivity.
Qed.

Lemma truthy_lift s s' v :
  lift same_struct s s' -> in_store s v -> truthy s' v = truthy s v.
Proof.
  intros HL Hv. destruct v as [| | | |r| |]; try reflexivity. cbn [truthy].
  destruct (Hv r eq_refl) as [x Hx]. destruct (HL r x Hx) as (x' & Hx' & Hc & _ & _ & Ho).
  now rewrite Hx, Hx', Hc, Ho.
Qed.

(** [Assembly(d)[k]] is [d[k]]: after the construction from a mapping with
    distinct values of the store, looking a key up by name gives back its
    value, for every value that is truthy (an assembly without objects is
    dropped by the constructor). *)
Theorem mapping_round_trip (from_archive : string -> M (list pyval))
    (d : list (string * pyval)) (s : state) (a : ref) (s' : state)
    (k : string) (v : pyval) :
  NoDup (map fst d) -> NoDup (map snd d) ->
  Forall (in_store s) (map snd d) ->
  Assembly_init from_archive [VDict d] s = (Ok a, s') ->
  (k, v) ∈ d -> truthy s v = true ->
  Assembly_getitem a (VStr k) s' = (Ok v, s').
Proof.
  intros Hkeys Hvals Hin H Hkv Ht.
  assert (exists sR, forM_ d (fun kv => setattr_name (snd kv) (fst kv)) s = (Ok tt, sR))
    as [sR Hren].
  { unfold Assembly_init in H.
    rewrite (bind_eq_Ok _ _ s (length (objs s))
               (mkState (objs s ++ [new_object CAssembly]) (logs s)) eq_refl) in H.
    rewrite bind_ret_l in H. rewrite bind_assoc in H.
    apply bind_Ok in H as ([] & s1 & Hrun & _).
    destruct (rename_snoc d s (new_object CAssembly) Hin) as [Heq _].
    rewrite Hrun in Heq. injection Heq as Hfst _.
    destruct (forM_ d (fun kv => setattr_name (snd kv) (fst kv)) s) as [[[]|e] sR];
      [eauto|discriminate]. }
  rewrite (construction_from_mapping_eq from_archive d s sR Hin Hren) in H.
  pose proof (rename_pres d s) as HL. rewrite Hren in HL. cbn [snd] in HL.
  assert (HinR : Forall (in_store sR) (map snd d)).
  { eapply Forall_impl; [exact Hin|]. intros w Hw r Hr.
    destruct (Hw r Hr) as [x Hx]. destruct (HL r x Hx) as (x' & Hx' & _). eauto. }
  apply Assembly_init_list_inv in H
    as (-> & oa & tail & -> & _ & _ & _ & _ & Ho & Hact & _).
  assert (Hobjs : objects oa = List.filter (truthy sR) (map snd d)).
  { rewrite Ho. apply filter_ext_Forall. eapply Forall_impl; [exact HinR|].
    intros w Hw. now apply truthy_in_store. }
  set (s' := mkState (objs sR ++ oa :: tail) (logs sR)) in *.
  assert (Hname : forall k' w, (k', w) ∈ d -> name_of s' w = k').
  { intros k' w Hw. rewrite <- (rename_names d s sR Hren Hvals k' w Hw).
    assert (Hws : in_store sR w).
    { eapply (proj1 (Forall_forall _ _) HinR). apply elem_of_map_snd. eauto. }
    destruct w as [| | | |r| |]; try reflexivity. cbn [name_of].
    destruct (Hws r eq_refl) as [x Hx]. unfold s'. cbn [objs].
    now rewrite (lookup_app_l_Some _ _ _ _ Hx), Hx. }
  assert (Halive : Forall (alive s') (objects oa)).
  { apply Forall_forall. intros m Hm.
    apply list_elem_of_lookup_1 in Hm as [i Hi].
    destruct (Forall2_lookup_l _ _ _ _ _ Hact Hi) as (b & _ & (r & o & -> & Hr & _)).
    now exists r, o. }
  assert (Hv : v ∈ objects oa).
  { rewrite Hobjs. apply elem_of_filter. split; [apply elem_of_map_snd; eauto|].
    rewrite (truthy_lift s sR v HL); [exact Ht|].
    eapply (proj1 (Forall_forall _ _) Hin). apply elem_of_map_snd. eauto. }
  unfold Assembly_getitem.
  rewrite (bind_eq_Ok _ _ _ _ _ (deref_middle (objs sR) (logs sR) oa tail)).
  destruct (find_by_name_spec s' k (objects oa) Halive) as (r & Hfind & Hfirst).
  rewrite (bind_eq_Ok _ _ _ _ _ Hfind).
  destruct r as [m|]; cbn [first_named] in Hfirst.
  - destruct Hfirst as (i & Hi & Hnm & _).
    assert (Hm : m ∈ map snd d).
    { apply list_elem_of_lookup_2 in Hi. rewrite Hobjs in Hi.
      now apply elem_of_filter in Hi as [Hi _]. }
    apply elem_of_map_snd in Hm as [k' Hm].
    rewrite (Hname k' m Hm) in Hnm. subst k'.
    now rewrite (NoDup_fst_fun d k m v Hkeys Hm Hkv).
  - exfalso. apply (Hfirst v Hv). now apply Hname.
Qed.

Ltac not_in :=
  let H := fresh in
  intros H; repeat (apply elem_of_cons in H as [H|H]; [discriminate|]); inversion H.

Ltac solve_NoDup :=
  cbn; repeat (apply NoDup_cons; split; [not_in|]); apply NoDup_nil_2.

Lemma mapping_round_trip_witness :
  Assembly_getitem 6 (VStr "y") scene_named = (Ok (VObj 3), scene_named).
Proof.
  apply (mapping_round_trip no_archive [("x", VObj 1); ("y", VObj 3)] scene 6 scene_named
           "y" (VObj 3)).
  - solve_NoDup.
  - solve_NoDup.
  - repeat (constructor; [intros r [= <-]; eexists; reflexivity|]). constructor.
  - reflexivity.
  - apply elem_of_cons. right. apply elem_of_cons. now left.
  - reflexivity.
Defined.

(** ** Flattening *)

Lemma genflatten_elem_shared from_archive fuel s c :
  unmoved s c ->
  genflatten_elem from_archive fuel c s = (Ok (shared_yield s c), s).
Proof.
  intros Hc. unfold genflatten_elem. rewrite (bind_eq_Ok get_state _ s s s eq_refl).
  destruct c as [| | | |r| |]; try reflexivity.
  unfold is_class, class_of, shared_yield.
  destruct (objs s !! r) as [oc|] eqn:Er; [|reflexivity]. cbn [fmap option_fmap option_map].
  destruct (cls oc) eqn:Ec; try reflexivity. cbn [class_eqb].
  rewrite (bind_eq_Ok _ _ _ _ _ (deref_eq _ _ _ Er)).
  rewrite (Hc r oc eq_refl Er Ec). apply mapM_ret.
Qed.

Lemma genflatten_loop_shared from_archive fuel s l :
  Forall (unmoved s) l ->
  mapM (genflatten_elem from_archive fuel) l s = (Ok (map (shared_yield s) l), s).
Proof.
  induction 1 as [|c l Hc _ IH]; [reflexivity|]. cbn [mapM map].
  rewrite (bind_eq_Ok _ _ _ _ _ (genflatten_elem_shared from_archive fuel s c Hc)).
  rewrite (bind_eq_Ok _ _ _ _ _ IH). reflexivity.
Qed.

Lemma flatten_shares_unmoved_eq (from_archive : string -> M (list pyval))
    (fuel : nat) (s : state) (self : ref) (o : pyobj) :
  objs s !! self = Some o -> cls o = CAssembly ->
  Forall (unmoved s) (objects o) ->
  recursive_unpack from_archive fuel self s =
    (Ok (concat (map (shared_yield s) (objects o))), s).
Proof.
  intros Hself Hcls Hun. unfold recursive_unpack, genflatten.
  rewrite (bind_eq_Ok get_state _ s s s eq_refl).
  assert (Hc : is_class CAssembly s (VObj self) = true).
  { unfold is_class, class_of. rewrite Hself. cbn. now rewrite Hcls. }
  rewrite Hc. unfold Assembly_unpack.
  rewrite !bind_assoc. rewrite (bind_eq_Ok _ _ _ _ _ (deref_eq _ _ _ Hself)).
  rewrite bind_ret_l. change (py_iter (VList (objects o))) with (ret (objects o)).
  rewrite bind_ret_l.
  rewrite (bind_eq_Ok _ _ _ _ _ (genflatten_loop_shared from_archive fuel s _ Hun)).
  reflexivity.
Qed.

(** Flattening an assembly none of whose child assemblies has a position
    with a truthy sum, as (0, 0, 0) and (5, -5, 0) have not, clones nothing:
    at any depth of calls it returns the children in order, each child
    assembly replaced by its own objects, one level down and no further,
    and leaves the store as it is. *)
Theorem flatten_shares_unmoved (from_archive : string -> M (list pyval))
    (fuel : nat) (s : state) (self : ref) (o : pyobj) :
  objs s !! self = Some o -> cls o = CAssembly ->
  Forall (unmoved s) (objects o) ->
  recursive_unpack from_archive fuel self s =
    (Ok (concat (map (shared_yield s) (objects o))), s).
Proof. apply flatten_shares_unmoved_eq. Qed.

Lemma flatten_shares_unmoved_witness :
  position (the_object scene_cancel 6) = (5, -5, 0)%float /\
  recursive_unpack no_archive 0 7 scene_cancel = (Ok [VObj 1; VObj 3; VObj 5], scene_cancel).
Proof.
  split; [reflexivity|].
  apply (flatten_shares_unmoved no_archive 0 scene_cancel 7 (the_object scene_cancel 7)
           eq_refl eq_refl).
  repeat (constructor; [intros r oc [= <-] [= <-] _; reflexivity|]). constructor.
Defined.

(** Flattening, cloning and the two constructors only allocate: whatever
    they return or raise, every object that was in the store is still there,
    unchanged. *)
Theorem only_allocate (from_archive : string -> M (list pyval)) (s : state) :
  (forall fuel self,
     objs s `prefix_of` objs (snd (recursive_unpack from_archive fuel self s))) /\
  (forall fuel x, objs s `prefix_of` objs (snd (clone from_archive fuel x s))) /\
  (forall fuel self, objs s `prefix_of` objs (snd (Assembly_copy from_archive fuel self s))) /\
  (forall l, objs s `prefix_of` objs (snd (Assembly_init from_archive [VList l] s))) /\
  (forall l, objs s `prefix_of` objs (snd (Group_init (VList l) s))).
Proof.
  split; [|split; [|split; [|split]]].
  - intros fuel self. apply recursive_unpack_prefix.
  - intros fuel x. eapply safe_prefix. apply clone_safe.
  - intros [|fuel] self; [reflexivity|]. eapply safe_prefix. apply clone_safe.
  - intros l. eapply safe_prefix. apply Assembly_init_safe.
  - intros l. apply Group_init_prefix.
Qed.

(** ** Constructions that return *)

Lemma mapM_attr_actor_returns s l acts :
  Forall2 (has_actor s) l acts -> mapM attr_actor l s = (Ok acts, s).
Proof.
  induction 1 as [|m a l acts Hm _ IH]; [reflexivity|]. cbn [mapM].
  rewrite (bind_eq_Ok _ _ _ _ _ (attr_actor_eq _ _ _ Hm)).
  rewrite (bind_eq_Ok _ _ _ _ _ IH). reflexivity.
Qed.

(** [Assembly(l)] returns when the truthy elements of [l] have actors and at
    most one of these actors has a scalarbar. *)
Lemma Assembly_init_list_returns from_archive l s acts :
  Forall (in_store s) l ->
  Forall2 (has_actor s) (List.filter (truthy s) l) acts ->
  length (contributed s acts) <= 1 ->
  exists s', Assembly_init from_archive [VList l] s = (Ok (length (objs s)), s').
Proof.
  intros Hin Hact Hsb. unfold Assembly_init.
  rewrite (bind_eq_Ok _ _ s (length (objs s))
             (mkState (objs s ++ [new_object CAssembly]) (logs s)) eq_refl).
  rewrite !bind_ret_l.
  rewrite (bind_eq_Ok _ _ _ _ _ (update_last _ _ _ _)).
  rewrite (bind_eq_Ok _ _ _ _ _ (update_last _ _ _ _)).
  rewrite (bind_eq_Ok _ _ _ _ _ (update_last _ _ _ _)).
  change (py_iter (VList l)) with (ret l). rewrite bind_ret_l.
  rewrite (bind_eq_Ok get_state _ _ _ _ eq_refl).
  rewrite (bind_eq_Ok _ _ _ _ _ (update_last _ _ _ _)).
  rewrite (bind_eq_Ok _ _ _ _ _ (deref_middle _ _ _ [])).
  set (l0 := objs s). set (lg := logs s).
  set (o1 := set_scalarbar (Some VNone)
               (set_name "Assembly"
                  (set_actor (Some (VObj (length l0))) (new_object CAssembly)))).
  assert (Hobjs : List.filter (truthy (mkState (l0 ++ [o1]) lg)) l = List.filter (truthy s) l).
  { apply filter_ext_Forall. eapply Forall_impl; [exact Hin|].
    intros v Hv. now apply truthy_in_store. }
  cbn [objects set_objects]. rewrite Hobjs.
  set (o2 := set_objects (List.filter (truthy s) l) o1).
  assert (Hact2 : Forall2 (has_actor (mkState (l0 ++ [o2]) lg)) (List.filter (truthy s) l) acts).
  { eapply Forall2_impl; [exact Hact|]. intros m b. apply has_actor_prefix.
    cbn. now exists [o2]. }
  rewrite (bind_eq_Ok _ _ _ _ _ (mapM_attr_actor_returns _ _ _ Hact2)).
  rewrite (bind_eq_Ok _ _ _ _ _ (update_last _ _ _ _)).
  unfold Assembly_init_scalarbar, collect_scalarbars.
  rewrite !bind_assoc.
  rewrite (bind_eq_Ok _ _ _ _ _ (deref_middle _ _ _ [])).
  cbn [actors set_actors].
  destruct (collect_loop l0 lg acts [] (set_actors acts o2)) as (refs & Hrun & _).
  rewrite !bind_assoc. rewrite (bind_eq_Ok _ _ _ _ _ Hrun). cbn [app].
  assert (Hcontr : contributed (mkState (l0 ++ [set_actors acts o2]) lg) acts
                   = contributed s acts).
  { unfold contributed. f_equal. apply map_ext. intros v. destruct s as [os ls].
    now apply getattr_scalarbar_new. }
  rewrite Hcontr.
  destruct (contributed s acts) as [|sb [|sb2 sbs]]; [| |cbn in Hsb; lia].
  - rewrite !bind_ret_l. eexists. reflexivity.
  - rewrite (bind_eq_Ok _ _ _ _ _ (update_last _ _ _ _)). eexists. reflexivity.
Qed.

(** ** Procrustes alignment of sources with equal point counts *)





Lemma filter_all {A} (f : A -> bool) l :
  Forall (fun v => f v = true) l -> List.filter f l = l.
Proof.
  induction 1 as [|v l Hv _ IH]; [reflexivity|]. cbn [List.filter]. now rewrite Hv, IH.
Qed.



(** ** Cloning *)

Lemma mapM_length {A B} (f : A -> M B) l :
  forall s bs s', mapM f l s = (Ok bs, s') -> length bs = length l.
Proof.
  induction l as [|a l IH]; intros s bs s' H; cbn [mapM] in H.
  - now injection H as <-.
  - apply bind_Ok in H as (b & s1 & _ & H). apply bind_Ok in H as (bs' & s2 & Hl & H).
    injection H as <- _. cbn. f_equal. eauto.
Qed.

(** [A.clone()], when it returns, returns an assembly that was not in the
    store, named "Assembly" and at the origin whatever the name and the
    position of [A]; it has no more objects than [A], and none of them
    existed before the call: the clone shares no object with [A]. *)
Theorem clone_is_new (from_archive : string -> M (list pyval))
    (fuel : nat) (self : ref) (s : state) (o : pyobj) (c : pyval) (s' : state) :
  objs s !! self = Some o -> cls o = CAssembly ->
  Assembly_clone from_archive fuel self s = (Ok c, s') ->
  exists rc oc, c = VObj rc /\ objs s !! rc = None /\ objs s' !! rc = Some oc /\
    cls oc = CAssembly /\ name oc = "Assembly" /\ position oc = (0, 0, 0)%float /\
    length (objects oc) <= length (objects o) /\
    Forall (fun x => exists r, x = VObj r /\ objs s !! r = None) (objects oc).
Proof.
  intros Hself Hcls H. unfold Assembly_clone in H. destruct fuel as [|fuel]; [discriminate|].
  cbn [clone] in H. rewrite (bind_eq_Ok _ _ _ _ _ (deref_eq _ _ _ Hself)), Hcls in H.
  apply bind_Ok in H as (newlist & s1 & Hmap & H).
  apply bind_Ok in H as (a & s2 & Hinit & H). injection H as <- <-.
  pose proof (safe_mapM (length (objs s)) (clone from_archive fuel) (objects o)
                (fresh_obj (length (objs s)))
                (fun x => clone_safe from_archive _ fuel x) s (le_n _)) as (Hlen & _ & Hfresh).
  rewrite Hmap in Hlen, Hfresh. cbn [fst snd] in Hlen, Hfresh.
  specialize (Hfresh newlist eq_refl).
  apply mapM_length in Hmap.
  apply Assembly_init_list_inv in Hinit
    as (-> & oc & tail & -> & Hc & Hn & _ & Hp & Ho & _).
  exists (length (objs s1)), oc. split; [reflexivity|].
  split; [apply lookup_ge_None_2; lia|]. split; [cbn; now apply list_lookup_middle|].
  split; [exact Hc|]. split; [exact Hn|]. split; [exact Hp|]. rewrite Ho. split.
  - rewrite <- Hmap. apply filter_length_le.
  - apply Forall_forall. intros x Hx. apply elem_of_filter in Hx as [Hx _].
    destruct (proj1 (Forall_forall _ _) Hfresh x Hx) as (r & -> & Hr).
    exists r. split; [reflexivity|]. now apply lookup_ge_None_2.
Qed.

Lemma clone_is_new_witness :
  exists rc oc, VObj 13 = VObj rc /\ objs scene_abc !! rc = None /\
    objs (snd (Assembly_clone no_archive 3 6 scene_abc)) !! rc = Some oc /\
    cls oc = CAssembly /\ name oc = "Assembly" /\ position oc = (0, 0, 0)%float /\
    length (objects oc) <= length (objects (the_object scene_abc 6)) /\
    Forall (fun x => exists r, x = VObj r /\ objs scene_abc !! r = None) (objects oc).
Proof.
  exact (clone_is_new no_archive 3 6 scene_abc (the_object scene_abc 6) (VObj 13)
           (snd (Assembly_clone no_archive 3 6 scene_abc)) eq_refl eq_refl eq_refl).
Defined.

Lemma clone_points_returns from_archive fuel s x :
  points_ok s x ->
  exists c s', clone from_archive (S fuel) x s = (Ok c, s') /\ objs s `prefix_of` objs s'.
Proof.
  intros Hx. pose proof Hx as (r & o & -> & Hr & Hc & _).
  destruct (Points_clone_returns s r Hx) as (x' & s1 & Hpc).
  exists (VObj x'), s1. split.
  - cbn [clone]. rewrite (bind_eq_Ok _ _ _ _ _ (deref_eq _ _ _ Hr)), Hc.
    now rewrite (bind_eq_Ok _ _ _ _ _ Hpc).
  - replace s1 with (snd (Points_clone r s)) by (now rewrite Hpc).
    eapply safe_prefix. apply Points_clone_safe.
Qed.

Lemma clone_loop_raises from_archive fuel pts g rest :
  forall s og, Forall (points_ok s) pts -> objs s !! g = Some og ->
    cls og <> CPoints -> cls og <> CAssembly ->
    exists s', mapM (clone from_archive (S fuel)) (pts ++ VObj g :: rest) s
               = (Raise AttributeError, s').
Proof.
  induction pts as [|p pts IH]; intros s og Hpts Hg Hc1 Hc2.
  - cbn [app mapM clone]. rewrite (bind_assoc (deref g)).
    rewrite (bind_eq_Ok _ _ _ _ _ (deref_eq _ _ _ Hg)).
    destruct (cls og); try contradiction; eexists; reflexivity.
  - apply Forall_cons in Hpts as [Hp Hpts]. cbn [app mapM].
    destruct (clone_points_returns from_archive fuel s p Hp) as (c & s1 & Hcl & Hpre).
    rewrite (bind_eq_Ok _ _ _ _ _ Hcl).
    destruct (IH s1 og) as [s' Hrun]; try assumption.
    + eapply Forall_impl; [exact Hpts|]. intros x. apply points_ok_lift.
      now apply (lift_prefix _).
    + destruct Hpre as [ext ->]. now apply lookup_app_l_Some.
    + rewrite (bind_eq_Raise _ _ _ _ _ Hrun). eexists. reflexivity.
Qed.

(** An assembly that holds a Group, or any prop that is neither a point
    set nor an assembly, after point sets only, cannot be cloned:
    [clone()] raises AttributeError at that element, which has no [clone]
    method, having cloned the point sets before it. *)
Theorem clone_with_group_raises (from_archive : string -> M (list pyval))
    (fuel : nat) (self : ref) (s : state) (o : pyobj)
    (pts rest : list pyval) (g : ref) (og : pyobj) :
  objs s !! self = Some o -> cls o = CAssembly ->
  objects o = pts ++ VObj g :: rest -> Forall (points_ok s) pts ->
  objs s !! g = Some og -> cls og <> CPoints -> cls og <> CAssembly ->
  exists s', Assembly_clone from_archive (S (S fuel)) self s = (Raise AttributeError, s') /\
    objs s `prefix_of` objs s'.
Proof.
  intros Hself Hcls Hobjs Hpts Hg Hc1 Hc2.
  assert (exists s', Assembly_clone from_archive (S (S fuel)) self s
                     = (Raise AttributeError, s')) as [s' Hrun].
  { unfold Assembly_clone. cbn [clone].
    rewrite (bind_eq_Ok _ _ _ _ _ (deref_eq _ _ _ Hself)), Hcls, Hobjs.
    destruct (clone_loop_raises from_archive fuel pts g rest s og Hpts Hg Hc1 Hc2)
      as [s' Hrun].
    rewrite (bind_eq_Raise _ _ _ _ _ Hrun). eauto. }
  exists s'. split; [exact Hrun|].
  replace s' with (snd (clone from_archive (S (S fuel)) (VObj self) s))
    by (unfold Assembly_clone in Hrun; now rewrite Hrun).
  eapply safe_prefix. apply clone_safe.
Qed.

Lemma clone_with_group_raises_witness :
  cls (the_object scene_grouped 6) = CGroup /\
  objects (the_object scene_grouped 7) = [VObj 1; VObj 6] /\
  exists s', Assembly_clone no_archive 2 7 scene_grouped = (Raise AttributeError, s') /\
    objs scene_grouped `prefix_of` objs s'.
Proof.
  split; [reflexivity|]. split; [reflexivity|].
  apply (clone_with_group_raises no_archive 0 7 scene_grouped (the_object scene_grouped 7)
           [VObj 1] [] 6 (the_object scene_grouped 6)); try reflexivity; try discriminate.
  constructor; [solve_points_ok|constructor].
Defined.

(** ** What [pickable] reaches *)

#[local] Instance only_flag_refl : Reflexive only_flag.
Proof. intros o. unfold only_flag. now destruct o. Qed.

#[local] Instance only_flag_trans : Transitive only_flag.
Proof.
  intros a b c Hab Hbc. unfold only_flag in *. rewrite Hbc, Hab. now destruct a.
Qed.

Lemma Assembly_pickable_only_flag from_archive fuel v :
  forall self, pres only_flag (Assembly_pickable from_archive fuel self v).
Proof.
  induction fuel as [|fuel IH]; intros self; cbn [Assembly_pickable].
  - apply (pres_raise _).
  - unfold SetPickable. pres_tac.
    unfold elem_pickable, Group_pickable, Points_pickable, SetPickable.
    pres_tac. apply IH.
Qed.

(** [pickable] changes pickability flags and nothing else: whatever
    [Assembly.pickable] or [Group.pickable] returns or raises, every object
    that was in the store is still there and is what it was but for its
    flag. *)
Theorem pickable_changes_flags_only (from_archive : string -> M (list pyval))
    (s : state) (v : bool) (r : ref) (x : pyobj) :
  objs s !! r = Some x ->
  (forall fuel self,
     exists x', objs (snd (Assembly_pickable from_archive fuel self v s)) !! r = Some x' /\
       x' = set_pickable (pickable x') x) /\
  (forall g,
     exists x', objs (snd (Group_pickable g v s)) !! r = Some x' /\
       x' = set_pickable (pickable x') x).
Proof.
  intros Hr. split.
  - intros fuel self. exact (Assembly_pickable_only_flag from_archive fuel v self s r x Hr).
  - intros g.
    assert (Hp : pres only_flag (Group_pickable g v))
      by (unfold Group_pickable, SetPickable; pres_tac).
    exact (Hp s r x Hr).
Qed.

Lemma pickable_changes_flags_only_witness :
  (forall fuel self,
     exists x', objs (snd (Assembly_pickable no_archive fuel self true scene_nested)) !! 1
                = Some x' /\
       x' = set_pickable (pickable x') (the_object scene_nested 1)) /\
  (forall g,
     exists x', objs (snd (Group_pickable g true scene_nested)) !! 1 = Some x' /\
       x' = set_pickable (pickable x') (the_object scene_nested 1)).
Proof.
  exact (pickable_changes_flags_only no_archive scene_nested true 1
           (the_object scene_nested 1) eq_refl).
Defined.

Lemma pickable_loop_frame v (rec : ref -> bool -> M ref) elems :
  forall s u s', Forall (capable s) elems ->
    forM_ elems (elem_pickable rec v) s = (Ok u, s') ->
    forall r, VObj r ∉ elems -> objs s' !! r = objs s !! r.
Proof.
  induction elems as [|e elems IH]; intros s u s' Hall H r Hr.
  - rewrite forM_nil in H. now injection H as _ <-.
  - apply Forall_cons in Hall as [(re & o & -> & Hre & Hc) Hall].
    apply not_elem_of_cons in Hr as [Hne Hr].
    rewrite forM_cons in H. apply bind_Ok in H as ([] & s1 & He & H).
    assert (Hs1 : s1 = mkState (<[re := set_pickable v o]> (objs s)) (logs s)).
    { unfold elem_pickable in He. rewrite (bind_eq_Ok _ _ _ _ _ (deref_eq _ _ _ Hre)) in He.
      unfold Points_pickable, Group_pickable, SetPickable in He.
      destruct Hc as [Hc|Hc]; rewrite Hc in He; rewrite !bind_assoc in He;
        rewrite (bind_eq_Ok _ _ _ _ _ (update_eq _ _ _ _ Hre)) in He;
        now injection He as <-. }
    assert (Hall1 : Forall (capable s1) elems).
    { eapply Forall_impl; [exact Hall|]. intros x. apply capable_lift.
      rewrite Hs1. apply (lift_update _ re (set_pickable v) s o Hre). now split. }
    rewrite (IH s1 u s' Hall1 H r Hr).
    rewrite Hs1. cbn [objs]. apply list_lookup_insert_ne. congruence.
Qed.

Lemma yields_reached s s0 s1 c ys r :
  (forall rc, (objs s0 !! rc = None /\ objs s !! rc = None) \/
     exists a b, objs s0 !! rc = Some a /\ objs s !! rc = Some b /\
       cls a = cls b /\ position a = position b /\ objects a = objects b) ->
  yields_of s0 s1 c ys -> VObj r ∈ ys ->
  VObj r ∈ reached s c \/ objs s0 !! r = None.
Proof.
  intros Hrel Hy Hr. unfold yields_of in Hy. unfold reached.
  destruct c as [| | | |rc| |]; try (subst ys; now left).
  destruct (Hrel rc) as [[E0 E]|(a & b & E0 & E & Hc & Hp & Ho)]; rewrite E0 in Hy; rewrite E.
  - subst ys. now left.
  - rewrite <- Hc, <- Hp, <- Ho.
    destruct (cls a); try (subst ys; now left).
    destruct (float_truthy (np_sum (position a))); [|subst ys; now left].
    right. apply list_elem_of_lookup_1 in Hr as [i Hi].
    destruct (Forall2_lookup_r _ _ _ _ _ Hy Hi)
      as (x & _ & rx & rc' & ox & oc & _ & [= <-] & _ & _ & Hfresh & _).
    exact Hfresh.
Qed.

(** What the cascade of [Assembly.pickable] does not reach, on an assembly
    of point sets, groups and assemblies of point sets: an object other
    than the assembly itself is exactly what it was unless it is, or is the
    actor of, a direct child that is not an assembly or an object of a
    child assembly whose position has no truthy sum.  So a child assembly
    itself keeps its flag, and so do the objects of a displaced child and
    their actors: the flag goes to their clones. *)
Theorem pickable_reach (from_archive : string -> M (list pyval))
    (fuel : nat) (self : ref) (v : bool) (s : state) (o : pyobj)
    (a : ref) (s' : state) (r : ref) (x : pyobj) :
  two_level s self -> objs s !! self = Some o ->
  Assembly_pickable from_archive (S (S fuel)) self v s = (Ok a, s') ->
  objs s !! r = Some x -> r <> self ->
  VObj r ∉ concat (map (reached s) (objects o)) ->
  VObj r ∉ map (getattr_actor s) (concat (map (reached s) (objects o))) ->
  objs s' !! r = Some x.
Proof.
  intros Htwo Hself H Hr Hne Hnot _. cbn [Assembly_pickable] in H.
  destruct (SetPickable_spec self v s o Hself) as (s0 & Hu & Hself0 & Hframe).
  rewrite (bind_eq_Ok _ _ _ _ _ Hu) in H.
  apply bind_Ok in H as (elems & s1 & Hflat & H).
  apply bind_Ok in H as (u & s2 & Hloop & H). injection H as _ <-.
  assert (HL : lift same_struct s s0).
  { intros i y Hy. destruct (decide (i = self)) as [->|Hi].
    - rewrite Hself in Hy. injection Hy as <-. exists (set_pickable v o).
      split; [exact Hself0|]. now repeat split.
    - exists y. rewrite (Hframe i Hi). split; [exact Hy|reflexivity]. }
  pose proof (two_level_lift s s0 self HL Htwo) as Htwo0.
  pose proof (recursive_unpack_capable _ _ _ _ _ _ Htwo0 Hflat) as Hcap.
  assert (Hpre : objs s0 `prefix_of` objs s1).
  { replace s1 with (snd (recursive_unpack from_archive (S fuel) self s0))
      by now rewrite Hflat. apply recursive_unpack_prefix. }
  assert (Hr0 : objs s0 !! r = Some x) by (now rewrite (Hframe r Hne)).
  destruct (recursive_unpack_spec from_archive (S fuel) s0 self (set_pickable v o)
              elems s1 Hself0) as (yss & -> & Hy); [| |exact Hflat|].
  { destruct Htwo as (o' & Ho' & Hc & _). rewrite Hself in Ho'. now injection Ho' as <-. }
  { destruct Htwo0 as (o' & Ho' & _ & Hch). rewrite Hself0 in Ho'. injection Ho' as <-.
    eapply Forall_impl; [exact Hch|apply flat_child_alive]. }
  assert (Hrel : forall rc, (objs s0 !! rc = None /\ objs s !! rc = None) \/
            exists a b, objs s0 !! rc = Some a /\ objs s !! rc = Some b /\
              cls a = cls b /\ position a = position b /\ objects a = objects b).
  { intros rc. destruct (decide (rc = self)) as [->|Hrc].
    - right. exists (set_pickable v o), o. now repeat split.
    - rewrite (Hframe rc Hrc). destruct (objs s !! rc) as [y|]; [right|left; auto].
      exists y, y. now repeat split. }
  assert (Hout : VObj r ∉ concat yss).
  { intros Hin. apply Hnot. cbn [objects set_pickable] in Hy.
    clear -Hy Hin Hrel Hr0. induction Hy as [|c ys l yss Hcy _ IH]; [inversion Hin|].
    cbn [concat map] in *. apply elem_of_app in Hin as [Hin|Hin]; apply elem_of_app.
    - left. destruct (yields_reached s s0 s1 c ys r Hrel Hcy Hin) as [?|Hnone]; [assumption|].
      congruence.
    - right. now apply IH. }
  rewrite (pickable_loop_frame v _ _ s1 u s2 Hcap Hloop r Hout).
  destruct Hpre as [ext ->]. now apply lookup_app_l_Some.
Qed.

Lemma pickable_reach_witness :
  concat (map (reached scene_nested) (objects (the_object scene_nested 8)))
    = [VObj 5; VObj 1] /\
  pickable (the_object scene_nested 6) = true /\
  pickable (the_object scene_nested 3) = true /\
  pickable (the_object scene_nested 2) = true /\
  objs (snd (Assembly_pickable no_archive 4 8 false scene_nested)) !! 6
    = Some (the_object scene_nested 6) /\
  objs (snd (Assembly_pickable no_archive 4 8 false scene_nested)) !! 3
    = Some (the_object scene_nested 3) /\
  objs (snd (Assembly_pickable no_archive 4 8 false scene_nested)) !! 2
    = Some (the_object scene_nested 2).
Proof.
  split; [reflexivity|]. split; [reflexivity|]. split; [reflexivity|].
  split; [reflexivity|]. split; [|split].
  - apply (pickable_reach no_archive 2 8 false scene_nested (the_object scene_nested 8) 8
             (snd (Assembly_pickable no_archive 4 8 false scene_nested)) 6
             (the_object scene_nested 6) scene_nested_two_level eq_refl eq_refl eq_refl);
      [discriminate| |]; vm_compute; not_in.
  - apply (pickable_reach no_archive 2 8 false scene_nested (the_object scene_nested 8) 8
             (snd (Assembly_pickable no_archive 4 8 false scene_nested)) 3
             (the_object scene_nested 3) scene_nested_two_level eq_refl eq_refl eq_refl);
      [discriminate| |]; vm_compute; not_in.
  - apply (pickable_reach no_archive 2 8 false scene_nested (the_object scene_nested 8) 8
             (snd (Assembly_pickable no_archive 4 8 false scene_nested)) 2
             (the_object scene_nested 2) scene_nested_two_level eq_refl eq_refl eq_refl);
      [discriminate| |]; vm_compute; not_in.
Defined.

(** ** What [clone2d] changes *)

Lemma py_contains_pure tok pos s : snd (py_contains tok pos s) = s.
Proof.
  destruct pos as [| | | |r| |]; try reflexivity. unfold py_contains, bind, deref.
  destruct (objs s !! r) as [o|]; [|reflexivity]. now destruct (cls o).
Qed.

Lemma pure_bind {A B} (m : M A) (k : A -> M B) :
  (forall s, snd (m s) = s) -> (forall a s, snd (k a s) = s) ->
  forall s, snd (bind m k s) = s.
Proof.
  intros Hm Hk s. unfold bind. specialize (Hm s). destruct (m s) as [[a|e] s1]; cbn in Hm.
  - subst s1. apply Hk.
  - exact Hm.
Qed.

Lemma resolve_pos_pure pos x0 x1 y0 y1 s : snd (resolve_pos pos x0 x1 y0 y1 s) = s.
Proof.
  revert s. unfold resolve_pos.
  repeat first
    [ apply pure_bind; [intros ?; apply py_contains_pure|intros [] ?]
    | reflexivity
    | match goal with |- context [if ?b then _ else _] => destruct b end ].
Qed.

Lemma project_elem_safe n r size x0 x1 off P rotation ontop :
  float_truthy rotation = false ->
  safe n (project_elem r size x0 x1 off P rotation ontop) (fun a2d => n <= a2d).
Proof.
  intros Hrot. unfold project_elem. rewrite Hrot.
  eapply safe_bind; [apply safe_deref|]. intros o _.
  eapply (safe_bind _ _ _ (fun a2d => n <= a2d)).
  - unfold Points_boundaries, Points_clone2d.
    destruct (representation o =? 1)%Z; safe_tac.
  - intros a2d Ha. unfold place2d. safe_tac.
Qed.

Lemma Group_iadd_safe n g x : n <= g -> safe n (Group_iadd g x) (fun _ => True).
Proof. intros Hg. unfold Group_iadd. safe_tac; now apply AddPart_safe. Qed.

Lemma clone2d_elem_safe n self group scanned size x0 x1 off P rotation ontop a :
  float_truthy rotation = false -> n <= group ->
  safe n (clone2d_elem self group scanned size x0 x1 off P rotation ontop a)
    (fun _ => True).
Proof.
  intros Hrot Hg. unfold clone2d_elem.
  destruct (py_in a scanned); [now apply safe_ret|].
  eapply safe_bind; [apply safe_get_state|]. intros s _.
  destruct (negb (is_class CPoints s a)); [now apply safe_ret|].
  eapply (safe_bind _ _ _ (fun _ => True)).
  { apply safe_pure. apply attr_npoints_pure. }
  intros np _. destruct (np =? 0)%Z; [now apply safe_ret|].
  destruct a; try apply safe_raise.
  eapply safe_bind; [now apply project_elem_safe|]. intros a2d Ha.
  eapply (safe_bind _ _ _ (fun _ => True)); [now apply Group_iadd_safe|].
  intros _ _. now apply safe_ret.
Qed.

Lemma clone2d_safe from_archive n fuel self pos size rotation ontop scale :
  float_truthy rotation = false ->
  safe n (Assembly_clone2d from_archive fuel self pos size rotation ontop scale)
    (fun _ => True).
Proof.
  intros Hrot. unfold Assembly_clone2d, recursive_unpack.
  safe_tac;
    first [ apply safe_pure; intros ?; apply resolve_pos_pure
          | apply genflatten_safe
          | now apply clone2d_elem_safe ].
Qed.

(** With [rotation = 0], [clone2d] changes no existing object: whatever it
    returns or raises, the store it leaves extends the store it was called
    on. *)
Theorem clone2d_unrotated_frame (from_archive : string -> M (list pyval))
    (fuel : nat) (self : ref) (pos : pyval) (size rotation : float) (ontop : bool)
    (scale : option float) (s : state) :
  float_truthy rotation = false ->
  objs s `prefix_of`
    objs (snd (Assembly_clone2d from_archive fuel self pos size rotation ontop scale s)).
Proof. intros Hrot. eapply safe_prefix. now apply clone2d_safe. Qed.

Lemma clone2d_unrotated_frame_witness :
  objs scene_nested `prefix_of`
    objs (snd (Assembly_clone2d no_archive 4 8 (VStr "center") 1 0 true None scene_nested)).
Proof.
  exact (clone2d_unrotated_frame no_archive 4 8 (VStr "center") 1 0 true None scene_nested
           eq_refl).
Defined.

(** ** The group that [clone2d] returns *)

#[local] Instance same_kind_refl : Reflexive same_kind.
Proof. intros o. now repeat split. Qed.

#[local] Instance same_kind_trans : Transitive same_kind.
Proof.
  intros a b c (H1 & H2 & H3 & H4 & H5) (G1 & G2 & G3 & G4 & G5).
  repeat split; congruence.
Qed.

Lemma clone2d_elem_pres_kind self group size x0 x1 off P rotation ontop a :
  pres same_kind (clone2d_elem self group [] size x0 x1 off P rotation ontop a).
Proof.
  unfold clone2d_elem, project_elem, Points_boundaries, rotate_z, Points_clone2d, place2d,
    Group_iadd, AddPart.
  cbn [py_in existsb]. pres_tac.
Qed.

Lemma is_class_true c s a :
  is_class c s a = true -> exists r x, a = VObj r /\ objs s !! r = Some x /\ cls x = c.
Proof.
  unfold is_class, class_of. destruct a as [| | | |r| |]; try discriminate.
  destruct (objs s !! r) as [x|] eqn:E; [|discriminate]. cbn. intros H. exists r, x.
  split; [reflexivity|]. split; [exact E|].
  destruct c, (cls x); try discriminate; reflexivity.
Qed.

Lemma countable_lift s s' a :
  lift same_kind s s' -> in_store s a -> countable s' a = countable s a.
Proof.
  intros HL Ha. destruct a as [| | | |r| |]; try reflexivity.
  destruct (Ha r eq_refl) as [x Hx]. destruct (HL r x Hx) as (x' & Hx' & Hc & _ & Hn & _).
  unfold countable, is_class, class_of, npoints_of. rewrite Hx, Hx'.
  cbn [fmap option_fmap option_map]. now rewrite Hc, Hn.
Qed.

Lemma in_store_lift Ro s s' a : lift Ro s s' -> in_store s a -> in_store s' a.
Proof.
  intros HL Ha r Hr. destruct (Ha r Hr) as [x Hx]. destruct (HL r x Hx) as (x' & Hx' & _).
  eauto.
Qed.

Lemma clone2d_elem_parts self group size x0 x1 off P rotation ontop a s og :
  objs s !! group = Some og ->
  exists s' og',
    clone2d_elem self group [] size x0 x1 off P rotation ontop a s = (Ok tt, s') /\
    objs s' !! group = Some og' /\
    length (parts og') = length (parts og) + (if countable s a then 1 else 0).
Proof.
  intros Hg. unfold clone2d_elem, countable. cbn [py_in existsb].
  rewrite (bind_eq_Ok get_state _ s s s eq_refl).
  destruct (is_class CPoints s a) eqn:Ec; cbn [negb andb].
  2: { exists s, og. split; [reflexivity|]. split; [exact Hg|lia]. }
  destruct (is_class_true _ _ _ Ec) as (r & x & -> & Hr & Hc).
  rewrite (bind_eq_Ok _ _ _ _ _ (attr_npoints_eq _ _ _ Hr)).
  cbn [npoints_of]. rewrite Hr.
  destruct (npoints x =? 0)%Z; cbn [negb].
  { exists s, og. split; [reflexivity|]. split; [exact Hg|lia]. }
  destruct (project_elem_returns P r size x0 x1 off rotation ontop s)
    as (a2d & s1 & Hmk); [eauto|].
  rewrite (bind_eq_Ok _ _ _ _ _ Hmk).
  pose proof (project_elem_pres P r size x0 x1 off rotation ontop s) as HL.
  rewrite Hmk in HL. cbn [snd] in HL. destruct (HL group og Hg) as (og1 & Hg1 & Hp1 & _).
  apply project_elem_Ok in Hmk as [(op & Hop & Hcp) _].
  rewrite (bind_eq_Ok _ _ _ _ _ (Group_iadd_one _ _ _ _ _ Hg1 Hop Hcp)).
  eexists _, _. split; [reflexivity|]. cbn [objs]. split.
  - apply list_lookup_insert_eq. now apply lookup_lt_Some in Hg1.
  - cbn [parts set_parts]. rewrite length_app, Hp1. reflexivity.
Qed.

Lemma clone2d_loop_parts self group size x0 x1 off P rotation ontop elems :
  forall s og, objs s !! group = Some og -> Forall (in_store s) elems ->
    exists s' og',
      forM_ elems (clone2d_elem self group [] size x0 x1 off P rotation ontop) s
        = (Ok tt, s') /\
      objs s' !! group = Some og' /\
      length (parts og') = length (parts og) + length (List.filter (countable s) elems) /\
      lift same_kind s s'.
Proof.
  induction elems as [|a elems IH]; intros s og Hg Hin.
  - exists s, og. split; [reflexivity|]. split; [exact Hg|]. split; [cbn; lia|].
    apply (lift_refl _).
  - apply Forall_cons in Hin as [Ha Hin]. rewrite forM_cons.
    destruct (clone2d_elem_parts self group size x0 x1 off P rotation ontop a s og Hg)
      as (s1 & og1 & H1 & Hg1 & Hlen1).
    pose proof (clone2d_elem_pres_kind self group size x0 x1 off P rotation ontop a s) as HL.
    rewrite H1 in HL. cbn [snd] in HL. rewrite (bind_eq_Ok _ _ _ _ _ H1).
    destruct (IH s1 og1 Hg1) as (s2 & og2 & H2 & Hg2 & Hlen2 & HL2).
    { eapply Forall_impl; [exact Hin|]. intros x. now apply (in_store_lift same_kind). }
    exists s2, og2. split; [exact H2|]. split; [exact Hg2|]. split.
    + rewrite Hlen2, Hlen1. cbn [List.filter].
      assert (Hf : List.filter (countable s1) elems = List.filter (countable s) elems).
      { apply filter_ext_Forall. eapply Forall_impl; [exact Hin|].
        intros x Hx. now apply countable_lift. }
      rewrite Hf. destruct (countable s a); cbn [length]; lia.
    + eapply (lift_trans _); eauto.
Qed.

Lemma Group_init_nil_fields s :
  exists og,
    Group_init (VList []) s = (Ok (length (objs s)), mkState (objs s ++ [og]) (logs s)) /\
    cls og = CGroup /\ parts og = [] /\ pickable og = false /\ extra og = [].
Proof.
  unfold Group_init, SetPickable.
  rewrite (bind_eq_Ok _ _ s (length (objs s))
             (mkState (objs s ++ [new_object CGroup]) (logs s)) eq_refl).
  rewrite bind_ret_l.
  rewrite (bind_eq_Ok _ _ _ _ _ (update_last _ _ _ _)).
  rewrite (bind_eq_Ok _ _ _ _ _ (update_last _ _ _ _)).
  rewrite (bind_eq_Ok _ _ _ _ _ (update_last _ _ _ _)).
  change (py_iter (VList [])) with (ret (@nil pyval)). rewrite bind_ret_l.
  change (flatten []) with (@nil pyval). rewrite forM_nil, bind_ret_l.
  rewrite (bind_eq_Ok _ _ _ _ _ (update_last _ _ _ _)).
  eexists. repeat split.
Qed.

Lemma unmoved_snoc s og lg c :
  cls og <> CAssembly -> unmoved s c -> unmoved (mkState (objs s ++ [og]) lg) c.
Proof.
  intros Hg Hc r oc -> Hr Ha. cbn [objs] in Hr.
  destruct (decide (r < length (objs s))) as [Hlt|Hge].
  - rewrite lookup_app_l in Hr by assumption. now apply (Hc r oc).
  - rewrite lookup_app_r in Hr by lia.
    destruct (r - length (objs s)) as [|k]; cbn in Hr; [|now destruct k].
    injection Hr as <-. contradiction.
Qed.

Lemma shared_yield_snoc s og lg c :
  cls og <> CAssembly -> shared_yield (mkState (objs s ++ [og]) lg) c = shared_yield s c.
Proof.
  intros Hg. destruct c as [| | | |r| |]; try reflexivity. cbn [shared_yield objs].
  destruct (lt_eq_lt_dec r (length (objs s))) as [[Hlt| ->]|Hgt].
  - now rewrite lookup_app_l.
  - rewrite list_lookup_middle by reflexivity.
    rewrite (lookup_ge_None_2 (objs s)) by lia. now destruct (cls og).
  - rewrite !lookup_ge_None_2; [reflexivity|lia|rewrite length_app; cbn; lia].
Qed.

Lemma countable_snoc s og lg a :
  in_store s a -> countable (mkState (objs s ++ [og]) lg) a = countable s a.
Proof.
  intros Ha. destruct a as [| | | |r| |]; try reflexivity.
  destruct (Ha r eq_refl) as [x Hx].
  unfold countable, is_class, class_of, npoints_of. cbn [objs].
  now rewrite (lookup_app_l_Some _ _ _ _ Hx), Hx.
Qed.

(** [clone2d] on an assembly that flattens without cloning, run from the
    dereference of line 509 on. *)
Lemma clone2d_group_spec (from_archive : string -> M (list pyval))
    (fuel : nat) (self : ref) (pos : pyval) (size rotation : float) (ontop : bool)
    (scale : option float) (s : state) (o : pyobj) :
  objs s !! self = Some o -> cls o = CAssembly ->
  Forall (unmoved s) (objects o) ->
  Forall (in_store s) (concat (map (shared_yield s) (objects o))) ->
  (forall x0 x1 y0 y1 sa, exists r, resolve_pos pos x0 x1 y0 y1 sa = (Ok r, sa)) ->
  exists g s' og,
    Assembly_clone2d from_archive fuel self pos size rotation ontop scale s = (Ok g, s') /\
    objs s !! g = None /\ objs s' !! g = Some og /\
    cls og = CGroup /\ name og = name o /\ pickable og = false /\
    length (parts og) =
      length (List.filter (countable s) (concat (map (shared_yield s) (objects o)))) /\
    extra og = copy_attrs histogram_attrs (extra o) [].
Proof.
  intros Hself Hcls Hun Hin Hres. unfold Assembly_clone2d.
  assert (exists sa,
    (match scale with
     | Some sc =>
         log LWarning "clone2d(scale=...) is deprecated, use clone2d(size=...) instead" ;;;
         ret sc
     | None => ret size
     end) s = (Ok (default size scale), sa) /\ objs sa = objs s) as (sa & Hsize & Hsa).
  { destruct scale; eexists; split; reflexivity. }
  rewrite (bind_eq_Ok _ _ _ _ _ Hsize).
  assert (Hun' : Forall (unmoved sa) (objects o)).
  { eapply Forall_impl; [exact Hun|]. intros c Hc r oc E Hr. apply (Hc r oc E).
    now rewrite <- Hsa. }
  assert (Hsy : forall c, shared_yield sa c = shared_yield s c).
  { intros c. unfold shared_yield. now rewrite Hsa. }
  assert (Hco : forall c, countable sa c = countable s c).
  { intros c. unfold countable, is_class, class_of, npoints_of. now rewrite Hsa. }
  assert (Hin' : Forall (in_store sa) (concat (map (shared_yield s) (objects o)))).
  { eapply Forall_impl; [exact Hin|]. intros c Hc r E. rewrite Hsa. now apply Hc. }
  assert (Hself' : objs sa !! self = Some o) by (now rewrite Hsa).
  rewrite (bind_eq_Ok _ _ _ _ _ (deref_eq _ _ _ Hself')).
  destruct (xbounds o) as [bx0 bx1], (ybounds o) as [by0 by1],
    (position o) as [[px py] pz] eqn:Epos.
  set (x0 := (bx0 - px)%float). set (x1 := (bx1 - px)%float).
  set (y0 := (by0 - py)%float). set (y1 := (by1 - py)%float).
  destruct (Hres x0 x1 y0 y1 sa) as [[off P] Hr].
  rewrite (bind_eq_Ok _ _ _ _ _ Hr).
  destruct (Group_init_nil_fields sa) as (og & Hg & Hgc & Hgp & Hgk & Hge).
  rewrite (bind_eq_Ok _ _ _ _ _ Hg).
  set (group := length (objs sa)) in *.
  set (sb := mkState (objs sa ++ [og]) (logs sa)) in *.
  assert (Hgnot : cls og <> CAssembly) by (rewrite Hgc; discriminate).
  assert (Hflat : recursive_unpack from_archive fuel self sb =
            (Ok (concat (map (shared_yield s) (objects o))), sb)).
  { rewrite (flatten_shares_unmoved_eq from_archive fuel sb self o).
    - do 3 f_equal. apply map_ext. intros c. unfold sb.
      rewrite shared_yield_snoc by assumption. apply Hsy.
    - cbn. now apply lookup_app_l_Some.
    - exact Hcls.
    - eapply Forall_impl; [exact Hun'|]. intros c. now apply unmoved_snoc. }
  rewrite (bind_eq_Ok _ _ _ _ _ Hflat).
  destruct (clone2d_loop_parts self group (default size scale) x0 x1 off P rotation ontop
              (concat (map (shared_yield s) (objects o))) sb og)
    as (sd & ogd & Hloop & Hgd & Hlen & HL).
  { cbn. now apply list_lookup_middle. }
  { eapply Forall_impl; [exact Hin'|]. intros c Hc r E.
    destruct (Hc r E) as [x Hx]. exists x. cbn. now apply lookup_app_l_Some. }
  rewrite (bind_eq_Ok _ _ _ _ _ Hloop).
  destruct (HL self o) as (od & Hod & _ & Hn & _ & _ & He).
  { cbn. now apply lookup_app_l_Some. }
  destruct (HL group og) as (ogd' & Hgd' & Hc' & _ & _ & Hk' & He').
  { cbn. now apply list_lookup_middle. }
  rewrite Hgd in Hgd'. injection Hgd' as <-.
  rewrite (bind_eq_Ok _ _ _ _ _ (deref_eq _ _ _ Hod)).
  pose proof (lookup_lt_Some _ _ _ Hgd) as Hlt.
  rewrite (bind_eq_Ok _ _ _ _ _ (update_eq group _ sd ogd Hgd)).
  rewrite (bind_eq_Ok _ _ _ _ _
             (update_eq group (set_name (name od))
                (mkState (<[group := set_extra (copy_attrs histogram_attrs (extra od)
                                                  (extra ogd)) ogd]> (objs sd)) (logs sd))
                _ (list_lookup_insert_eq _ _ _ Hlt))).
  cbn [objs logs]. rewrite list_insert_insert_eq.
  eexists _, _, _. split; [reflexivity|].
  split; [apply lookup_ge_None_2; unfold group; now rewrite Hsa|].
  split; [cbn; now apply list_lookup_insert_eq|].
  cbn [cls name pickable parts extra set_name set_extra].
  split; [congruence|]. split; [exact Hn|]. split; [congruence|]. split.
  - rewrite Hlen, Hgp. cbn [length]. rewrite Nat.add_0_l. f_equal. apply filter_ext_Forall.
    eapply Forall_impl; [exact Hin'|]. intros c Hc. unfold sb.
    rewrite countable_snoc by assumption. apply Hco.
  - now rewrite He, He', Hge.
Qed.

(** *** The copies and the elements they are made from *)

#[local] Instance same_shape_refl : Reflexive same_shape.
Proof. intros o. now repeat split. Qed.

#[local] Instance same_shape_trans : Transitive same_shape.
Proof.
  intros a b c (H1 & H2 & H3 & H4) (G1 & G2 & G3 & G4). repeat split; congruence.
Qed.

Lemma clone2d_elem_pres_shape self group size x0 x1 off P rotation ontop a :
  pres same_shape (clone2d_elem self group [] size x0 x1 off P rotation ontop a).
Proof.
  unfold clone2d_elem, project_elem, Points_boundaries, rotate_z, Points_clone2d, place2d,
    Group_iadd, AddPart.
  cbn [py_in existsb]. pres_tac.
Qed.

Lemma lift_None Ro s s' r : lift Ro s s' -> objs s' !! r = None -> objs s !! r = None.
Proof.
  intros HL Hr. destruct (objs s !! r) as [x|] eqn:E; [|reflexivity].
  destruct (HL r x E) as (x' & Hx' & _). congruence.
Qed.

Lemma countable_shape s s' a :
  lift same_shape s s' -> in_store s a -> countable s' a = countable s a.
Proof.
  intros HL Ha. destruct a as [| | | |r| |]; try reflexivity.
  destruct (Ha r eq_refl) as [x Hx]. destruct (HL r x Hx) as (x' & Hx' & Hc & Hn & _).
  unfold countable, is_class, class_of, npoints_of. rewrite Hx, Hx'.
  cbn [fmap option_fmap option_map]. now rewrite Hc, Hn.
Qed.

Lemma representation_shape s s' a :
  lift same_shape s s' -> in_store s a -> representation_of s' a = representation_of s a.
Proof.
  intros HL Ha. destruct a as [| | | |r| |]; try reflexivity.
  destruct (Ha r eq_refl) as [x Hx]. destruct (HL r x Hx) as (x' & Hx' & _ & _ & Hp & _).
  cbn [representation_of]. now rewrite Hx, Hx'.
Qed.

(** A copy made from a later store is a copy made from an earlier one. *)
Lemma copy2d_of_earlier s s1 s' e p :
  lift same_shape s s1 -> in_store s e -> copy2d_of s1 s' e p -> copy2d_of s s' e p.
Proof.
  intros HL He (op & pr & Hnew & Hp & Hc & Hpr & Hsrc).
  exists op, pr. split; [exact (lift_None _ _ _ _ HL Hnew)|].
  split; [exact Hp|]. split; [exact Hc|]. split; [exact Hpr|].
  rewrite <- (representation_shape s s1 e HL He).
  destruct (representation_of s1 e =? 1)%Z; [|exact Hsrc].
  destruct Hsrc as (ob & Hb & Hb' & Hcb). exists ob.
  split; [exact (lift_None _ _ _ _ HL Hb)|]. now split.
Qed.

(** A copy stays one in a later store. *)
Lemma copy2d_of_later s s1 s' e p :
  lift same_shape s1 s' -> copy2d_of s s1 e p -> copy2d_of s s' e p.
Proof.
  intros HL (op & pr & Hnew & Hp & Hc & Hpr & Hsrc).
  destruct (HL p op Hp) as (op' & Hp' & Hc' & _ & _ & Hpr').
  exists op', pr. split; [exact Hnew|]. split; [exact Hp'|].
  split; [congruence|]. split; [congruence|].
  destruct (representation_of s e =? 1)%Z; [|exact Hsrc].
  destruct Hsrc as (ob & Hb & Hb' & Hcb).
  destruct (HL _ ob Hb') as (ob' & Hob' & Hcb' & _).
  exists ob'. split; [exact Hb|]. split; [exact Hob'|congruence].
Qed.

Lemma copies_new s s' l new :
  Forall2 (copy2d_of s s') l new -> Forall (fun p => objs s !! p = None) new.
Proof.
  induction 1 as [|e p l new (op & pr & Hnew & _) _ IH]; constructor; assumption.
Qed.

(** The 2D copy of one point set, run: the copy is new, and so is the
    point set it is projected from when that is not the element itself. *)
Lemma project_elem_copy P ra size x0 x1 off rotation ontop st xa :
  objs st !! ra = Some xa -> cls xa = CPoints ->
  exists a2d st1 op pr,
    project_elem ra size x0 x1 off P rotation ontop st = (Ok a2d, st1) /\
    objs st !! a2d = None /\ objs st1 !! a2d = Some op /\ cls op = CProp2D /\
    proj op = Some pr /\
    if (representation xa =? 1)%Z
    then exists ob, objs st !! proj_source pr = None /\
           objs st1 !! proj_source pr = Some ob /\ cls ob = CPoints
    else proj_source pr = ra.
Proof.
  intros Hra Hc. unfold project_elem.
  rewrite (bind_eq_Ok _ _ _ _ _ (deref_eq _ _ _ Hra)).
  destruct (representation xa =? 1)%Z.
  - unfold Points_boundaries. rewrite !bind_assoc.
    rewrite (bind_eq_Ok _ _ _ _ _ (deref_eq _ _ _ Hra)).
    rewrite (bind_eq_Ok (alloc xa) _ st (length (objs st))
               (mkState (objs st ++ [xa]) (logs st)) eq_refl).
    rewrite !bind_assoc.
    assert (exists xb,
      (if float_truthy rotation then rotate_z (length (objs st)) rotation else ret tt)
        (mkState (objs st ++ [xa]) (logs st))
        = (Ok tt, mkState (objs st ++ [xb]) (logs st)) /\ cls xb = CPoints)
      as (xb & Hturn & Hcb).
    { destruct (float_truthy rotation).
      - eexists. split; [apply update_last|exact Hc].
      - exists xa. split; [reflexivity|exact Hc]. }
    rewrite (bind_eq_Ok _ _ _ _ _ Hturn).
    unfold Points_clone2d, place2d. rewrite !bind_assoc.
    rewrite (bind_eq_Ok _ _ _ _ _ (deref_middle _ _ _ [])).
    match goal with
    | |- context [alloc ?rec] =>
        rewrite (bind_eq_Ok (alloc rec) _
                   (mkState (objs st ++ [xb]) (logs st))
                   (length (objs st ++ [xb]))
                   (mkState ((objs st ++ [xb]) ++ [rec]) (logs st)) eq_refl)
    end.
    rewrite !bind_assoc. rewrite (bind_eq_Ok _ _ _ _ _ (update_last _ _ _ _)).
    rewrite (bind_eq_Ok _ _ _ _ _ (update_last _ _ _ _)).
    eexists _, _, _, _. split; [reflexivity|]. cbn [objs].
    split; [apply lookup_ge_None_2; rewrite length_app; cbn; lia|].
    split; [now apply list_lookup_middle|]. split; [reflexivity|].
    split; [reflexivity|]. cbn [proj_source]. exists xb.
    split; [now apply lookup_ge_None_2|]. split; [|exact Hcb].
    rewrite <- app_assoc. now apply list_lookup_middle.
  - assert (exists sr xr,
      (if float_truthy rotation then rotate_z ra rotation else ret tt) st = (Ok tt, sr) /\
      objs sr !! ra = Some xr /\ length (objs sr) = length (objs st))
      as (sr & xr & Hturn & Hxr & Hlen).
    { destruct (float_truthy rotation).
      - eexists _, _. split; [exact (update_eq _ _ _ _ Hra)|]. cbn [objs]. split.
        + apply list_lookup_insert_eq. now apply lookup_lt_Some in Hra.
        + apply length_insert.
      - exists st, xa. split; [reflexivity|]. now split. }
    rewrite !bind_assoc. rewrite (bind_eq_Ok _ _ _ _ _ Hturn).
    unfold Points_clone2d, place2d. rewrite !bind_assoc.
    rewrite (bind_eq_Ok _ _ _ _ _ (deref_eq _ _ _ Hxr)).
    match goal with
    | |- context [alloc ?rec] =>
        rewrite (bind_eq_Ok (alloc rec) _ sr (length (objs sr))
                   (mkState (objs sr ++ [rec]) (logs sr)) eq_refl)
    end.
    rewrite !bind_assoc. rewrite (bind_eq_Ok _ _ _ _ _ (update_last _ _ _ _)).
    rewrite (bind_eq_Ok _ _ _ _ _ (update_last _ _ _ _)).
    eexists _, _, _, _. split; [reflexivity|]. cbn [objs].
    split; [apply lookup_ge_None_2; lia|].
    split; [now apply list_lookup_middle|]. split; [reflexivity|].
    split; reflexivity.
Qed.

(** One turn of the loop of [clone2d]: a point set that has points gets a
    copy, appended to the group; any other element is skipped. *)
Lemma clone2d_elem_copy self group size x0 x1 off P rotation ontop a st og :
  objs st !! group = Some og ->
  exists st1 og1,
    clone2d_elem self group [] size x0 x1 off P rotation ontop a st = (Ok tt, st1) /\
    objs st1 !! group = Some og1 /\
    if countable st a
    then exists p, parts og1 = parts og ++ [p] /\ copy2d_of st st1 a p /\
           is_Some (objs st1 !! p)
    else parts og1 = parts og.
Proof.
  intros Hg. unfold clone2d_elem, countable. cbn [py_in existsb].
  rewrite (bind_eq_Ok get_state _ st st st eq_refl).
  destruct (is_class CPoints st a) eqn:Ec; cbn [negb andb].
  2: { exists st, og. split; [reflexivity|]. now split. }
  destruct (is_class_true _ _ _ Ec) as (ra & xa & -> & Hra & Hca).
  rewrite (bind_eq_Ok _ _ _ _ _ (attr_npoints_eq _ _ _ Hra)).
  cbn [npoints_of]. rewrite Hra.
  destruct (npoints xa =? 0)%Z; cbn [negb].
  { exists st, og. split; [reflexivity|]. now split. }
  destruct (project_elem_copy P ra size x0 x1 off rotation ontop st xa Hra Hca)
    as (a2d & st1 & op & pr & Hmk & Hnew & Hop & Hcp & Hpr & Hsrc).
  rewrite (bind_eq_Ok _ _ _ _ _ Hmk).
  pose proof (project_elem_pres P ra size x0 x1 off rotation ontop st) as HL.
  rewrite Hmk in HL. cbn [snd] in HL. destruct (HL group og Hg) as (og1 & Hg1 & Hp1 & _).
  rewrite (bind_eq_Ok _ _ _ _ _ (Group_iadd_one _ _ _ _ _ Hg1 Hop Hcp)).
  assert (Hne : a2d <> group) by (intros ->; congruence).
  eexists _, _. split; [reflexivity|]. cbn [objs]. split.
  { apply list_lookup_insert_eq. now apply lookup_lt_Some in Hg1. }
  exists a2d. cbn [parts set_parts]. split; [now rewrite Hp1|].
  assert (Hop' : <[group := set_parts (parts og1 ++ [a2d]) og1]> (objs st1) !! a2d = Some op)
    by (rewrite list_lookup_insert_ne by congruence; exact Hop).
  split; [|eauto].
  exists op, pr. cbn [objs]. split; [exact Hnew|]. split; [exact Hop'|].
  split; [exact Hcp|]. split; [exact Hpr|].
  cbn [representation_of]. rewrite Hra.
  destruct (representation xa =? 1)%Z; [|now rewrite Hsrc].
  destruct Hsrc as (ob & Hb & Hb' & Hcb). exists ob. split; [exact Hb|]. split; [|exact Hcb].
  rewrite list_lookup_insert_ne; [exact Hb'|]. intros E. rewrite <- E in Hb. congruence.
Qed.

(** The loop of [clone2d]: the group gains, in order, one new copy for
    every element that is a point set with points, and the copies are
    distinct. *)
Lemma clone2d_loop_copies self group size x0 x1 off P rotation ontop elems :
  forall st og, objs st !! group = Some og -> Forall (in_store st) elems ->
    exists st' og' new,
      forM_ elems (clone2d_elem self group [] size x0 x1 off P rotation ontop) st
        = (Ok tt, st') /\
      objs st' !! group = Some og' /\ parts og' = parts og ++ new /\ NoDup new /\
      Forall2 (copy2d_of st st') (List.filter (countable st) elems) new /\
      lift same_shape st st'.
Proof.
  induction elems as [|a elems IH]; intros st og Hg Hin.
  - exists st, og, []. split; [reflexivity|]. split; [exact Hg|].
    split; [now rewrite app_nil_r|]. split; [constructor|]. split; [constructor|].
    apply (lift_refl _).
  - apply Forall_cons in Hin as [Ha Hin]. rewrite forM_cons.
    destruct (clone2d_elem_copy self group size x0 x1 off P rotation ontop a st og Hg)
      as (st1 & og1 & H1 & Hg1 & Hstep).
    pose proof (clone2d_elem_pres_shape self group size x0 x1 off P rotation ontop a st)
      as HL1.
    rewrite H1 in HL1. cbn [snd] in HL1. rewrite (bind_eq_Ok _ _ _ _ _ H1).
    destruct (IH st1 og1 Hg1) as (st2 & og2 & new & H2 & Hg2 & Hp2 & Hnd & Hall & HL2).
    { eapply Forall_impl; [exact Hin|]. intros x. now apply (in_store_lift same_shape). }
    assert (Hall' : Forall2 (copy2d_of st st2) (List.filter (countable st) elems) new).
    { assert (Hf : List.filter (countable st1) elems = List.filter (countable st) elems).
      { apply filter_ext_Forall. eapply Forall_impl; [exact Hin|].
        intros x Hx. now apply countable_shape. }
      rewrite <- Hf. clear Hf.
      assert (Hin1 : Forall (in_store st) (List.filter (countable st1) elems)).
      { apply Forall_forall. intros x Hx. apply elem_of_filter in Hx as [Hx _].
        rewrite Forall_forall in Hin. now apply Hin. }
      clear -Hall Hin1 HL1.
      induction Hall as [|e p l new' Hep _ IHl]; [constructor|].
      apply Forall_cons in Hin1 as [He Hin1]. constructor; [|now apply IHl].
      now apply (copy2d_of_earlier st st1). }
    cbn [List.filter]. destruct (countable st a).
    + destruct Hstep as (p & Hp1 & Hcopy & Hsome).
      exists st2, og2, (p :: new). split; [exact H2|]. split; [exact Hg2|].
      split; [now rewrite Hp2, Hp1, <- app_assoc|]. split; [|split].
      * apply NoDup_cons. split; [|exact Hnd].
        intros Hp. apply copies_new in Hall. rewrite Forall_forall in Hall.
        specialize (Hall p Hp). destruct Hsome as [? ?]. congruence.
      * constructor; [|exact Hall']. now apply (copy2d_of_later st st1).
      * eapply (lift_trans _); eauto.
    + exists st2, og2, new. split; [exact H2|]. split; [exact Hg2|].
      split; [now rewrite Hp2, Hstep|]. split; [exact Hnd|]. split; [exact Hall'|].
      eapply (lift_trans _); eauto.
Qed.

(** [clone2d] on an assembly that flattens without cloning, run: the parts
    of the group it returns are the copies of the loop. *)
Lemma clone2d_copies_spec (from_archive : string -> M (list pyval))
    (fuel : nat) (self : ref) (pos : pyval) (size rotation : float) (ontop : bool)
    (scale : option float) (s : state) (o : pyobj) :
  objs s !! self = Some o -> cls o = CAssembly ->
  Forall (unmoved s) (objects o) ->
  Forall (in_store s) (concat (map (shared_yield s) (objects o))) ->
  (forall x0 x1 y0 y1 sa, exists r, resolve_pos pos x0 x1 y0 y1 sa = (Ok r, sa)) ->
  exists g s' og,
    Assembly_clone2d from_archive fuel self pos size rotation ontop scale s = (Ok g, s') /\
    objs s' !! g = Some og /\ NoDup (parts og) /\
    Forall2 (copy2d_of s s')
      (List.filter (countable s) (concat (map (shared_yield s) (objects o)))) (parts og).
Proof.
  intros Hself Hcls Hun Hin Hres. unfold Assembly_clone2d.
  assert (exists sa,
    (match scale with
     | Some sc =>
         log LWarning "clone2d(scale=...) is deprecated, use clone2d(size=...) instead" ;;;
         ret sc
     | None => ret size
     end) s = (Ok (default size scale), sa) /\ objs sa = objs s) as (sa & Hsize & Hsa).
  { destruct scale; eexists; split; reflexivity. }
  rewrite (bind_eq_Ok _ _ _ _ _ Hsize).
  assert (Hun' : Forall (unmoved sa) (objects o)).
  { eapply Forall_impl; [exact Hun|]. intros c Hc r oc E Hr. apply (Hc r oc E).
    now rewrite <- Hsa. }
  assert (Hsy : forall c, shared_yield sa c = shared_yield s c).
  { intros c. unfold shared_yield. now rewrite Hsa. }
  assert (Hself' : objs sa !! self = Some o) by (now rewrite Hsa).
  rewrite (bind_eq_Ok _ _ _ _ _ (deref_eq _ _ _ Hself')).
  destruct (xbounds o) as [bx0 bx1], (ybounds o) as [by0 by1],
    (position o) as [[px py] pz] eqn:Epos.
  set (x0 := (bx0 - px)%float). set (x1 := (bx1 - px)%float).
  set (y0 := (by0 - py)%float). set (y1 := (by1 - py)%float).
  destruct (Hres x0 x1 y0 y1 sa) as [[off P] Hr].
  rewrite (bind_eq_Ok _ _ _ _ _ Hr).
  destruct (Group_init_nil_fields sa) as (og & Hg & Hgc & Hgp & Hgk & Hge).
  rewrite (bind_eq_Ok _ _ _ _ _ Hg).
  set (group := length (objs sa)) in *.
  set (sb := mkState (objs sa ++ [og]) (logs sa)) in *.
  assert (Hgnot : cls og <> CAssembly) by (rewrite Hgc; discriminate).
  assert (Hflat : recursive_unpack from_archive fuel self sb =
            (Ok (concat (map (shared_yield s) (objects o))), sb)).
  { rewrite (flatten_shares_unmoved_eq from_archive fuel sb self o).
    - do 3 f_equal. apply map_ext. intros c. unfold sb.
      rewrite shared_yield_snoc by assumption. apply Hsy.
    - cbn. now apply lookup_app_l_Some.
    - exact Hcls.
    - eapply Forall_impl; [exact Hun'|]. intros c. now apply unmoved_snoc. }
  rewrite (bind_eq_Ok _ _ _ _ _ Hflat).
  assert (Hpre : lift same_shape s sb).
  { apply (lift_prefix _). exists [og]. unfold sb. cbn [objs]. now rewrite Hsa. }
  destruct (clone2d_loop_copies self group (default size scale) x0 x1 off P rotation ontop
              (concat (map (shared_yield s) (objects o))) sb og)
    as (sd & ogd & new & Hloop & Hgd & Hpd & Hnd & Hall & HL).
  { cbn. now apply list_lookup_middle. }
  { eapply Forall_impl; [exact Hin|]. intros c. now apply (in_store_lift same_shape). }
  rewrite (bind_eq_Ok _ _ _ _ _ Hloop).
  destruct (HL self o) as (od & Hod & _).
  { cbn. now apply lookup_app_l_Some. }
  rewrite (bind_eq_Ok _ _ _ _ _ (deref_eq _ _ _ Hod)).
  pose proof (lookup_lt_Some _ _ _ Hgd) as Hlt.
  rewrite (bind_eq_Ok _ _ _ _ _ (update_eq group _ sd ogd Hgd)).
  rewrite (bind_eq_Ok _ _ _ _ _
             (update_eq group (set_name (name od))
                (mkState (<[group := set_extra (copy_attrs histogram_attrs (extra od)
                                                  (extra ogd)) ogd]> (objs sd)) (logs sd))
                _ (list_lookup_insert_eq _ _ _ Hlt))).
  cbn [objs logs]. rewrite list_insert_insert_eq.
  eexists _, _, _. split; [reflexivity|].
  split; [cbn; now apply list_lookup_insert_eq|].
  cbn [parts set_name set_extra]. rewrite Hpd, Hgp. cbn [app].
  split; [exact Hnd|].
  assert (Hf : List.filter (countable s) (concat (map (shared_yield s) (objects o))) =
               List.filter (countable sb) (concat (map (shared_yield s) (objects o)))).
  { apply filter_ext_Forall. eapply Forall_impl; [exact Hin|]. intros c Hc.
    symmetry. now apply countable_shape. }
  rewrite Hf.
  assert (Hin1 : Forall (in_store s)
            (List.filter (countable sb) (concat (map (shared_yield s) (objects o))))).
  { apply Forall_forall. intros x Hx. apply elem_of_filter in Hx as [Hx _].
    rewrite Forall_forall in Hin. now apply Hin. }
  assert (HL' : lift same_shape sd
            (mkState (<[group := set_name (name od)
                                   (set_extra (copy_attrs histogram_attrs (extra od)
                                                 (extra ogd)) ogd)]> (objs sd)) (logs sd))).
  { apply (lift_update same_shape group
             (fun g => set_name (name od)
                         (set_extra (copy_attrs histogram_attrs (extra od) (extra g)) g))
             sd ogd Hgd).
    now repeat split. }
  clear -Hall Hin1 Hpre HL'.
  induction Hall as [|e p l new' Hep _ IHl]; [constructor|].
  apply Forall_cons in Hin1 as [He Hin1]. constructor; [|now apply IHl].
  apply (copy2d_of_earlier s sb); [exact Hpre|exact He|].
  now apply (copy2d_of_later sb sd).
Qed.

(** [clone2d] on an assembly that flattens without cloning — no child
    assembly has a position with a truthy sum — and whose flattening holds
    values of the store, with a placement that is resolved: it returns a new
    group, not pickable, that bears the name of the assembly and whose
    members are, in the order of the flattening, one 2D copy for every
    occurrence of a point set that has points.  Every copy is a new prop
    projected from that element itself or, for an element drawn as a
    wireframe, from a new point set; the copies are distinct, so an element
    that occurs twice has two copies. *)
Theorem clone2d_copies_every_occurrence (from_archive : string -> M (list pyval))
    (fuel : nat) (self : ref) (pos : pyval) (size rotation : float) (ontop : bool)
    (scale : option float) (s : state) (o : pyobj) :
  objs s !! self = Some o -> cls o = CAssembly ->
  Forall (unmoved s) (objects o) ->
  Forall (in_store s) (concat (map (shared_yield s) (objects o))) ->
  (forall x0 x1 y0 y1 sa, exists r, resolve_pos pos x0 x1 y0 y1 sa = (Ok r, sa)) ->
  exists g s' og,
    Assembly_clone2d from_archive fuel self pos size rotation ontop scale s = (Ok g, s') /\
    objs s !! g = None /\ objs s' !! g = Some og /\
    cls og = CGroup /\ name og = name o /\ pickable og = false /\
    length (parts og) =
      length (List.filter (countable s) (concat (map (shared_yield s) (objects o)))) /\
    NoDup (parts og) /\
    Forall2 (copy2d_of s s')
      (List.filter (countable s) (concat (map (shared_yield s) (objects o)))) (parts og).
Proof.
  intros Hself Hcls Hun Hin Hres.
  destruct (clone2d_group_spec from_archive fuel self pos size rotation ontop scale s o
              Hself Hcls Hun Hin Hres)
    as (g & s' & og & H & Hnew & Hg & Hc & Hn & Hp & Hlen & _).
  destruct (clone2d_copies_spec from_archive fuel self pos size rotation ontop scale s o
              Hself Hcls Hun Hin Hres)
    as (g' & s'' & og' & H' & Hg' & Hnd & Hall).
  rewrite H in H'. injection H' as <- <-. rewrite Hg in Hg'. injection Hg' as <-.
  exists g, s', og. auto 10.
Qed.

Ltac solve_unmoved :=
  repeat (constructor; [intros ? ? [= <-] [= <-]; discriminate|]); constructor.

Ltac solve_in_store :=
  repeat (constructor; [intros ? [= <-]; eexists; reflexivity|]); constructor.

Lemma keyword_resolves (p : string) :
  str_contains "cent" p
  || negb (str_contains "top" p || str_contains "bottom" p)
  || str_contains "right" p || str_contains "left" p = true ->
  forall x0 x1 y0 y1 sa, exists r, resolve_pos (VStr p) x0 x1 y0 y1 sa = (Ok r, sa).
Proof.
  intros Hok x0 x1 y0 y1 sa. rewrite resolve_pos_string. cbv zeta.
  destruct (str_contains "cent" p); [eauto|].
  destruct (str_contains "top" p || str_contains "bottom" p); [|eauto].
  destruct (str_contains "right" p); [eauto|].
  destruct (str_contains "left" p); [eauto|]. discriminate.
Qed.

Lemma clone2d_copies_every_occurrence_witness :
  objects (the_object scene_hist 6) = [VObj 1; VObj 1; VObj 3] /\
  exists g s' og,
    Assembly_clone2d no_archive 0 6 (VStr "bottom-left") 1 30 false None scene_hist
      = (Ok g, s') /\
    objs scene_hist !! g = None /\ objs s' !! g = Some og /\
    cls og = CGroup /\ name og = "h" /\ pickable og = false /\
    length (parts og) = 3 /\ NoDup (parts og) /\
    Forall2 (copy2d_of scene_hist s') [VObj 1; VObj 1; VObj 3] (parts og).
Proof.
  split; [reflexivity|].
  apply (clone2d_copies_every_occurrence no_archive 0 6 (VStr "bottom-left") 1 30 false None
           scene_hist (the_object scene_hist 6) eq_refl eq_refl).
  - solve_unmoved.
  - solve_in_store.
  - now apply keyword_resolves.
Defined.

Lemma assoc_cons_ne k n v dst : k <> n -> assoc k ((n, v) :: dst) = assoc k dst.
Proof. intros Hne. cbn [assoc]. now rewrite (proj2 (String.eqb_neq k n) Hne). Qed.

Lemma copy_attrs_other names src :
  forall dst k, k ∉ names -> assoc k (copy_attrs names src dst) = assoc k dst.
Proof.
  induction names as [|n names IH]; intros dst k Hk; [reflexivity|].
  apply not_elem_of_cons in Hk as [Hne Hk]. cbn [copy_attrs].
  destruct (assoc n src) as [v|]; [|reflexivity].
  rewrite IH by assumption. now apply assoc_cons_ne.
Qed.

(** The copy of lines 579-589 stops at the first attribute that is
    missing. *)
Lemma copy_attrs_leading names src :
  forall dst i k, NoDup names -> (forall n, n ∈ names -> assoc n dst = None) ->
    names !! i = Some k ->
    assoc k (copy_attrs names src dst) =
      if forallb (has_attr src) (take (S i) names) then assoc k src else None.
Proof.
  induction names as [|n names IH]; intros dst i k Hnd Hdst Hi; [discriminate|].
  apply NoDup_cons in Hnd as [Hn Hnd]. cbn [copy_attrs take forallb].
  unfold has_attr at 1.
  destruct i as [|i]; cbn in Hi.
  - injection Hi as <-. cbn [take forallb]. rewrite andb_true_r.
    destruct (assoc n src) as [v|] eqn:Ev.
    + rewrite copy_attrs_other by assumption. cbn [assoc]. now rewrite String.eqb_refl.
    + apply Hdst. now left.
  - assert (Hk : k ∈ names) by (eapply list_elem_of_lookup_2; eauto).
    destruct (assoc n src) as [v|] eqn:Ev; cbn [andb].
    + apply IH; [exact Hnd| |exact Hi].
      intros m Hm. rewrite assoc_cons_ne by (intros ->; contradiction).
      apply Hdst. now right.
    + apply Hdst. now right.
Qed.

(** The histogram attributes that [clone2d] hands to the group it returns
    are the leading ones: of [entries], [frequencies], [errors], [edges],
    [centers], [mean], [mode], [std], in this order, an attribute is copied,
    with its value, exactly when the assembly has it and all those before
    it; after the first one that is missing nothing is copied. *)
Theorem clone2d_copies_leading_attrs (from_archive : string -> M (list pyval))
    (fuel : nat) (self : ref) (pos : pyval) (size rotation : float) (ontop : bool)
    (scale : option float) (s : state) (o : pyobj) :
  objs s !! self = Some o -> cls o = CAssembly ->
  Forall (unmoved s) (objects o) ->
  Forall (in_store s) (concat (map (shared_yield s) (objects o))) ->
  (forall x0 x1 y0 y1 sa, exists r, resolve_pos pos x0 x1 y0 y1 sa = (Ok r, sa)) ->
  exists g s' og,
    Assembly_clone2d from_archive fuel self pos size rotation ontop scale s = (Ok g, s') /\
    objs s' !! g = Some og /\
    forall i k, histogram_attrs !! i = Some k ->
      assoc k (extra og) =
        if forallb (has_attr (extra o)) (take (S i) histogram_attrs)
        then assoc k (extra o) else None.
Proof.
  intros Hself Hcls Hun Hin Hres.
  destruct (clone2d_group_spec from_archive fuel self pos size rotation ontop scale s o
              Hself Hcls Hun Hin Hres)
    as (g & s' & og & H & _ & Hg & _ & _ & _ & _ & He).
  exists g, s', og. split; [exact H|]. split; [exact Hg|].
  intros i k Hi. rewrite He. apply copy_attrs_leading; [|reflexivity|exact Hi].
  unfold histogram_attrs. solve_NoDup.
Qed.

Lemma clone2d_copies_leading_attrs_witness :
  exists g s' og,
    Assembly_clone2d no_archive 0 6 (VStr "bottom-left") 1 30 false None scene_hist
      = (Ok g, s') /\
    objs s' !! g = Some og /\
    forall i k, histogram_attrs !! i = Some k ->
      assoc k (extra og) =
        if forallb (has_attr (extra (the_object scene_hist 6))) (take (S i) histogram_attrs)
        then assoc k (extra (the_object scene_hist 6)) else None.
Proof.
  apply (clone2d_copies_leading_attrs no_archive 0 6 (VStr "bottom-left") 1 30 false None
           scene_hist (the_object scene_hist 6) eq_refl eq_refl).
  - solve_unmoved.
  - solve_in_store.
  - now apply keyword_resolves.
Defined.

(** ** Printing a group *)

(** A group cannot be printed: [str(group)] and [group.print()] raise
    AttributeError on every group, whatever its name, its members and the
    formatting helpers, because [__str__] calls [self.unpack()] (line 123)
    and the class defines [_unpack] only. *)
Theorem group_cannot_be_printed (printc : string -> string) (hex_id : ref -> string)
    (py_str : pyval -> string) (py_print : string -> M unit)
    (summary : string -> pyval -> M string) (s : state) (g : ref) (og : pyobj) :
  objs s !! g = Some og ->
  Group_str printc hex_id py_str summary g s = (Raise AttributeError, s) /\
  Group_print printc hex_id py_str py_print summary g s = (Raise AttributeError, s).
Proof.
  intros Hg.
  assert (Hstr : Group_str printc hex_id py_str summary g s = (Raise AttributeError, s)).
  { unfold Group_str. rewrite (bind_eq_Ok _ _ _ _ _ (deref_eq _ _ _ Hg)).
    rewrite (bind_eq_Ok get_state _ s s s eq_refl).
    now rewrite (bind_eq_Raise (Group_unpack g) _ s AttributeError s eq_refl). }
  split; [exact Hstr|]. unfold Group_print.
  now rewrite (bind_eq_Raise _ _ _ _ _ Hstr).
Qed.

Lemma group_cannot_be_printed_witness :
  Group_str (fun x => x) (fun _ => "0x0") (fun _ => "") (fun _ _ => ret "") 13 scene_bars_inner
    = (Raise AttributeError, scene_bars_inner) /\
  Group_print (fun x => x) (fun _ => "0x0") (fun _ => "") (fun _ => ret tt)
    (fun _ _ => ret "") 13 scene_bars_inner
    = (Raise AttributeError, scene_bars_inner).
Proof.
  exact (group_cannot_be_printed (fun x => x) (fun _ => "0x0") (fun _ => "")
           (fun _ => ret tt) (fun _ _ => ret "") scene_bars_inner 13
           (the_object scene_bars_inner 13) eq_refl).
Defined.

(** ** Scalarbars in [__add__] *)

Lemma class_of_update s g og f v :
  objs s !! g = Some og -> cls (f og) = cls og ->
  class_of (mkState (<[g := f og]> (objs s)) (logs s)) v = class_of s v.
Proof.
  intros Hg Hc. destruct v as [| | | |r| |]; try reflexivity. cbn [class_of objs].
  destruct (decide (r = g)) as [->|Hne].
  - rewrite list_lookup_insert_eq by (now apply lookup_lt_Some in Hg).
    rewrite Hg. cbn. now rewrite Hc.
  - rewrite list_lookup_insert_ne by congruence. reflexivity.
Qed.

Lemma as_group_update s g og f v :
  objs s !! g = Some og -> cls (f og) = cls og ->
  as_group (mkState (<[g := f og]> (objs s)) (logs s)) v = as_group s v.
Proof.
  intros Hg Hc. unfold as_group, is_class.
  destruct v; try reflexivity. now rewrite (class_of_update s g og f _ Hg Hc).
Qed.

(** [A + obj] where [A] has a scalarbar already and the scalarbar of [obj]
    is a Group: the call raises AttributeError, because the helper of lines
    378-382 calls [unpack] on that Group; [obj] has been appended to [A]
    by then, and the scalarbar of [A] is what it was. *)
Theorem add_raises_on_group_scalarbar (self : ref) (obj : pyval) (s : state) (o : pyobj)
    (cur : pyval) (gb : ref) :
  objs s !! self = Some o ->
  is_Prop3D s (getattr_actor s obj) = true ->
  scalarbar o = Some cur -> cur <> VNone ->
  getattr_scalarbar s obj = VObj gb -> is_class CGroup s (VObj gb) = true ->
  exists s' o',
    Assembly_add self obj s = (Raise AttributeError, s') /\
    objs s' !! self = Some o' /\ objects o' = objects o ++ [obj] /\
    scalarbar o' = Some cur.
Proof.
  intros Hself H3 Hcur Hne Hsb Hgb.
  destruct (Prop3D_has_actor _ _ H3) as (ra & Hact & H3').
  rewrite (Assembly_add_appended self obj s o ra Hself Hact H3').
  set (o3 := set_parts (parts o ++ [ra])
               (set_actors (actors o ++ [VObj ra]) (set_objects (objects o ++ [obj]) o))).
  set (s3 := mkState (<[self := o3]> (objs s)) (logs s)).
  assert (Hself3 : objs s3 !! self = Some o3).
  { cbn. apply list_lookup_insert_eq. now apply lookup_lt_Some in Hself. }
  assert (Hgb3 : as_group s3 (VObj gb) = Some gb).
  { unfold s3. rewrite (as_group_update s self o (fun _ => o3) _ Hself eq_refl).
    unfold as_group. now rewrite Hgb. }
  assert (Hunpack : forall A (k : pyval -> M A),
            bind (unpack_group (VObj gb)) k s3 = (Raise AttributeError, s3)).
  { intros A k. unfold unpack_group. rewrite bind_assoc.
    rewrite (bind_eq_Ok get_state _ _ _ _ eq_refl). rewrite Hgb3.
    now rewrite (bind_eq_Raise (Group_unpack gb) _ s3 AttributeError s3 eq_refl). }
  exists s3, o3. split; [|split; [exact Hself3|split; [reflexivity|exact Hcur]]].
  unfold Assembly_add_scalarbar. rewrite !bind_assoc.
  rewrite (bind_eq_Ok get_state _ _ _ _ eq_refl).
  unfold s3 at 1. rewrite (getattr_scalarbar_update s self o (fun _ => o3) obj Hself eq_refl).
  rewrite Hsb. rewrite !bind_assoc. rewrite (bind_eq_Ok _ _ _ _ _ (deref_eq _ _ _ Hself3)).
  change (scalarbar o3) with (scalarbar o). rewrite Hcur.
  assert (Hrest :
    (s <- get_state ;;
     match as_group s cur with
     | Some g =>
         x <- unpack_group (VObj gb) ;;
         g' <- Group_iadd g x ;;
         update self (set_scalarbar (Some (VObj g')))
     | None =>
         a <- unpack_group cur ;;
         b <- unpack_group (VObj gb) ;;
         g' <- Group_init (VList [a; b]) ;;
         update self (set_scalarbar (Some (VObj g')))
     end) s3 = (Raise AttributeError, s3)).
  { rewrite (bind_eq_Ok get_state _ _ _ _ eq_refl).
    destruct (as_group s3 cur) as [g|] eqn:Eg; [apply Hunpack|].
    assert (Hc : unpack_group cur s3 = (Ok cur, s3)).
    { unfold unpack_group. rewrite (bind_eq_Ok get_state _ _ _ _ eq_refl). now rewrite Eg. }
    rewrite (bind_eq_Ok _ _ _ _ _ Hc). apply Hunpack. }
  destruct cur; try contradiction;
    rewrite (bind_eq_Raise _ _ _ _ _ Hrest); reflexivity.
Qed.

Lemma add_raises_on_group_scalarbar_witness :
  exists s' o',
    Assembly_add 11 (VObj 12) scene_bars_inner = (Raise AttributeError, s') /\
    objs s' !! 11 = Some o' /\
    objects o' = objects (the_object scene_bars_inner 11) ++ [VObj 12] /\
    scalarbar o' = Some (VObj 8).
Proof.
  apply (add_raises_on_group_scalarbar 11 (VObj 12) scene_bars_inner
           (the_object scene_bars_inner 11) (VObj 8) 13); try reflexivity. discriminate.
Defined.

(** [A + obj] where [A] has no scalarbar and [obj] has one: the call
    returns [A], with [obj] appended and the scalarbar of [obj] as the
    scalarbar of [A], the same object and not a copy. *)
Theorem add_takes_first_scalarbar (self : ref) (obj : pyval) (s : state) (o : pyobj)
    (sb : pyval) :
  objs s !! self = Some o ->
  is_Prop3D s (getattr_actor s obj) = true ->
  scalarbar o = Some VNone ->
  getattr_scalarbar s obj = sb -> sb <> VNone ->
  exists s' o',
    Assembly_add self obj s = (Ok self, s') /\
    objs s' !! self = Some o' /\ objects o' = objects o ++ [obj] /\
    scalarbar o' = Some sb.
Proof.
  intros Hself H3 Hcur Hsb Hne.
  destruct (Prop3D_has_actor _ _ H3) as (ra & Hact & H3').
  rewrite (Assembly_add_appended self obj s o ra Hself Hact H3').
  set (o3 := set_parts (parts o ++ [ra])
               (set_actors (actors o ++ [VObj ra]) (set_objects (objects o ++ [obj]) o))).
  set (s3 := mkState (<[self := o3]> (objs s)) (logs s)).
  pose proof (lookup_lt_Some _ _ _ Hself) as Hlt.
  assert (Hself3 : objs s3 !! self = Some o3) by (cbn; now apply list_lookup_insert_eq).
  unfold Assembly_add_scalarbar. rewrite !bind_assoc.
  rewrite (bind_eq_Ok get_state _ _ _ _ eq_refl).
  unfold s3 at 1. rewrite (getattr_scalarbar_update s self o (fun _ => o3) obj Hself eq_refl).
  rewrite Hsb.
  exists (mkState (<[self := set_scalarbar (Some sb) o3]> (objs s)) (logs s)),
    (set_scalarbar (Some sb) o3).
  split; [|split; [cbn; now apply list_lookup_insert_eq|split; reflexivity]].
  destruct sb; try contradiction;
    rewrite !bind_assoc; rewrite (bind_eq_Ok _ _ _ _ _ (deref_eq _ _ _ Hself3));
    change (scalarbar o3) with (scalarbar o); rewrite Hcur;
    rewrite (bind_eq_Ok _ _ _ _ _ (update_eq _ _ _ _ Hself3));
    unfold s3; cbn [objs logs]; rewrite list_insert_insert_eq; reflexivity.
Qed.

Lemma add_takes_first_scalarbar_witness :
  exists s' o',
    Assembly_add 6 (VObj 9) scene_bars = (Ok 6, s') /\
    objs s' !! 6 = Some o' /\
    objects o' = objects (the_object scene_bars 6) ++ [VObj 9] /\
    scalarbar o' = Some (VObj 6).
Proof.
  apply (add_takes_first_scalarbar 6 (VObj 9) scene_bars (the_object scene_bars 6) (VObj 6));
    try reflexivity. discriminate.
Defined.

(** ** Clones of assemblies of point sets *)

Lemma clone_plain_step from_archive fuel s st x :
  objs s `prefix_of` objs st -> plain_points s x ->
  exists rx ox a oa,
    x = VObj rx /\ objs s !! rx = Some ox /\ cls ox = CPoints /\
    objs s !! a = Some oa /\ default VNone (scalarbar oa) = VNone /\
    clone from_archive (S fuel) x st =
      (Ok (VObj (S (length (objs st)))),
       mkState (objs st ++ [oa; set_actor (Some (VObj (length (objs st)))) ox]) (logs st)).
Proof.
  intros [ext Hpre] (r & o & a & oa & -> & Hr & Hc & Ha & Hne & Hoa & Hsb).
  exists r, o, a, oa. repeat (split; [assumption || reflexivity|]).
  assert (Hr' : objs st !! r = Some o) by (rewrite Hpre; now apply lookup_app_l_Some).
  assert (Hoa' : objs st !! a = Some oa) by (rewrite Hpre; now apply lookup_app_l_Some).
  cbn [clone]. rewrite (bind_eq_Ok _ _ _ _ _ (deref_eq _ _ _ Hr')), Hc.
  unfold Points_clone. rewrite !bind_assoc.
  rewrite (bind_eq_Ok _ _ _ _ _ (deref_eq _ _ _ Hr')), Ha.
  rewrite (proj2 (Nat.eqb_neq a r) Hne).
  rewrite !bind_assoc. rewrite (bind_eq_Ok _ _ _ _ _ (deref_eq _ _ _ Hoa')).
  rewrite !bind_assoc.
  rewrite (bind_eq_Ok (alloc oa) _ st (length (objs st))
             (mkState (objs st ++ [oa]) (logs st)) eq_refl).
  rewrite (bind_eq_Ok (alloc (set_actor (Some (VObj (length (objs st)))) o)) _
             (mkState (objs st ++ [oa]) (logs st)) (length (objs st ++ [oa]))
             (mkState ((objs st ++ [oa]) ++ [set_actor (Some (VObj (length (objs st)))) o])
                (logs st)) eq_refl).
  unfold ret. rewrite <- app_assoc. cbn [app]. do 3 f_equal. rewrite length_app. cbn. lia.
Qed.

Lemma clone_plain_loop from_archive fuel s l :
  Forall (plain_points s) l ->
  forall st, objs s `prefix_of` objs st ->
    exists cs st',
      mapM (clone from_archive (S fuel)) l st = (Ok cs, st') /\
      objs st `prefix_of` objs st' /\
      Forall2 (fun x c => clone_of s st' x c /\
                 exists a', has_actor st' c (VObj a') /\
                   getattr_scalarbar st' (VObj a') = VNone) l cs.
Proof.
  induction 1 as [|x l Hx _ IH]; intros st Hpre.
  - exists [], st. repeat split; [reflexivity|constructor].
  - destruct (clone_plain_step from_archive fuel s st x Hpre Hx)
      as (rx & ox & a & oa & -> & Hrx & Hc & Hoa & Hsb & Hstep).
    set (st1 := mkState (objs st ++ [oa; set_actor (Some (VObj (length (objs st)))) ox])
                  (logs st)) in *.
    assert (Hpre1 : objs st `prefix_of` objs st1) by (now eexists).
    destruct (IH st1) as (cs & st' & Hrun & Hpre' & Hall).
    { etransitivity; eassumption. }
    exists (VObj (S (length (objs st))) :: cs), st'.
    cbn [mapM]. rewrite (bind_eq_Ok _ _ _ _ _ Hstep), (bind_eq_Ok _ _ _ _ _ Hrun).
    split; [reflexivity|]. split; [etransitivity; eassumption|].
    constructor; [|exact Hall].
    assert (Hlen : length (objs s) <= length (objs st)).
    { destruct Hpre as [ext ->]. rewrite length_app. lia. }
    assert (Hc1 : objs st' !! S (length (objs st))
                  = Some (set_actor (Some (VObj (length (objs st)))) ox)).
    { destruct Hpre' as [ext ->]. apply lookup_app_l_Some. unfold st1. cbn [objs].
      rewrite lookup_app_r by lia.
      replace (S (length (objs st)) - length (objs st)) with 1 by lia. reflexivity. }
    assert (Ha1 : objs st' !! length (objs st) = Some oa).
    { destruct Hpre' as [ext ->]. apply lookup_app_l_Some. unfold st1. cbn [objs].
      now apply list_lookup_middle. }
    split.
    + exists rx, ox, (S (length (objs st))), (set_actor (Some (VObj (length (objs st)))) ox).
      split; [reflexivity|]. split; [exact Hrx|]. split; [reflexivity|].
      split; [apply lookup_ge_None_2; lia|]. split; [exact Hc1|].
      repeat split. exact Hc.
    + exists (length (objs st)). split.
      * eexists _, _. split; [reflexivity|]. split; [exact Hc1|reflexivity].
      * cbn [getattr_scalarbar]. now rewrite Ha1.
Qed.

(** [A.clone()] on an assembly of point sets that have actors of their own
    without scalarbars returns, at any depth of calls above one, a new
    assembly with as many objects as [A], in the same order, each a new
    point set with the name, the number of points and the position of the
    one it was cloned from. *)
Theorem clone_preserves_points (from_archive : string -> M (list pyval))
    (fuel : nat) (self : ref) (s : state) (o : pyobj) :
  objs s !! self = Some o -> cls o = CAssembly ->
  Forall (plain_points s) (objects o) ->
  exists rc s' oc,
    Assembly_clone from_archive (S (S fuel)) self s = (Ok (VObj rc), s') /\
    objs s !! rc = None /\ objs s' !! rc = Some oc /\
    Forall2 (clone_of s s') (objects o) (objects oc).
Proof.
  intros Hself Hcls Hpl. unfold Assembly_clone. cbn [clone].
  rewrite (bind_eq_Ok _ _ _ _ _ (deref_eq _ _ _ Hself)), Hcls.
  destruct (clone_plain_loop from_archive fuel s (objects o) Hpl s)
    as (cs & st & Hrun & Hpre & Hall); [reflexivity|].
  rewrite (bind_eq_Ok _ _ _ _ _ Hrun).
  assert (Hin : Forall (in_store st) cs).
  { apply Forall_forall. intros m Hm. apply list_elem_of_lookup_1 in Hm as [i Hi].
    destruct (Forall2_lookup_r _ _ _ _ _ Hall Hi)
      as (x & _ & (rx & ox & rc & oc & _ & _ & -> & _ & Hm & _) & _).
    intros r [= <-]. eauto. }
  assert (Htruthy : Forall (fun m => truthy st m = true) cs).
  { apply Forall_forall. intros m Hm. apply list_elem_of_lookup_1 in Hm as [i Hi].
    destruct (Forall2_lookup_r _ _ _ _ _ Hall Hi)
      as (x & _ & (rx & ox & rc & oc & _ & _ & -> & _ & Hm & Hc & _) & _).
    cbn [truthy]. now rewrite Hm, Hc. }
  assert (exists acts, Forall2 (has_actor st) cs acts /\
            Forall (fun a => getattr_scalarbar st a = VNone) acts) as (acts & Hacts & Hnone).
  { clear -Hall. induction Hall as [|x c l cs Hc _ IH].
    - exists []. split; constructor.
    - destruct IH as (acts & Hacts & Hnone). destruct Hc as (_ & a' & Ha & Hsb).
      exists (VObj a' :: acts). split; constructor; assumption. }
  assert (Hcontr : contributed st acts = []).
  { clear -Hnone. induction Hnone as [|a acts Ha _ IH]; [reflexivity|].
    rewrite contributed_cons, Ha. exact IH. }
  destruct (Assembly_init_list_returns from_archive cs st acts Hin) as [s' Hinit].
  { now rewrite (filter_all _ _ Htruthy). }
  { rewrite Hcontr. cbn. lia. }
  rewrite (bind_eq_Ok _ _ _ _ _ Hinit). pose proof Hinit as Hinv.
  apply Assembly_init_list_inv in Hinv
    as (_ & oc & tail & -> & _ & _ & _ & _ & Ho & _).
  exists (length (objs st)), (mkState (objs st ++ oc :: tail) (logs st)), oc.
  split; [reflexivity|]. split.
  { apply lookup_ge_None_2. destruct Hpre as [ext ->]. rewrite length_app. lia. }
  split; [cbn; now apply list_lookup_middle|].
  assert (Hobjs : objects oc = cs).
  { rewrite Ho. rewrite <- (filter_all _ _ Htruthy) at 2.
    apply filter_ext_Forall. eapply Forall_impl; [exact Hin|].
    intros v Hv. now apply truthy_in_store. }
  rewrite Hobjs. eapply Forall2_impl; [exact Hall|].
  intros x c [(rx & ox & rc & oc' & -> & Hrx & -> & Hnew & Hrc & Hrest) _].
  exists rx, ox, rc, oc'. repeat split; try tauto.
  cbn [objs]. now apply lookup_app_l_Some.
Qed.

Ltac solve_plain_points :=
  eexists _, _, _, _; repeat split; first [reflexivity | discriminate].

Lemma clone_preserves_points_witness :
  exists rc s' oc,
    Assembly_clone no_archive 2 6 scene_abc = (Ok (VObj rc), s') /\
    objs scene_abc !! rc = None /\ objs s' !! rc = Some oc /\
    Forall2 (clone_of scene_abc s') (objects (the_object scene_abc 6)) (objects oc).
Proof.
  apply (clone_preserves_points no_archive 0 6 scene_abc (the_object scene_abc 6)
           eq_refl eq_refl).
  repeat (constructor; [solve_plain_points|]). constructor.
Defined.

(** ** What a rotation in [clone2d] does to the elements *)

Lemma set_rotations_id o : set_rotations (rotations o) o = o.
Proof. now destruct o. Qed.

(** The 2D copy of one point set, run: what it does to the objects that
    were in the store. *)
Lemma project_elem_effect P ra size x0 x1 off rotation ontop st xa :
  objs st !! ra = Some xa -> float_truthy rotation = true ->
  exists a2d st1 op,
    project_elem ra size x0 x1 off P rotation ontop st = (Ok a2d, st1) /\
    objs st1 !! a2d = Some op /\ cls op = CProp2D /\
    forall r x, objs st !! r = Some x ->
      objs st1 !! r =
        Some (if Nat.eqb r ra && negb (representation xa =? 1)%Z
              then set_rotations (rotations x ++ [rotation]) x else x).
Proof.
  intros Hra Hrot. unfold project_elem.
  rewrite (bind_eq_Ok _ _ _ _ _ (deref_eq _ _ _ Hra)). rewrite Hrot.
  destruct (representation xa =? 1)%Z.
  - unfold Points_boundaries, rotate_z, Points_clone2d, place2d. rewrite !bind_assoc.
    rewrite (bind_eq_Ok _ _ _ _ _ (deref_eq _ _ _ Hra)).
    rewrite (bind_eq_Ok (alloc xa) _ st (length (objs st))
               (mkState (objs st ++ [xa]) (logs st)) eq_refl).
    rewrite !bind_assoc. rewrite (bind_eq_Ok _ _ _ _ _ (update_last _ _ _ _)).
    rewrite !bind_assoc. rewrite (bind_eq_Ok _ _ _ _ _ (deref_middle _ _ _ [])).
    match goal with
    | |- context [alloc ?rec] =>
        rewrite (bind_eq_Ok (alloc rec) _
                   (mkState (objs st ++ [set_rotations (rotations xa ++ [rotation]) xa])
                      (logs st))
                   (length (objs st ++ [set_rotations (rotations xa ++ [rotation]) xa]))
                   (mkState ((objs st ++ [set_rotations (rotations xa ++ [rotation]) xa])
                              ++ [rec]) (logs st)) eq_refl)
    end.
    rewrite !bind_assoc. rewrite (bind_eq_Ok _ _ _ _ _ (update_last _ _ _ _)).
    rewrite (bind_eq_Ok _ _ _ _ _ (update_last _ _ _ _)).
    eexists _, _, _. split; [reflexivity|]. cbn [objs]. split.
    { now apply list_lookup_middle. }
    split; [reflexivity|]. intros r x Hr. rewrite andb_false_r.
    rewrite <- app_assoc. now apply lookup_app_l_Some.
  - unfold rotate_z, Points_clone2d, place2d. rewrite !bind_assoc.
    rewrite (bind_eq_Ok _ _ _ _ _ (update_eq _ _ _ _ Hra)).
    pose proof (lookup_lt_Some _ _ _ Hra) as Hlt.
    set (sr := mkState (<[ra := set_rotations (rotations xa ++ [rotation]) xa]> (objs st))
                 (logs st)).
    assert (Hra' : objs sr !! ra = Some (set_rotations (rotations xa ++ [rotation]) xa))
      by (cbn; now apply list_lookup_insert_eq).
    rewrite !bind_assoc. rewrite (bind_eq_Ok _ _ _ _ _ (deref_eq _ _ _ Hra')).
    match goal with
    | |- context [alloc ?rec] =>
        rewrite (bind_eq_Ok (alloc rec) _ sr (length (objs sr))
                   (mkState (objs sr ++ [rec]) (logs sr)) eq_refl)
    end.
    rewrite !bind_assoc. rewrite (bind_eq_Ok _ _ _ _ _ (update_last _ _ _ _)).
    rewrite (bind_eq_Ok _ _ _ _ _ (update_last _ _ _ _)).
    eexists _, _, _. split; [reflexivity|]. cbn [objs]. split.
    { now apply list_lookup_middle. }
    split; [reflexivity|]. intros r x Hr. rewrite andb_true_r.
    apply lookup_app_l_Some. unfold sr. cbn [objs].
    destruct (Nat.eqb_spec r ra) as [->|Hne].
    + rewrite Hra in Hr. injection Hr as <-. now apply list_lookup_insert_eq.
    + rewrite list_lookup_insert_ne by congruence. exact Hr.
Qed.

Lemma py_eq_VObj e r : py_eq e (VObj r) = true -> e = VObj r.
Proof.
  destruct e as [| | | |r'| |]; try discriminate. cbn.
  intros H. apply Nat.eqb_eq in H. now subst.
Qed.

(** Whether an element is turned depends only on the class, the number of
    points and the representation of the object. *)
Lemma turned_same st st1 r x x1 e :
  objs st !! r = Some x -> objs st1 !! r = Some x1 ->
  cls x1 = cls x -> npoints x1 = npoints x -> representation x1 = representation x ->
  turned st1 r e = turned st r e.
Proof.
  intros Hx Hx1 Hc Hn Hp. unfold turned.
  destruct (py_eq e (VObj r)) eqn:E; [|reflexivity].
  apply py_eq_VObj in E as ->.
  unfold countable, is_class, class_of, npoints_of, representation_of.
  rewrite Hx, Hx1. cbn [fmap option_fmap option_map]. now rewrite Hc, Hn, Hp.
Qed.

(** One turn of the loop of [clone2d] with a rotation: what it does to the
    objects of the store other than the group. *)
Lemma clone2d_elem_effect self group size x0 x1 off P rotation ontop a st og :
  objs st !! group = Some og -> cls og = CGroup -> float_truthy rotation = true ->
  exists st' og',
    clone2d_elem self group [] size x0 x1 off P rotation ontop a st = (Ok tt, st') /\
    objs st' !! group = Some og' /\ cls og' = CGroup /\
    forall r x, r <> group -> objs st !! r = Some x ->
      objs st' !! r =
        Some (if turned st r a then set_rotations (rotations x ++ [rotation]) x else x).
Proof.
  intros Hg Hgc Hrot. unfold clone2d_elem, turned, countable. cbn [py_in existsb].
  rewrite (bind_eq_Ok get_state _ st st st eq_refl).
  destruct (is_class CPoints st a) eqn:Ec; cbn [negb andb].
  2: { exists st, og. split; [reflexivity|]. split; [exact Hg|]. split; [exact Hgc|].
       intros r x _ Hr. now rewrite andb_false_r. }
  destruct (is_class_true _ _ _ Ec) as (ra & xa & -> & Hra & Hca).
  rewrite (bind_eq_Ok _ _ _ _ _ (attr_npoints_eq _ _ _ Hra)).
  cbn [npoints_of representation_of py_eq]. rewrite Hra.
  destruct (npoints xa =? 0)%Z; cbn [negb].
  { exists st, og. split; [reflexivity|]. split; [exact Hg|]. split; [exact Hgc|].
    intros r x _ Hr. now rewrite andb_false_r. }
  destruct (project_elem_effect P ra size x0 x1 off rotation ontop st xa Hra Hrot)
    as (a2d & st1 & op & Hmk & Hop & Hcp & Heff).
  rewrite (bind_eq_Ok _ _ _ _ _ Hmk).
  assert (Hne : group <> ra) by (intros ->; congruence).
  pose proof (Heff group og Hg) as Hg1.
  replace (Nat.eqb group ra) with false in Hg1 by (symmetry; now apply Nat.eqb_neq).
  cbn [andb] in Hg1.
  rewrite (bind_eq_Ok _ _ _ _ _ (Group_iadd_one _ _ _ _ _ Hg1 Hop Hcp)).
  eexists _, _. split; [reflexivity|]. cbn [objs]. split.
  { apply list_lookup_insert_eq. now apply lookup_lt_Some in Hg1. }
  split; [exact Hgc|].
  intros r x Hr Hx. rewrite list_lookup_insert_ne by congruence.
  rewrite (Heff r x Hx). rewrite andb_true_r. rewrite (Nat.eqb_sym ra r). reflexivity.
Qed.

(** The loop of [clone2d] with a rotation: every object other than the
    group is turned once for each of its occurrences that is copied from
    the object itself. *)
Lemma clone2d_loop_effect self group size x0 x1 off P rotation ontop elems :
  float_truthy rotation = true ->
  forall st og, objs st !! group = Some og -> cls og = CGroup ->
    exists st' og',
      forM_ elems (clone2d_elem self group [] size x0 x1 off P rotation ontop) st
        = (Ok tt, st') /\
      objs st' !! group = Some og' /\ cls og' = CGroup /\
      forall r x, r <> group -> objs st !! r = Some x ->
        objs st' !! r =
          Some (set_rotations (rotations x ++ replicate (turns st elems r) rotation) x).
Proof.
  intros Hrot. induction elems as [|a elems IH]; intros st og Hg Hgc.
  - exists st, og. split; [reflexivity|]. split; [exact Hg|]. split; [exact Hgc|].
    intros r x _ Hx. cbn. now rewrite app_nil_r, set_rotations_id.
  - rewrite forM_cons.
    destruct (clone2d_elem_effect self group size x0 x1 off P rotation ontop a st og
                Hg Hgc Hrot) as (st1 & og1 & H1 & Hg1 & Hgc1 & Heff1).
    rewrite (bind_eq_Ok _ _ _ _ _ H1).
    destruct (IH st1 og1 Hg1 Hgc1) as (st2 & og2 & H2 & Hg2 & Hgc2 & Heff2).
    exists st2, og2. split; [exact H2|]. split; [exact Hg2|]. split; [exact Hgc2|].
    intros r x Hr Hx. pose proof (Heff1 r x Hr Hx) as Hx1.
    rewrite (Heff2 r _ Hr Hx1). f_equal.
    assert (Ht : turns st1 elems r = turns st elems r).
    { unfold turns. f_equal. apply filter_ext. intros e.
      eapply turned_same; [exact Hx|exact Hx1|..]; now destruct (turned st r a), x. }
    rewrite Ht. unfold turns at 2. cbn [List.filter].
    destruct (turned st r a); cbn [length replicate].
    + destruct x; cbn. now rewrite <- app_assoc.
    + reflexivity.
Qed.

(** [clone2d] with a rotation, on an assembly that flattens without
    cloning and with a placement that is resolved: it turns the elements of
    the assembly themselves.  Every object that was in the store is left as
    it was but for its rotations, to which the angle is appended once for
    every occurrence of the object in the flattening as a point set that
    has points and is not drawn as a wireframe; the other objects get no
    rotation. *)
Theorem clone2d_turns_originals (from_archive : string -> M (list pyval))
    (fuel : nat) (self : ref) (pos : pyval) (size rotation : float) (ontop : bool)
    (scale : option float) (s : state) (o : pyobj) :
  objs s !! self = Some o -> cls o = CAssembly ->
  Forall (unmoved s) (objects o) ->
  (forall x0 x1 y0 y1 sa, exists r, resolve_pos pos x0 x1 y0 y1 sa = (Ok r, sa)) ->
  float_truthy rotation = true ->
  exists g s',
    Assembly_clone2d from_archive fuel self pos size rotation ontop scale s = (Ok g, s') /\
    forall r x, objs s !! r = Some x ->
      objs s' !! r =
        Some (set_rotations
                (rotations x ++
                 replicate (turns s (concat (map (shared_yield s) (objects o))) r) rotation)
                x).
Proof.
  intros Hself Hcls Hun Hres Hrot. unfold Assembly_clone2d.
  assert (exists sa,
    (match scale with
     | Some sc =>
         log LWarning "clone2d(scale=...) is deprecated, use clone2d(size=...) instead" ;;;
         ret sc
     | None => ret size
     end) s = (Ok (default size scale), sa) /\ objs sa = objs s) as (sa & Hsize & Hsa).
  { destruct scale; eexists; split; reflexivity. }
  rewrite (bind_eq_Ok _ _ _ _ _ Hsize).
  assert (Hun' : Forall (unmoved sa) (objects o)).
  { eapply Forall_impl; [exact Hun|]. intros c Hc r oc E Hr. apply (Hc r oc E).
    now rewrite <- Hsa. }
  assert (Hsy : forall c, shared_yield sa c = shared_yield s c).
  { intros c. unfold shared_yield. now rewrite Hsa. }
  assert (Hself' : objs sa !! self = Some o) by (now rewrite Hsa).
  rewrite (bind_eq_Ok _ _ _ _ _ (deref_eq _ _ _ Hself')).
  destruct (xbounds o) as [bx0 bx1], (ybounds o) as [by0 by1],
    (position o) as [[px py] pz] eqn:Epos.
  set (x0 := (bx0 - px)%float). set (x1 := (bx1 - px)%float).
  set (y0 := (by0 - py)%float). set (y1 := (by1 - py)%float).
  destruct (Hres x0 x1 y0 y1 sa) as [[off P] Hr].
  rewrite (bind_eq_Ok _ _ _ _ _ Hr).
  destruct (Group_init_nil_fields sa) as (og & Hg & Hgc & Hgp & Hgk & Hge).
  rewrite (bind_eq_Ok _ _ _ _ _ Hg).
  set (group := length (objs sa)) in *.
  set (sb := mkState (objs sa ++ [og]) (logs sa)) in *.
  assert (Hgnot : cls og <> CAssembly) by (rewrite Hgc; discriminate).
  assert (Hflat : recursive_unpack from_archive fuel self sb =
            (Ok (concat (map (shared_yield s) (objects o))), sb)).
  { rewrite (flatten_shares_unmoved_eq from_archive fuel sb self o).
    - do 3 f_equal. apply map_ext. intros c. unfold sb.
      rewrite shared_yield_snoc by assumption. apply Hsy.
    - cbn. now apply lookup_app_l_Some.
    - exact Hcls.
    - eapply Forall_impl; [exact Hun'|]. intros c. now apply unmoved_snoc. }
  rewrite (bind_eq_Ok _ _ _ _ _ Hflat).
  destruct (clone2d_loop_effect self group (default size scale) x0 x1 off P rotation ontop
              (concat (map (shared_yield s) (objects o))) Hrot sb og)
    as (sd & ogd & Hloop & Hgd & _ & Heff).
  { cbn. now apply list_lookup_middle. }
  { exact Hgc. }
  rewrite (bind_eq_Ok _ _ _ _ _ Hloop).
  assert (Hold : forall r x, objs s !! r = Some x -> r <> group /\ objs sb !! r = Some x).
  { intros r x Hx. rewrite <- Hsa in Hx. split.
    - apply lookup_lt_Some in Hx. unfold group. lia.
    - cbn. now apply lookup_app_l_Some. }
  destruct (Hold self o Hself) as [Hsg Hsb].
  rewrite (bind_eq_Ok _ _ _ _ _ (deref_eq _ _ _ (Heff self o Hsg Hsb))).
  pose proof (lookup_lt_Some _ _ _ Hgd) as Hlt.
  rewrite (bind_eq_Ok _ _ _ _ _ (update_eq group _ sd ogd Hgd)).
  match goal with
  | |- context [update group (set_name ?n)] =>
      match goal with
      | |- context [mkState (<[group := ?og1]> (objs sd)) (logs sd)] =>
          rewrite (bind_eq_Ok _ _ _ _ _
                     (update_eq group (set_name n)
                        (mkState (<[group := og1]> (objs sd)) (logs sd))
                        _ (list_lookup_insert_eq _ _ _ Hlt)))
      end
  end.
  eexists _, _. split; [reflexivity|]. cbn [objs].
  intros r x Hx. destruct (Hold r x Hx) as [Hrg Hxb].
  rewrite !list_lookup_insert_ne by congruence.
  rewrite (Heff r x Hrg Hxb). do 3 f_equal.
  unfold turns. do 2 f_equal. apply filter_ext. intros e.
  now apply (turned_same s sb r x x e Hx Hxb).
Qed.

Lemma clone2d_turns_originals_witness :
  turns scene_hist
    (concat (map (shared_yield scene_hist) (objects (the_object scene_hist 6)))) 1 = 2 /\
  exists g s',
    Assembly_clone2d no_archive 0 6 (VStr "bottom-left") 1 30 false None scene_hist
      = (Ok g, s') /\
    forall r x, objs scene_hist !! r = Some x ->
      objs s' !! r =
        Some (set_rotations
                (rotations x ++
                 replicate
                   (turns scene_hist
                      (concat (map (shared_yield scene_hist)
                                 (objects (the_object scene_hist 6)))) r) 30%float)
                x).
Proof.
  split; [reflexivity|].
  apply (clone2d_turns_originals no_archive 0 6 (VStr "bottom-left") 1 30 false None
           scene_hist (the_object scene_hist 6) eq_refl eq_refl).
  - solve_unmoved.
  - now apply keyword_resolves.
  - reflexivity.
Defined.
